(** * berserk-coach: the AI-orchestration slice

    A shallow embedding of the TypeScript services behind the mentor chat:

    - [AICoreService.parseResponse], [processSystemIntents],
      [buildMessagePayload] and the temperature of [callOpenAI] (the AI
      core service),
    - [ActionInterpreter.interpretIntent] and its handlers
      (services/ai/actionInterpreter.ts),
    - [MemoryEngine]: the conversation log, the memory index and
      [retrieveRelevantContext] (services/ai/memoryEngine.ts),
    - [PersonalityEngine]: the persona map, its store and
      [getRecommendedPersonas] (services/ai/personalityEngine.ts).

    JavaScript strings are sequences of UTF-16 code units, a persona's
    temperature is a binary64 float, [AsyncStorage] is a fallible
    key-value store and a [Map] keeps its keys in insertion order: the
    embedding keeps all four. *)

From Stdlib Require Import NArith ZArith List String Ascii Bool Lia PrimFloat.
From Stdlib Require Import DecimalString Sorted.
From stdpp Require Import base option list gmap.

Import ListNotations.
Open Scope N_scope.
Set Warnings "-register-all,-inexact-float".

(** ** JavaScript strings *)

Module JsString.

(** A string value is the list of its UTF-16 code units. *)
Abbreviation jsstring := (list N).

(** Code points of a UTF-8 byte sequence (the encoding of the sources). *)
Fixpoint utf8_decode (bs : list N) : list N :=
  match bs with
  | [] => []
  | b0 :: r0 =>
    if b0 <? 128 then b0 :: utf8_decode r0
    else
      match r0 with
      | [] => []
      | b1 :: r1 =>
        if b0 <? 224 then (b0 mod 32 * 64 + b1 mod 64) :: utf8_decode r1
        else
          match r1 with
          | [] => []
          | b2 :: r2 =>
            if b0 <? 240
            then (b0 mod 16 * 4096 + b1 mod 64 * 64 + b2 mod 64) :: utf8_decode r2
            else
              match r2 with
              | [] => []
              | b3 :: r3 =>
                (b0 mod 8 * 262144 + b1 mod 64 * 4096 + b2 mod 64 * 64 + b3 mod 64)
                  :: utf8_decode r3
              end
          end
      end
  end.

(** UTF-16 code units of a code point: one unit in the basic plane, a
    surrogate pair above it. *)
Definition utf16_units (cp : N) : list N :=
  if cp <? 65536 then [cp]
  else [55296 + (cp - 65536) / 1024; 56320 + (cp - 65536) mod 1024].

Fixpoint bytes_of_string (s : string) : list N :=
  match s with
  | EmptyString => []
  | String a s' => N_of_ascii a :: bytes_of_string s'
  end.

(** [js "..."] is the string value denoted by a source literal. *)
Definition js (s : string) : jsstring :=
  flat_map utf16_units (utf8_decode (bytes_of_string s)).

(** [jsq] reads a literal in which the apostrophe stands for the double
    quote (code unit 34), to write JSON text legibly. *)
Definition jsq (s : string) : jsstring :=
  map (fun c => if c =? 39 then 34 else c) (js s).

#[global] Arguments js : simpl never.
#[global] Arguments jsq : simpl never.

Definition eqb (a b : jsstring) : bool := bool_decide (a = b).

(** ECMAScript WhiteSpace and LineTerminator code points: what
    [String.prototype.trim] strips and what the regular expression class
    [\s] matches. *)
Definition isWhiteSpace (c : N) : bool :=
  (c =? 9) || (c =? 10) || (c =? 11) || (c =? 12) || (c =? 13) || (c =? 32)
  || (c =? 160) || (c =? 5760) || ((8192 <=? c) && (c <=? 8202))
  || (c =? 8232) || (c =? 8233) || (c =? 8239) || (c =? 8287)
  || (c =? 12288) || (c =? 65279).

Fixpoint trimStart (s : jsstring) : jsstring :=
  match s with
  | [] => []
  | c :: s' => if isWhiteSpace c then trimStart s' else s
  end.

Definition trimEnd (s : jsstring) : jsstring := reverse (trimStart (reverse s)).

(** [String.prototype.trim]. *)
Definition trim (s : jsstring) : jsstring := trimEnd (trimStart s).

(** [stripPrefix p s] is the rest of [s] after the prefix [p], if [s]
    starts with [p]. *)
Fixpoint stripPrefix (p s : jsstring) : option jsstring :=
  match p, s with
  | [], _ => Some s
  | _ :: _, [] => None
  | a :: p', b :: s' => if a =? b then stripPrefix p' s' else None
  end.

(** [cut p s] splits [s] around the first occurrence of [p]: the text
    before it and the text after it ([s.indexOf(p)], as a split). *)
Fixpoint cut (p s : jsstring) : option (jsstring * jsstring) :=
  match stripPrefix p s with
  | Some r => Some ([], r)
  | None =>
    match s with
    | [] => None
    | c :: s' =>
      match cut p s' with
      | Some (b, a) => Some (c :: b, a)
      | None => None
      end
    end
  end.

(** [s.replace(p, '')] for a string pattern [p]: the first occurrence of
    [p] is removed, and [s] is returned as it is when there is none. *)
Definition removeFirst (p s : jsstring) : jsstring :=
  match cut p s with
  | Some (b, a) => b ++ a
  | None => s
  end.

(** Every piece of [s] between occurrences of the one-unit separator
    [sep] ([s.split(sep)] without a limit). *)
Fixpoint splitAll (sep : N) (s : jsstring) : list jsstring :=
  match s with
  | [] => [[]]
  | c :: s' =>
    if c =? sep then [] :: splitAll sep s'
    else
      match splitAll sep s' with
      | h :: t => (c :: h) :: t
      | [] => [[c]]
      end
  end.

(** [s.split(sep, limit)]: the pieces are computed over the whole string
    and the array is cut to [limit] entries; the text after the last kept
    piece is dropped. *)
Definition split (sep : N) (limit : nat) (s : jsstring) : list jsstring :=
  firstn limit (splitAll sep s).

(** Pieces of [s] between maximal runs of white space ([s.split(/\s+/)]);
    [cur] is the piece being read (reversed) and [inws] tells that the
    previous unit was white space. *)
Fixpoint splitWs (s : jsstring) (cur : jsstring) (inws : bool) : list jsstring :=
  match s with
  | [] => [reverse cur]
  | c :: s' =>
    if isWhiteSpace c
    then (if inws then splitWs s' cur true else reverse cur :: splitWs s' [] true)
    else splitWs s' (c :: cur) false
  end.

(** Decimal digits of a natural number ([String(n)] for an integer, as in
    a template literal). *)
Definition ofN (n : N) : jsstring :=
  bytes_of_string (NilEmpty.string_of_uint (N.to_uint n)).

End JsString.

Import JsString.

(** ** Insertion-ordered maps *)

(** A JavaScript [Map] with string keys (and the own properties of an
    object): the entries in insertion order, each key once. *)
Module JsMap.

Section Ops.
Context {V : Type}.

Fixpoint get (k : jsstring) (m : list (jsstring * V)) : option V :=
  match m with
  | [] => None
  | (k', v) :: m' => if JsString.eqb k k' then Some v else get k m'
  end.

(** [set]: an existing key keeps its place and takes the new value, a new
    key goes last. *)
Fixpoint set (k : jsstring) (v : V) (m : list (jsstring * V)) : list (jsstring * V) :=
  match m with
  | [] => [(k, v)]
  | (k', v') :: m' =>
    if JsString.eqb k k' then (k, v) :: m' else (k', v') :: set k v m'
  end.

Fixpoint delete (k : jsstring) (m : list (jsstring * V)) : list (jsstring * V) :=
  match m with
  | [] => []
  | (k', v') :: m' =>
    if JsString.eqb k k' then m' else (k', v') :: delete k m'
  end.

Definition values (m : list (jsstring * V)) : list V := map snd m.

Definition size (m : list (jsstring * V)) : nat := length m.

End Ops.

End JsMap.

(** ** Arrays *)

Module JsArray.

Section Ops.
Context {A : Type}.

(** [a.slice(0, end)] for an integral [end]. *)
Definition sliceTo (e : Z) (a : list A) : list A :=
  let len := Z.of_nat (length a) in
  let final := if (e <? 0)%Z then Z.max (len + e) 0 else Z.min e len in
  take (Z.to_nat final) a.

(** [a.sort(compare)], a stable sort: an element goes behind the sorted
    rest of the array as far as [compare] puts it after what it meets. *)
Fixpoint insertSorted (compare : A → A → Z) (x : A) (sorted : list A) : list A :=
  match sorted with
  | [] => [x]
  | y :: rest =>
    if (0 <? compare x y)%Z then y :: insertSorted compare x rest
    else x :: y :: rest
  end.

Fixpoint sort (compare : A → A → Z) (a : list A) : list A :=
  match a with
  | [] => []
  | x :: rest => insertSorted compare x (sort compare rest)
  end.

End Ops.

(** [a.join(sep)] on an array of strings. *)
Fixpoint join (sep : jsstring) (a : list jsstring) : jsstring :=
  match a with
  | [] => []
  | x :: rest =>
    match rest with
    | [] => x
    | _ => x ++ sep ++ join sep rest
    end
  end.

End JsArray.

(** ** JSON values and [JSON.parse] *)

Module Json.

(** A number read from JSON text is kept as the decimal it was written
    as, [(-1)^neg * coeff * 10^exp10]: the code only passes such numbers
    on or tests them for truth, it never computes with them. *)
Record numeral := Numeral { neg : bool; coeff : N; exp10 : Z }.

(** A JavaScript value as the intent payloads have them: what
    [JSON.parse] returns, and [undefined] for a property that is not
    there. An object is the list of its own properties in insertion
    order. *)
Inductive value :=
| VUndefined
| VNull
| VBool (b : bool)
| VNum (n : numeral)
| VStr (s : jsstring)
| VArr (elems : list value)
| VObj (members : list (jsstring * value)).

(** The numeral rounds to zero as a binary64: it is zero, or at most
    half the least subnormal [2^-1074]. *)
Definition isZero (n : numeral) : bool :=
  (coeff n =? 0)
  || ((exp10 n <? 0)%Z
      && (Z.of_N (coeff n) * 2 ^ 1075 <=? 10 ^ (- exp10 n))%Z).

(** [ToBoolean]. *)
Definition truthy (v : value) : bool :=
  match v with
  | VUndefined | VNull => false
  | VBool b => b
  | VNum n => negb (isZero n)
  | VStr s => match s with [] => false | _ => true end
  | VArr _ | VObj _ => true
  end.

(** [a || b]. *)
Definition or (a b : value) : value := if truthy a then a else b.

(** Own property lookup and definition. *)
Definition lookup (k : jsstring) (ms : list (jsstring * value)) : option value :=
  JsMap.get k ms.

Definition define (k : jsstring) (v : value) (ms : list (jsstring * value))
  : list (jsstring * value) :=
  JsMap.set k v ms.

(** JSON white space: tab, line feed, carriage return, space. *)
Definition isJsonWs (c : N) : bool :=
  (c =? 9) || (c =? 10) || (c =? 13) || (c =? 32).

Fixpoint skipWs (s : jsstring) : jsstring :=
  match s with
  | [] => []
  | c :: s' => if isJsonWs c then skipWs s' else s
  end.

Definition isDigit (c : N) : bool := (48 <=? c) && (c <=? 57).

Definition hexDigit (c : N) : option N :=
  if (48 <=? c) && (c <=? 57) then Some (c - 48)
  else if (65 <=? c) && (c <=? 70) then Some (c - 55)
  else if (97 <=? c) && (c <=? 102) then Some (c - 87)
  else None.

(** The characters of a string literal after its opening quote, up to
    the closing quote; [acc] holds the units read so far, reversed. *)
Fixpoint parseChars (s : jsstring) (acc : jsstring) : option (jsstring * jsstring) :=
  match s with
  | [] => None
  | c :: s1 =>
    if c =? 34 then Some (reverse acc, s1)
    else if c =? 92 then
      match s1 with
      | [] => None
      | e :: s2 =>
        if e =? 34 then parseChars s2 (34 :: acc)
        else if e =? 92 then parseChars s2 (92 :: acc)
        else if e =? 47 then parseChars s2 (47 :: acc)
        else if e =? 98 then parseChars s2 (8 :: acc)
        else if e =? 102 then parseChars s2 (12 :: acc)
        else if e =? 110 then parseChars s2 (10 :: acc)
        else if e =? 114 then parseChars s2 (13 :: acc)
        else if e =? 116 then parseChars s2 (9 :: acc)
        else if e =? 117 then
          match s2 with
          | h1 :: h2 :: h3 :: h4 :: s3 =>
            match hexDigit h1, hexDigit h2, hexDigit h3, hexDigit h4 with
            | Some d1, Some d2, Some d3, Some d4 =>
              parseChars s3 (d1 * 4096 + d2 * 256 + d3 * 16 + d4 :: acc)
            | _, _, _, _ => None
            end
          | _ => None
          end
        else None
      end
    else if c <? 32 then None
    else parseChars s1 (c :: acc)
  end.

(** A maximal run of decimal digits: its value continuing [acc], how
    many digits it has, and the rest. *)
Fixpoint parseDigits (s : jsstring) (acc : N) (count : nat) : N * nat * jsstring :=
  match s with
  | c :: s' =>
    if isDigit c then parseDigits s' (acc * 10 + (c - 48)) (S count)
    else (acc, count, s)
  | [] => (acc, count, s)
  end.

(** The integer part of a number: a single 0, or a run of digits that
    does not start with 0. *)
Definition parseInt (s : jsstring) : option (N * jsstring) :=
  match s with
  | c :: s' =>
    if c =? 48 then Some (0, s')
    else if isDigit c then
      match parseDigits s 0 0 with (n, _, r) => Some (n, r) end
    else None
  | [] => None
  end.

(** An optional fraction: the coefficient extended by its digits and
    their count. *)
Definition parseFrac (n : N) (s : jsstring) : option (N * nat * jsstring) :=
  match s with
  | c :: s' =>
    if c =? 46 then
      match parseDigits s' n 0 with
      | (_, O, _) => None
      | r => Some r
      end
    else Some (n, O, s)
  | [] => Some (n, O, s)
  end.

(** An optional exponent part. *)
Definition parseExp (s : jsstring) : option (Z * jsstring) :=
  match s with
  | c :: s' =>
    if (c =? 101) || (c =? 69) then
      let '(sign, s2) :=
        match s' with
        | d :: s'' =>
          if d =? 43 then (1%Z, s'')
          else if d =? 45 then ((-1)%Z, s'')
          else (1%Z, s')
        | [] => (1%Z, s')
        end in
      match parseDigits s2 0 0 with
      | (_, O, _) => None
      | (e, _, r) => Some ((sign * Z.of_N e)%Z, r)
      end
    else Some (0%Z, s)
  | [] => Some (0%Z, s)
  end.

Definition parseNumber (s : jsstring) : option (numeral * jsstring) :=
  let '(sg, s1) :=
    match s with
    | c :: s' => if c =? 45 then (true, s') else (false, s)
    | [] => (false, s)
    end in
  match parseInt s1 with
  | None => None
  | Some (i, s2) =>
    match parseFrac i s2 with
    | None => None
    | Some (m, k, s3) =>
      match parseExp s3 with
      | None => None
      | Some (e, s4) => Some (Numeral sg m (e - Z.of_nat k), s4)
      end
    end
  end.

(** Outcome of a parser: a value and the unread text, a syntax error,
    or recursion budget exhausted (which [parse] below never meets, see
    [parseValue_fuel]). *)
Inductive presult :=
| POk (v : value) (rest : jsstring)
| PSyntaxError
| POutOfFuel.

Fixpoint parseValue (fuel : nat) (s : jsstring) : presult :=
  match fuel with
  | O => POutOfFuel
  | S f =>
    match skipWs s with
    | [] => PSyntaxError
    | c :: r =>
      if c =? 123 then
        match skipWs r with
        | c' :: r' => if c' =? 125 then POk (VObj []) r' else parseMembers f r []
        | [] => PSyntaxError
        end
      else if c =? 91 then
        match skipWs r with
        | c' :: r' => if c' =? 93 then POk (VArr []) r' else parseElements f r []
        | [] => PSyntaxError
        end
      else if c =? 34 then
        match parseChars r [] with
        | Some (str, r') => POk (VStr str) r'
        | None => PSyntaxError
        end
      else if (c =? 45) || isDigit c then
        match parseNumber (c :: r) with
        | Some (n, r') => POk (VNum n) r'
        | None => PSyntaxError
        end
      else
        match stripPrefix (js "true") (c :: r) with
        | Some r' => POk (VBool true) r'
        | None =>
          match stripPrefix (js "false") (c :: r) with
          | Some r' => POk (VBool false) r'
          | None =>
            match stripPrefix (js "null") (c :: r) with
            | Some r' => POk VNull r'
            | None => PSyntaxError
            end
          end
        end
    end
  end
with parseElements (fuel : nat) (s : jsstring) (acc : list value) : presult :=
  match fuel with
  | O => POutOfFuel
  | S f =>
    match parseValue f s with
    | POk v r =>
      match skipWs r with
      | c :: r' =>
        if c =? 44 then parseElements f r' (v :: acc)
        else if c =? 93 then POk (VArr (reverse (v :: acc))) r'
        else PSyntaxError
      | [] => PSyntaxError
      end
    | e => e
    end
  end
with parseMembers (fuel : nat) (s : jsstring) (acc : list (jsstring * value)) : presult :=
  match fuel with
  | O => POutOfFuel
  | S f =>
    match skipWs s with
    | q :: r0 =>
      if q =? 34 then
        match parseChars r0 [] with
        | Some (k, r1) =>
          match skipWs r1 with
          | c1 :: r2 =>
            if c1 =? 58 then
              match parseValue f r2 with
              | POk v r3 =>
                match skipWs r3 with
                | c :: r' =>
                  if c =? 44 then parseMembers f r' (define k v acc)
                  else if c =? 125 then POk (VObj (define k v acc)) r'
                  else PSyntaxError
                | [] => PSyntaxError
                end
              | e => e
              end
            else PSyntaxError
          | [] => PSyntaxError
          end
        | None => PSyntaxError
        end
      else PSyntaxError
    | [] => PSyntaxError
    end
  end.

(** [JSON.parse(text)]: the value, or [None] where it throws a
    SyntaxError. *)
Definition parse (text : jsstring) : option value :=
  match parseValue (2 * length text + 1) text with
  | POk v rest => match skipWs rest with [] => Some v | _ => None end
  | _ => None
  end.

End Json.

(** ** Exceptions *)

(** What a [throw] carries: an [Error] with its message, or one of the
    errors raised by the platform (a property read on [null] or a call of
    something that is not a function, malformed JSON text, a rejected
    storage operation). *)
Inductive exn :=
| Error (msg : string)
| TypeError
| SyntaxError
| StorageError.

(** A computation that returns or throws. *)
Inductive result (A : Type) :=
| Ok (a : A)
| Throw (e : exn).

Arguments Ok {A} a.
Arguments Throw {A} e.

#[global] Instance result_ret : MRet result := fun A a => Ok a.
#[global] Instance result_bind : MBind result := fun A B f m =>
  match m with
  | Ok a => f a
  | Throw e => Throw e
  end.
#[global] Instance result_fmap : FMap result := fun A B f m =>
  match m with
  | Ok a => Ok (f a)
  | Throw e => Throw e
  end.

(** ** Action interpreter (services/ai/actionInterpreter.ts) *)

Module ActionInterpreter.

Import Json.

(** [SystemIntent] of types/ai.ts. *)
Record SystemIntent := { action : jsstring; data : value }.

Inductive ActionType :=
| CREATE_TASK | UPDATE_TASK | DELETE_TASK | CREATE_GOAL | UPDATE_GOAL
| CREATE_HABIT | COMPLETE_HABIT | NAVIGATE | CREATE_REFLECTION
| DISPLAY_MESSAGE | TRACK_METRIC.

(** An [AppAction]: its [type] tag and its [payload] object, whose
    properties are listed as the handler's object literal writes them. *)
Record AppAction := { type : ActionType; payload : list (jsstring * value) }.

(** What [new Date()] gives to the handlers that ask for it:
    [toISOString()] and [toLocaleDateString()]. *)
Record Clock := { isoString : jsstring; localeDateString : jsstring }.

(** [data.k] for the property names read below. Reading a property of
    [null] or [undefined] throws a TypeError; an object gives its own
    property or [undefined]; a string, number, boolean or array gives
    [undefined], none of these names being one of their properties (nor of
    [Object.prototype]). *)
Definition get (data : value) (k : string) : result value :=
  match data with
  | VUndefined | VNull => Throw TypeError
  | VObj ms => Ok (default VUndefined (lookup (js k) ms))
  | _ => Ok VUndefined
  end.

Definition str (s : string) : value := VStr (js s).

(** [list.includes(v)] on a list of string literals. *)
Definition includes (l : list string) (v : value) : bool :=
  match v with
  | VStr s => existsb (fun x => JsString.eqb (js x) s) l
  | _ => false
  end.

Definition field (k : string) (v : value) : jsstring * value := (js k, v).

Definition handleCreateTask (data : value) : result AppAction :=
  title ← get data "title";
  if negb (truthy title) then Throw (Error "Task title is required") else
  p ← get data "priority";
  let priority := or p (str "medium") in
  let priority :=
    if negb (includes ["high"; "medium"; "low"]%string priority)
    then str "medium" else priority in
  description ← get data "description";
  dueDate ← get data "dueDate";
  category ← get data "category";
  tags ← get data "tags";
  status ← get data "status";
  Ok {| type := CREATE_TASK;
        payload := [ field "title" title;
                     field "description" (or description (str ""));
                     field "dueDate" (or dueDate VNull);
                     field "priority" priority;
                     field "category" (or category VNull);
                     field "tags" (or tags (VArr []));
                     field "status" (or status (str "pending")) ] |}.

Definition handleUpdateTask (data : value) : result AppAction :=
  id ← get data "id";
  if negb (truthy id) then Throw (Error "Task ID is required") else
  title ← get data "title";
  description ← get data "description";
  dueDate ← get data "dueDate";
  priority ← get data "priority";
  category ← get data "category";
  tags ← get data "tags";
  status ← get data "status";
  Ok {| type := UPDATE_TASK;
        payload := [ field "id" id;
                     field "updates" (VObj [ field "title" title;
                                             field "description" description;
                                             field "dueDate" dueDate;
                                             field "priority" priority;
                                             field "category" category;
                                             field "tags" tags;
                                             field "status" status ]) ] |}.

Definition handleDeleteTask (data : value) : result AppAction :=
  id ← get data "id";
  if negb (truthy id) then Throw (Error "Task ID is required") else
  Ok {| type := DELETE_TASK; payload := [ field "id" id ] |}.

Definition handleCreateGoal (data : value) : result AppAction :=
  title ← get data "title";
  if negb (truthy title) then Throw (Error "Goal title is required") else
  description ← get data "description";
  dueDate ← get data "dueDate";
  parentId ← get data "parentId";
  status ← get data "status";
  tags ← get data "tags";
  category ← get data "category";
  metrics ← get data "metrics";
  Ok {| type := CREATE_GOAL;
        payload := [ field "title" title;
                     field "description" (or description (str ""));
                     field "dueDate" (or dueDate VNull);
                     field "parentId" (or parentId VNull);
                     field "status" (or status (str "not_started"));
                     field "tags" (or tags (VArr []));
                     field "category" (or category VNull);
                     field "metrics" (or metrics (VArr [])) ] |}.

Definition handleUpdateGoal (data : value) : result AppAction :=
  id ← get data "id";
  if negb (truthy id) then Throw (Error "Goal ID is required") else
  title ← get data "title";
  description ← get data "description";
  dueDate ← get data "dueDate";
  status ← get data "status";
  progress ← get data "progress";
  tags ← get data "tags";
  category ← get data "category";
  metrics ← get data "metrics";
  Ok {| type := UPDATE_GOAL;
        payload := [ field "id" id;
                     field "updates" (VObj [ field "title" title;
                                             field "description" description;
                                             field "dueDate" dueDate;
                                             field "status" status;
                                             field "progress" progress;
                                             field "tags" tags;
                                             field "category" category;
                                             field "metrics" metrics ]) ] |}.

Definition handleCreateHabit (data : value) : result AppAction :=
  title ← get data "title";
  if negb (truthy title) then Throw (Error "Habit title is required") else
  description ← get data "description";
  frequency ← get data "frequency";
  timeOfDay ← get data "timeOfDay";
  category ← get data "category";
  triggers ← get data "triggers";
  obstacles ← get data "obstacles";
  strategies ← get data "strategies";
  Ok {| type := CREATE_HABIT;
        payload := [ field "title" title;
                     field "description" (or description (str ""));
                     field "frequency" (or frequency (str "daily"));
                     field "timeOfDay" (or timeOfDay VNull);
                     field "category" (or category VNull);
                     field "triggers" (or triggers (VArr []));
                     field "obstacles" (or obstacles (VArr []));
                     field "strategies" (or strategies (VArr [])) ] |}.

Definition handleCompleteHabit (now : Clock) (data : value) : result AppAction :=
  id ← get data "id";
  if negb (truthy id) then Throw (Error "Habit ID is required") else
  date ← get data "date";
  Ok {| type := COMPLETE_HABIT;
        payload := [ field "id" id;
                     field "date"
                       (or date (VStr (hd [] (splitAll 84 (isoString now))))) ] |}.

Definition handleNavigate (data : value) : result AppAction :=
  screen ← get data "screen";
  if negb (truthy screen) then Throw (Error "Navigation screen is required") else
  params ← get data "params";
  Ok {| type := NAVIGATE;
        payload := [ field "screen" screen;
                     field "params" (or params (VObj [])) ] |}.

Definition handleCreateReflection (now : Clock) (data : value) : result AppAction :=
  content ← get data "content";
  if negb (truthy content) then Throw (Error "Reflection content is required") else
  title ← get data "title";
  tags ← get data "tags";
  mood ← get data "mood";
  relatedGoals ← get data "relatedGoals";
  Ok {| type := CREATE_REFLECTION;
        payload := [ field "content" content;
                     field "title"
                       (or title (VStr (js "Reflection - " ++ localeDateString now)));
                     field "tags" (or tags (VArr []));
                     field "mood" (or mood VNull);
                     field "relatedGoals" (or relatedGoals (VArr [])) ] |}.

Definition handleDisplayMessage (data : value) : result AppAction :=
  message ← get data "message";
  if negb (truthy message) then Throw (Error "Display message is required") else
  ty ← get data "type";
  duration ← get data "duration";
  Ok {| type := DISPLAY_MESSAGE;
        payload := [ field "message" message;
                     field "type" (or ty (str "info"));
                     field "duration" (or duration (VNum (Numeral false 3000 0))) ] |}.

Definition handleTrackMetric (now : Clock) (data : value) : result AppAction :=
  name ← get data "name";
  v ← get data "value";
  if negb (truthy name) || match v with VUndefined => true | _ => false end
  then Throw (Error "Metric name and value are required") else
  timestamp ← get data "timestamp";
  category ← get data "category";
  notes ← get data "notes";
  Ok {| type := TRACK_METRIC;
        payload := [ field "name" name;
                     field "value" v;
                     field "timestamp" (or timestamp (VStr (isoString now)));
                     field "category" (or category VNull);
                     field "notes" (or notes VNull) ] |}.

(** [interpretIntent]: [Ok None] is the [null] returned for an action
    name outside the switch. *)
Definition interpretIntent (now : Clock) (intent : SystemIntent)
  : result (option AppAction) :=
  let a := action intent in
  let d := data intent in
  if JsString.eqb a (js "create_task") then Some <$> handleCreateTask d
  else if JsString.eqb a (js "update_task") then Some <$> handleUpdateTask d
  else if JsString.eqb a (js "delete_task") then Some <$> handleDeleteTask d
  else if JsString.eqb a (js "create_goal") then Some <$> handleCreateGoal d
  else if JsString.eqb a (js "update_goal") then Some <$> handleUpdateGoal d
  else if JsString.eqb a (js "create_habit") then Some <$> handleCreateHabit d
  else if JsString.eqb a (js "complete_habit") then Some <$> handleCompleteHabit now d
  else if JsString.eqb a (js "navigate") then Some <$> handleNavigate d
  else if JsString.eqb a (js "create_reflection") then Some <$> handleCreateReflection now d
  else if JsString.eqb a (js "display_message") then Some <$> handleDisplayMessage d
  else if JsString.eqb a (js "track_metric") then Some <$> handleTrackMetric now d
  else Ok None.

End ActionInterpreter.

(** ** Types of types/ai.ts *)

Inductive MessageRole := user | assistant | system.

Module Message.
(** A conversation message. The optional [metadata] property, which the
    services below neither set nor read, is left out. *)
Record t := { id : jsstring; role : MessageRole; content : jsstring; timestamp : jsstring }.
End Message.

Module PersonaProfile.
Record t := {
  id : jsstring;
  name : jsstring;
  description : jsstring;
  icon : jsstring;
  communicationStyle : list jsstring;
  values : list jsstring;
  approach : jsstring;
  avoidTopics : list jsstring;
  temperature : float;
  welcomeMessage : jsstring;
  customInstructions : option jsstring;
  isCustom : option bool
}.

Definition with_id (i : jsstring) (p : t) : t :=
  {| id := i; name := name p; description := description p; icon := icon p;
     communicationStyle := communicationStyle p; values := values p;
     approach := approach p; avoidTopics := avoidTopics p;
     temperature := temperature p; welcomeMessage := welcomeMessage p;
     customInstructions := customInstructions p; isCustom := isCustom p |}.

Definition with_name (n : jsstring) (p : t) : t :=
  {| id := id p; name := n; description := description p; icon := icon p;
     communicationStyle := communicationStyle p; values := values p;
     approach := approach p; avoidTopics := avoidTopics p;
     temperature := temperature p; welcomeMessage := welcomeMessage p;
     customInstructions := customInstructions p; isCustom := isCustom p |}.

Definition with_temperature (x : float) (p : t) : t :=
  {| id := id p; name := name p; description := description p; icon := icon p;
     communicationStyle := communicationStyle p; values := values p;
     approach := approach p; avoidTopics := avoidTopics p;
     temperature := x; welcomeMessage := welcomeMessage p;
     customInstructions := customInstructions p; isCustom := isCustom p |}.

Definition with_isCustom (c : option bool) (p : t) : t :=
  {| id := id p; name := name p; description := description p; icon := icon p;
     communicationStyle := communicationStyle p; values := values p;
     approach := approach p; avoidTopics := avoidTopics p;
     temperature := temperature p; welcomeMessage := welcomeMessage p;
     customInstructions := customInstructions p; isCustom := c |}.
End PersonaProfile.

Module MemoryItem.
(** What [indexMessageForSearch] stores for a message. *)
Record t := {
  id : jsstring;
  conversationId : jsstring;
  content : jsstring;
  timestamp : jsstring;
  role : MessageRole;
  keywords : list jsstring
}.
End MemoryItem.

(** ** AI core service *)

Module AICoreService.

Import ActionInterpreter.

(** [ToBoolean] of a number: false on [+0], [-0] and [NaN]. *)
Definition truthyNumber (x : float) : bool :=
  negb (PrimFloat.eqb x 0 || PrimFloat.is_nan x).

(** One entry of the [messages] array of a request. *)
Record ChatMessage := { role : jsstring; content : jsstring }.

(** The body that [callOpenAI] posts to the completion endpoint. *)
Record CompletionRequest := {
  model : jsstring;
  messages : list ChatMessage;
  temperature : float;
  max_tokens : N
}.

(** [callOpenAI], up to the network: the request it sends for the
    current persona ([None] is [null]). The temperature is
    [this.currentPersona?.temperature || 0.7]. *)
Definition callOpenAI_request (currentPersona : option PersonaProfile.t)
    (msgs : list ChatMessage) : CompletionRequest :=
  {| model := js "gpt-4-turbo";
     messages := msgs;
     temperature :=
       match currentPersona with
       | Some p =>
         if truthyNumber (PersonaProfile.temperature p)
         then PersonaProfile.temperature p else 0.7%float
       | None => 0.7%float
       end;
     max_tokens := 1000 |}.

Definition openTag : jsstring := js "<system>".
Definition closeTag : jsstring := js "</system>".

#[global] Arguments openTag : simpl never.
#[global] Arguments closeTag : simpl never.

(** One [systemIntentRegex.exec(response)] of the global, dot-all
    pattern [<system>(.*?)</system>], on the text [rest] that starts at
    [lastIndex]: the whole match, its group 1 and the text after the
    match (where the next [exec] starts). The match starts at the first
    opening tag and, the group being lazy, ends with the first closing tag
    after it; if no closing tag follows the first opening tag, none
    follows a later one either and the result is [null]. *)
Definition exec (rest : jsstring) : option (jsstring * jsstring * jsstring) :=
  match cut openTag rest with
  | None => None
  | Some (_, afterOpen) =>
    match cut closeTag afterOpen with
    | None => None
    | Some (group1, rest') => Some (openTag ++ group1 ++ closeTag, group1, rest')
    end
  end.

(** The part of the loop body before [intents.push]: the intent read
    from group 1, or the exception thrown by [JSON.parse]. *)
Definition parseIntent (group1 : jsstring) : result SystemIntent :=
  let intentText := trim group1 in
  let parts := split 58 2 intentText in
  let action := hd [] parts in
  match nth_error parts 1 with
  | Some (c :: dataStr) =>
    match Json.parse (trim (c :: dataStr)) with
    | Some data => Ok {| action := trim action; data := data |}
    | None => Throw SyntaxError
    end
  | _ => Ok {| action := trim action; data := Json.VObj [] |}
  end.

(** The [while] loop of [parseResponse]; [rest] is the response from
    [lastIndex] on. Every match is at least 17 units long, so [fuel] at
    least the length of [rest] is never used up ([scan_unfold]). *)
Fixpoint scan (fuel : nat) (rest : jsstring) (intents : list SystemIntent)
    (cleanText : jsstring) : list SystemIntent * jsstring :=
  match fuel with
  | O => (intents, cleanText)
  | S fuel' =>
    match exec rest with
    | None => (intents, cleanText)
    | Some (match0, group1, rest') =>
      match parseIntent group1 with
      | Ok intent =>
        scan fuel' rest' (intents ++ [intent]) (removeFirst match0 cleanText)
      | Throw _ => scan fuel' rest' intents cleanText
      end
    end
  end.

Record Parsed := { text : jsstring; intents : list SystemIntent }.

Definition parseResponse (response : jsstring) : Parsed :=
  let '(intents, cleanText) := scan (length response) response [] response in
  {| text := trim cleanText; intents := intents |}.

(** [processSystemIntents]: an intent whose interpretation throws is
    logged and skipped, [null] is skipped. *)
Fixpoint processSystemIntents (now : Clock) (intents : list SystemIntent)
  : list AppAction :=
  match intents with
  | [] => []
  | intent :: more =>
    match interpretIntent now intent with
    | Ok (Some a) => a :: processSystemIntents now more
    | _ => processSystemIntents now more
    end
  end.

(** The name of a role, as the [role] property of a message has it. *)
Definition roleName (r : MessageRole) : jsstring :=
  match r with
  | user => js "user"
  | assistant => js "assistant"
  | system => js "system"
  end.

Definition nl : jsstring := [10].
Definition indent (n : nat) : jsstring := replicate n 32.

(** [buildMessagePayload]: [systemInstructions] and [contextWindow] are
    the fields of the service, [userProfileJson] is
    [JSON.stringify(userProfile, null, 2)] and [localeNow] is
    [new Date().toLocaleString('ru-RU')]. *)
Definition buildMessagePayload (systemInstructions : jsstring)
    (contextWindow : list Message.t)
    (relevantMemories userProfileJson localeNow : jsstring) : list ChatMessage :=
  [ {| role := js "system"; content := systemInstructions |};
    {| role := js "system";
       content :=
         nl
         ++ indent 10
         ++ js "Информация о пользователе:"
         ++ nl
         ++ indent 10
         ++ userProfileJson
         ++ nl
         ++ indent 10
         ++ nl
         ++ indent 10
         ++ js "Релевантный контекст из предыдущих разговоров:"
         ++ nl
         ++ indent 10
         ++ relevantMemories
         ++ nl
         ++ indent 10
         ++ nl
         ++ indent 10
         ++ js "Текущая дата и время: "
         ++ localeNow
         ++ nl
         ++ indent 8 |} ]
  ++ map (fun msg => {| role := roleName (Message.role msg);
                        content := Message.content msg |})
         (drop (length contextWindow - 10) contextWindow).

End AICoreService.

(** ** AsyncStorage and the effects of the services *)

Module AsyncStorage.

(** AsyncStorage keeps JSON text; the model keeps the value that the text
    denotes, tagged by its shape ([JSON.parse (JSON.stringify v)] is taken
    to be [v]). *)
Inductive stored :=
| SMessages (l : list Message.t)
| SMemoryItem (i : MemoryItem.t)
| SStrings (l : list jsstring)
| SPersonas (l : list PersonaProfile.t).

(** The state the services run in:
    - [store]: the contents of AsyncStorage;
    - [faults]: which of the coming storage operations reject, in order
      ([true] rejects); past the end of the list every operation succeeds;
    - [console]: the fixed text of each message that [console.error] has
      printed, oldest first;
    - [personas]: the [personas] map of the [PersonalityEngine] singleton. *)
Record World := {
  store : gmap jsstring stored;
  faults : list bool;
  console : list string;
  personas : list (jsstring * PersonaProfile.t)
}.

Definition with_store (s : gmap jsstring stored) (w : World) : World :=
  {| store := s; faults := faults w; console := console w; personas := personas w |}.
Definition with_faults (f : list bool) (w : World) : World :=
  {| store := store w; faults := f; console := console w; personas := personas w |}.
Definition with_console (c : list string) (w : World) : World :=
  {| store := store w; faults := faults w; console := c; personas := personas w |}.
Definition with_personas (p : list (jsstring * PersonaProfile.t)) (w : World) : World :=
  {| store := store w; faults := faults w; console := console w; personas := p |}.

(** An [async] function: it runs from a world to a result, returned or
    thrown, and a new world. *)
Definition M (A : Type) : Type := World → result A * World.

#[global] Instance M_ret : MRet M := fun A a w => (Ok a, w).
#[global] Instance M_bind : MBind M := fun A B f m w =>
  match m w with
  | (Ok a, w') => f a w'
  | (Throw e, w') => (Throw e, w')
  end.

Definition throw {A} (e : exn) : M A := fun w => (Throw e, w).

(** [try { body } catch (e) { handler e }]. *)
Definition tryCatch {A} (body : M A) (handler : exn → M A) : M A := fun w =>
  match body w with
  | (Ok a, w') => (Ok a, w')
  | (Throw e, w') => handler e w'
  end.

Definition consoleError (msg : string) : M unit := fun w =>
  (Ok tt, with_console (console w ++ [msg]) w).

(** The next storage operation takes its outcome from [faults]; a
    rejected operation leaves the store as it was. *)
Definition attempt : M unit := fun w =>
  match faults w with
  | true :: fs => (Throw StorageError, with_faults fs w)
  | false :: fs => (Ok tt, with_faults fs w)
  | [] => (Ok tt, w)
  end.

Definition gets {A} (f : World → A) : M A := fun w => (Ok (f w), w).
Definition modify (f : World → World) : M unit := fun w => (Ok tt, f w).

Definition getItem (key : jsstring) : M (option stored) :=
  attempt;; gets (fun w => store w !! key).

Definition setItem (key : jsstring) (v : stored) : M unit :=
  attempt;; modify (fun w => with_store (<[key := v]> (store w)) w).

Definition removeItem (key : jsstring) : M unit :=
  attempt;; modify (fun w => with_store (delete key (store w)) w).

(** [for (const x of l) { await f x }]. *)
Fixpoint forEach {A} (f : A → M unit) (l : list A) : M unit :=
  match l with
  | [] => mret tt
  | x :: l' => f x;; forEach f l'
  end.

(** Reading a stored value at the type the reader expects. A value of
    another shape makes the reader throw: that is where the code would
    fail on it ([push] on something that is not an array) or go on with
    data of the wrong type. *)
Definition asMessages (v : stored) : M (list Message.t) :=
  match v with SMessages l => mret l | _ => throw TypeError end.
Definition asStrings (v : stored) : M (list jsstring) :=
  match v with SStrings l => mret l | _ => throw TypeError end.
Definition asPersonas (v : stored) : M (list PersonaProfile.t) :=
  match v with SPersonas l => mret l | _ => throw TypeError end.

(** The order in which the platform lists the keys of the store, which
    it does not specify: every key once, in some order. *)
Class KeyListing := {
  allKeys : gmap jsstring stored → list jsstring;
  allKeys_elem : ∀ s k, k ∈ allKeys s ↔ is_Some (s !! k);
  allKeys_NoDup : ∀ s, NoDup (allKeys s)
}.

Definition getAllKeys `{KeyListing} : M (list jsstring) :=
  attempt;; gets (fun w => allKeys (store w)).

(** A listing to run the examples with. *)
#[refine] Definition someListing : KeyListing :=
  {| allKeys := fun s => (map_to_list s).*1 |}.
Proof.
  - intros s k. rewrite list_elem_of_fmap. split.
    + intros ([k' v] & -> & Hin). apply elem_of_map_to_list in Hin. by exists v.
    + intros [v Hv]. exists (k, v). split; [done|]. by apply elem_of_map_to_list.
  - intros s. apply NoDup_fst_map_to_list.
Defined.

End AsyncStorage.

(** ** Memory engine (services/ai/memoryEngine.ts) *)

Module MemoryEngine.

Import AsyncStorage.

(** The two built-ins of [extractKeywords] that depend on the Unicode
    tables of the platform: [String.prototype.toLowerCase], and the
    canonicalization that a case-insensitive regular expression without
    the [u] flag applies to a code unit. *)
Class Unicode := {
  toLowerCase : jsstring → jsstring;
  canonicalize : N → N
}.

(** The two built-ins on Basic Latin and on the Russian letters, every
    other code unit left as it is: enough to run the engine on text in
    these two alphabets. *)
Definition basicLower (c : N) : N :=
  if (65 <=? c) && (c <=? 90) then c + 32
  else if (1040 <=? c) && (c <=? 1071) then c + 32
  else if c =? 1025 then 1105
  else c.

Definition basicUpper (c : N) : N :=
  if (97 <=? c) && (c <=? 122) then c - 32
  else if (1072 <=? c) && (c <=? 1103) then c - 32
  else if c =? 1105 then 1025
  else c.

Definition basicUnicode : Unicode :=
  {| toLowerCase := map basicLower; canonicalize := basicUpper |}.

Definition conversationKeyPrefix : jsstring := js "conv_".
Definition memoryKeyPrefix : jsstring := js "memory_".

Definition conversationKey (conversationId : jsstring) : jsstring :=
  conversationKeyPrefix ++ conversationId.
Definition memoryKey (messageId : jsstring) : jsstring :=
  memoryKeyPrefix ++ messageId.
Definition indexKey (conversationId : jsstring) : jsstring :=
  js "memory_index_" ++ conversationId.

(** [a.slice(start)] for an integral [start]. *)
Definition slice {A} (start : Z) (a : list A) : list A :=
  let len := Z.of_nat (length a) in
  let k := if (start <? 0)%Z then Z.max (len + start) 0 else Z.min start len in
  drop (Z.to_nat k) a.

Definition range (lo hi : N) : list N :=
  map (fun i => lo + N.of_nat i) (seq 0 (N.to_nat (hi + 1 - lo))).

(** The members of the character class [\wа-яё\s]. *)
Definition keptClass : list N :=
  range 48 57 ++ range 65 90 ++ [95] ++ range 97 122
  ++ range 1072 1103 ++ [1105]
  ++ [9; 10; 11; 12; 13; 32; 160; 5760] ++ range 8192 8202
  ++ [8232; 8233; 8239; 8287; 12288; 65279].

Definition stopWords : list jsstring :=
  [ js "and"; js "the"; js "that"; js "this"; js "with"; js "for"; js "from";
    js "have"; js "will";
    js "это"; js "как"; js "что"; js "где"; js "когда"; js "который";
    js "для"; js "или"; js "есть"; js "быть" ].

Definition isStopWord (word : jsstring) : bool :=
  existsb (JsString.eqb word) stopWords.

Section Engine.
Context `{U : Unicode}.

(** A code unit matches the class, case ignored, when it canonicalizes
    like one of the members. *)
Definition inKeptClass (c : N) : bool :=
  existsb (fun m => canonicalize m =? canonicalize c) keptClass.

Definition extractKeywords (text : jsstring) : list jsstring :=
  filter (fun word => negb (isStopWord word))
    (filter (fun word => bool_decide (3 < length word)%nat)
      (splitWs (filter inKeptClass (toLowerCase text)) [] false)).

Definition indexMessageForSearch (conversationId : jsstring) (message : Message.t)
  : M unit :=
  tryCatch
    (let memoryItem :=
       {| MemoryItem.id := Message.id message;
          MemoryItem.conversationId := conversationId;
          MemoryItem.content := Message.content message;
          MemoryItem.timestamp := Message.timestamp message;
          MemoryItem.role := Message.role message;
          MemoryItem.keywords := extractKeywords (Message.content message) |} in
     setItem (memoryKey (Message.id message)) (SMemoryItem memoryItem);;
     existingIndex ← getItem (indexKey conversationId);
     memoryIds ← match existingIndex with
                 | Some v => asStrings v
                 | None => mret []
                 end;
     setItem (indexKey conversationId) (SStrings (memoryIds ++ [Message.id message])))
    (fun _ => consoleError "Failed to index message for search:").

Definition saveMessage (conversationId : jsstring) (message : Message.t) : M unit :=
  tryCatch
    (let key := conversationKey conversationId in
     existingData ← getItem key;
     messages ← match existingData with
                | Some v => asMessages v
                | None => mret []
                end;
     setItem key (SMessages (messages ++ [message]));;
     if bool_decide (10 < length (trim (Message.content message)))%nat
     then indexMessageForSearch conversationId message
     else mret tt)
    (fun _ => consoleError "Failed to save message:";;
              throw (Error "Failed to save message")).

Definition getAllMessages (conversationId : jsstring) : M (list Message.t) :=
  tryCatch
    (data ← getItem (conversationKey conversationId);
     match data with
     | Some v => asMessages v
     | None => mret []
     end)
    (fun _ => consoleError "Failed to get messages:";; mret []).

Definition getRecentMessages (conversationId : jsstring) (limit : Z)
  : M (list Message.t) :=
  tryCatch
    (messages ← getAllMessages conversationId;
     mret (slice (- limit) messages))
    (fun _ => consoleError "Failed to get recent messages:";; mret []).

Definition clearMemoryForConversation (conversationId : jsstring) : M unit :=
  tryCatch
    (existingIndex ← getItem (indexKey conversationId);
     match existingIndex with
     | Some v =>
       memoryIds ← asStrings v;
       forEach (fun id => removeItem (memoryKey id)) memoryIds;;
       removeItem (indexKey conversationId)
     | None => mret tt
     end)
    (fun _ => consoleError "Failed to clear memory for conversation:").

Definition clearConversation (conversationId : jsstring) : M unit :=
  tryCatch
    (removeItem (conversationKey conversationId);;
     clearMemoryForConversation conversationId)
    (fun _ => consoleError "Failed to clear conversation:";;
              throw (Error "Failed to clear conversation")).

End Engine.

(** A memory that matched the query, with its score. *)
Module Matched.
Record t := { content : jsstring; score : Z }.
End Matched.

(** [calculateMatchScore]: one point for each query keyword that is among
    the keywords of the memory. *)
Definition calculateMatchScore (queryKeywords memoryKeywords : list jsstring) : Z :=
  foldl (fun score qWord =>
           if bool_decide (qWord ∈ memoryKeywords) then (score + 1)%Z else score)
        0%Z queryKeywords.

Definition isSystem (r : MessageRole) : bool :=
  match r with
  | system => true
  | _ => false
  end.

Definition startsWith (p s : jsstring) : bool :=
  match stripPrefix p s with
  | Some _ => true
  | None => false
  end.

Section Retrieval.
Context `{U : Unicode} `{L : KeyListing}.

Definition getAllMemoryKeys : M (list jsstring) :=
  tryCatch
    (keys ← getAllKeys;
     mret (filter (fun key => startsWith memoryKeyPrefix key) keys))
    (fun _ => consoleError "Failed to get memory keys:";; mret []).

(** The [for] loop of [retrieveRelevantContext] over the memory keys.
    What is stored under a key is read as a memory item. The keywords of
    a stored item are an array, which is truthy, so they are never
    computed again. A stored value of another shape is an array: it has
    no [role], no [keywords] and no [content], and [extractKeywords] of
    its [undefined] content throws a TypeError. *)
Fixpoint collectMatches (queryKeywords : list jsstring) (keys : list jsstring)
    (matchedMemories : list Matched.t) : M (list Matched.t) :=
  match keys with
  | [] => mret matchedMemories
  | key :: keys' =>
    memoryData ← getItem key;
    match memoryData with
    | None => collectMatches queryKeywords keys' matchedMemories
    | Some (SMemoryItem memory) =>
      if isSystem (MemoryItem.role memory)
      then collectMatches queryKeywords keys' matchedMemories
      else
        let matchScore :=
          calculateMatchScore queryKeywords (MemoryItem.keywords memory) in
        if (0 <? matchScore)%Z
        then collectMatches queryKeywords keys'
               (matchedMemories
                ++ [ {| Matched.content := MemoryItem.content memory;
                        Matched.score := matchScore |} ])
        else collectMatches queryKeywords keys' matchedMemories
    | Some _ => throw TypeError
    end
  end.

Definition retrieveRelevantContext (query : jsstring) (limit : Z) : M jsstring :=
  tryCatch
    (let queryKeywords := extractKeywords query in
     allMemoryKeys ← getAllMemoryKeys;
     matchedMemories ← collectMatches queryKeywords allMemoryKeys [];
     let sorted :=
       JsArray.sort (fun a b => (Matched.score b - Matched.score a)%Z) matchedMemories in
     mret (JsArray.join [10; 10]
             (map (fun memory => js "- " ++ Matched.content memory)
                  (JsArray.sliceTo limit sorted))))
    (fun _ => consoleError "Failed to retrieve relevant context:";; mret []).

End Retrieval.

End MemoryEngine.

(** ** Personality engine (services/ai/personalityEngine.ts) *)

Module PersonalityEngine.

Import AsyncStorage.

Definition personasKey : jsstring := js "mentor_personas".

(** The built-in personas of [loadBuiltInPersonas]. *)
Definition strategist : PersonaProfile.t := {|
  PersonaProfile.id := js "strategist";
  PersonaProfile.name := js "Стратег";
  PersonaProfile.description :=
    js "Аналитический ментор с системным мышлением, специализирующийся на долгосрочном планировании и стратегических решениях.";
  PersonaProfile.icon := js "🧠";
  PersonaProfile.communicationStyle := [js "аналитический"; js "логичный"; js "структурированный"];
  PersonaProfile.values := [js "системное мышление"; js "стратегическое планирование"; js "методичность"];
  PersonaProfile.approach :=
    js "Разбивает сложные цели на структурированные планы и анализирует их выполнимость.";
  PersonaProfile.avoidTopics :=
    [js "эзотерика"; js "интуитивные решения без обоснования"; js "эмоционально-мотивационные речи"];
  PersonaProfile.temperature := 0.3%float;
  PersonaProfile.welcomeMessage :=
    js "Приветствую. Я Стратег, и моя задача - помочь вам создать чёткую стратегию достижения ваших целей. Давайте мыслить системно.";
  PersonaProfile.customInstructions := None;
  PersonaProfile.isCustom := Some false
|}.

Definition commander : PersonaProfile.t := {|
  PersonaProfile.id := js "commander";
  PersonaProfile.name := js "Командир";
  PersonaProfile.description :=
    js "Дисциплинированный и требовательный ментор с прямым стилем общения, ориентированный на конкретные результаты.";
  PersonaProfile.icon := js "👊";
  PersonaProfile.communicationStyle := [js "директивный"; js "лаконичный"; js "требовательный"];
  PersonaProfile.values := [js "дисциплина"; js "ответственность"; js "результат"];
  PersonaProfile.approach :=
    js "Даёт чёткие указания и требует регулярной отчетности о прогрессе.";
  PersonaProfile.avoidTopics :=
    [js "отговорки"; js "самооправдания"; js "размытые цели"];
  PersonaProfile.temperature := 0.4%float;
  PersonaProfile.welcomeMessage :=
    js "Слушай внимательно. Я здесь не для того, чтобы тебя жалеть. Моя задача - сделать из тебя дисциплинированного бойца, который достигает своих целей. Готов работать на результат?";
  PersonaProfile.customInstructions := None;
  PersonaProfile.isCustom := Some false
|}.

Definition architect : PersonaProfile.t := {|
  PersonaProfile.id := js "architect";
  PersonaProfile.name := js "Архитектор";
  PersonaProfile.description :=
    js "Методичный и детальный ментор, фокусирующийся на создании устойчивых систем и процессов.";
  PersonaProfile.icon := js "🏗️";
  PersonaProfile.communicationStyle := [js "точный"; js "подробный"; js "технический"];
  PersonaProfile.values := [js "системность"; js "оптимизация"; js "качество"];
  PersonaProfile.approach :=
    js "Создает детальные планы с проработкой всех компонентов и связей между ними.";
  PersonaProfile.avoidTopics :=
    [js "импульсивные решения"; js "поверхностные подходы"; js "быстрые хаки"];
  PersonaProfile.temperature := 0.2%float;
  PersonaProfile.welcomeMessage :=
    js "Добро пожаловать. Я Архитектор, и я помогу вам спроектировать надежную систему для достижения ваших целей. Давайте начнем с детального анализа компонентов и зависимостей.";
  PersonaProfile.customInstructions := None;
  PersonaProfile.isCustom := Some false
|}.

Definition catalyst : PersonaProfile.t := {|
  PersonaProfile.id := js "catalyst";
  PersonaProfile.name := js "Катализатор";
  PersonaProfile.description :=
    js "Энергичный ментор, фокусирующийся на преодолении барьеров и запуске изменений.";
  PersonaProfile.icon := js "⚡";
  PersonaProfile.communicationStyle := [js "энергичный"; js "побуждающий"; js "динамичный"];
  PersonaProfile.values := [js "действие"; js "прорыв"; js "момент"];
  PersonaProfile.approach :=
    js "Мотивирует к быстрому началу действий и преодолению внутренних барьеров.";
  PersonaProfile.avoidTopics :=
    [js "чрезмерное планирование"; js "перфекционизм"; js "самокопание"];
  PersonaProfile.temperature := 0.6%float;
  PersonaProfile.welcomeMessage :=
    js "Привет! Я Катализатор, и моя задача — зажечь в тебе огонь действия. Хватит планировать и сомневаться — пора двигаться вперед и разрушать барьеры. Готов ли ты к прорыву?";
  PersonaProfile.customInstructions := None;
  PersonaProfile.isCustom := Some false
|}.

Definition tactical : PersonaProfile.t := {|
  PersonaProfile.id := js "tactical";
  PersonaProfile.name := js "Тактик";
  PersonaProfile.description :=
    js "Практичный ментор, специализирующийся на краткосрочном планировании и оптимизации процессов.";
  PersonaProfile.icon := js "🎯";
  PersonaProfile.communicationStyle := [js "конкретный"; js "практичный"; js "ориентированный на действия"];
  PersonaProfile.values := [js "эффективность"; js "оптимизация"; js "практичность"];
  PersonaProfile.approach :=
    js "Фокусируется на ближайших шагах и практических решениях.";
  PersonaProfile.avoidTopics :=
    [js "абстрактные теории"; js "далекие перспективы"; js "философские размышления"];
  PersonaProfile.temperature := 0.4%float;
  PersonaProfile.welcomeMessage :=
    js "Приветствую. Я Тактик, и мы будем работать с конкретными, измеримыми действиями. Никакой воды — только практика. Чего вы хотите достичь в ближайшее время?";
  PersonaProfile.customInstructions := None;
  PersonaProfile.isCustom := Some false
|}.

Definition setPersona (persona : PersonaProfile.t) : M unit :=
  modify (fun w =>
    with_personas (JsMap.set (PersonaProfile.id persona) persona (personas w)) w).

Definition loadBuiltInPersonas : M unit :=
  setPersona strategist;;
  setPersona commander;;
  setPersona architect;;
  setPersona catalyst;;
  setPersona tactical.

Definition loadCustomPersonas : M unit :=
  tryCatch
    (storedPersonas ← getItem personasKey;
     match storedPersonas with
     | Some v =>
       customPersonas ← asPersonas v;
       forEach setPersona customPersonas
     | None => mret tt
     end)
    (fun _ => consoleError "Failed to load custom personas:").

Definition initPersonas : M unit :=
  tryCatch
    (loadBuiltInPersonas;; loadCustomPersonas)
    (fun _ => consoleError "Failed to initialize personas:").

(** [if (this.personas.size === 0) await this.initPersonas()], the guard
    that opens every public method. *)
Definition ensureLoaded : M unit :=
  size ← gets (fun w => JsMap.size (personas w));
  if bool_decide (size = 0%nat) then initPersonas else mret tt.

Definition getAllPersonas : M (list PersonaProfile.t) :=
  ensureLoaded;;
  gets (fun w => JsMap.values (personas w)).

(** [getPersona]; the result [None] is [undefined], the first element of
    an empty array. *)
Definition getPersona (personaId : jsstring) : M (option PersonaProfile.t) :=
  ensureLoaded;;
  persona ← gets (fun w => JsMap.get personaId (personas w));
  match persona with
  | None =>
    gets (fun w =>
      match JsMap.get (js "commander") (personas w) with
      | Some p => Some p
      | None => head (JsMap.values (personas w))
      end)
  | Some p => mret (Some p)
  end.

Definition truthyFlag (b : option bool) : bool := default false b.

Definition saveCustomPersonas : M unit :=
  tryCatch
    (customPersonas ← gets (fun w =>
       filter (fun persona => truthyFlag (PersonaProfile.isCustom persona))
              (JsMap.values (personas w)));
     setItem personasKey (SPersonas customPersonas))
    (fun _ => consoleError "Failed to save custom personas:";;
              throw (Error "Failed to save custom personas")).

(** [savePersona]; [now] is the value of [Date.now()]. Objects are
    modelled by value: the persona that enters the map is the argument
    with [isCustom] set and, if its id is empty, a generated id. *)
Definition savePersona (now : N) (persona : PersonaProfile.t) : M unit :=
  tryCatch
    (ensureLoaded;;
     let persona := PersonaProfile.with_isCustom (Some true) persona in
     let persona :=
       match PersonaProfile.id persona with
       | [] => PersonaProfile.with_id (js "persona_" ++ ofN now) persona
       | _ => persona
       end in
     setPersona persona;;
     saveCustomPersonas)
    (fun _ => consoleError "Failed to save persona:";;
              throw (Error "Failed to save persona")).

Definition deletePersona (personaId : jsstring) : M unit :=
  tryCatch
    (ensureLoaded;;
     persona ← gets (fun w => JsMap.get personaId (personas w));
     match persona with
     | Some p =>
       if truthyFlag (PersonaProfile.isCustom p)
       then
         modify (fun w => with_personas (JsMap.delete personaId (personas w)) w);;
         saveCustomPersonas
       else throw (Error "Cannot delete built-in persona")
     | None => throw (Error "Cannot delete built-in persona")
     end)
    (fun _ => consoleError "Failed to delete persona";;
              throw (Error "Failed to delete persona")).

Definition duplicatePersona (now : N) (basePersonaId newName : jsstring)
  : M PersonaProfile.t :=
  tryCatch
    (ensureLoaded;;
     basePersona ← getPersona basePersonaId;
     match basePersona with
     | None => throw (Error "Base persona not found")
     | Some base =>
       let newPersona :=
         PersonaProfile.with_isCustom (Some true)
           (PersonaProfile.with_name
              (match newName with
               | [] => PersonaProfile.name base ++ js " (копия)"
               | _ => newName
               end)
              (PersonaProfile.with_id (js "persona_" ++ ofN now) base)) in
       savePersona now newPersona;;
       mret newPersona
     end)
    (fun _ => consoleError "Failed to duplicate persona:";;
              throw (Error "Failed to duplicate persona")).

(** The part of the user profile that [getRecommendedPersonas] reads. A
    trait that is missing compares like [NaN]: it is neither above 7 nor
    below 4. [None] is a property that is not there. *)
Module UserProfileData.
Record Traits := {
  conscientiousness : float;
  openness : float;
  neuroticism : float;
  resilience : float
}.
Record Preferences := { verbosityLevel : jsstring; feedbackStyle : jsstring }.
Record t := { traits : option Traits; communicationPreferences : option Preferences }.
End UserProfileData.

Module Recommendation.
Record t := { id : jsstring; score : Z }.
End Recommendation.

(** The score of one persona in the loop of [getRecommendedPersonas]. *)
Definition recommendationScore (data : UserProfileData.t) (id : jsstring)
    (persona : PersonaProfile.t) : Z :=
  let score := 50%Z in
  let score :=
    match UserProfileData.traits data with
    | Some tr =>
      let score :=
        if PrimFloat.ltb 7 (UserProfileData.conscientiousness tr)
           && (JsString.eqb id (js "commander") || JsString.eqb id (js "architect"))
        then (score + 20)%Z else score in
      let score :=
        if PrimFloat.ltb (UserProfileData.conscientiousness tr) 4
           && JsString.eqb id (js "catalyst")
        then (score + 20)%Z else score in
      let score :=
        if PrimFloat.ltb 7 (UserProfileData.openness tr)
           && JsString.eqb id (js "strategist")
        then (score + 15)%Z else score in
      let score :=
        if PrimFloat.ltb 7 (UserProfileData.neuroticism tr)
           && JsString.eqb id (js "commander")
        then (score + 15)%Z else score in
      if PrimFloat.ltb (UserProfileData.resilience tr) 4
         && JsString.eqb id (js "tactical")
      then (score + 15)%Z else score
    | None => score
    end in
  match UserProfileData.communicationPreferences data with
  | Some pr =>
    let style := PersonaProfile.communicationStyle persona in
    let score :=
      if JsString.eqb (UserProfileData.verbosityLevel pr) (js "concise")
         && bool_decide (js "лаконичный" ∈ style)
      then (score + 10)%Z else score in
    let score :=
      if JsString.eqb (UserProfileData.verbosityLevel pr) (js "detailed")
         && bool_decide (js "подробный" ∈ style)
      then (score + 10)%Z else score in
    if JsString.eqb (UserProfileData.feedbackStyle pr) (js "direct")
       && bool_decide (js "директивный" ∈ style)
    then (score + 10)%Z else score
  | None => score
  end.

(** The loop over [this.personas.entries()]; reading a property of a
    profile that is [null] or [undefined] ([None]) throws. *)
Fixpoint scoreEntries (userProfileData : option UserProfileData.t)
    (entries : list (jsstring * PersonaProfile.t))
    (recommendations : list Recommendation.t) : M (list Recommendation.t) :=
  match entries with
  | [] => mret recommendations
  | (id, persona) :: rest =>
    match userProfileData with
    | None => throw TypeError
    | Some data =>
      scoreEntries userProfileData rest
        (recommendations
         ++ [ {| Recommendation.id := id;
                 Recommendation.score := recommendationScore data id persona |} ])
    end
  end.

Definition getRecommendedPersonas (userProfileData : option UserProfileData.t)
  : M (list Recommendation.t) :=
  tryCatch
    (ensureLoaded;;
     entries ← gets personas;
     recommendations ← scoreEntries userProfileData entries [];
     mret (JsArray.sort
             (fun a b => (Recommendation.score b - Recommendation.score a)%Z)
             recommendations))
    (fun _ => consoleError "Failed to get recommended personas:";; mret []).

(** The singleton right after its constructor ran [initPersonas] on an
    empty map. *)
Definition create : M unit := initPersonas.

End PersonalityEngine.

(** * Vocabulary of the properties *)

(** ** Responses and tags *)

Section ResponseVocabulary.

Import AICoreService.

(** Every unit of the text is white space. *)
Definition allWs (s : jsstring) : Prop := Forall (fun c => isWhiteSpace c = true) s.

(** The text starts and ends with a unit that is not white space (or is
    empty). *)
Definition trimmed (s : jsstring) : Prop :=
  (∀ c, head s = Some c → isWhiteSpace c = false)
  ∧ (∀ c, last s = Some c → isWhiteSpace c = false).

(** No [<] in the text. *)
Definition noLt (s : jsstring) : Prop := Forall (fun c => c ≠ 60) s.

(** The intents that [parseResponse] finds in a text. *)
Definition found (s : jsstring) : list ActionInterpreter.SystemIntent :=
  (scan (length s) s [] s).1.

(** A response cut into plain text and tagged occurrences. *)
Inductive piece :=
| Gap (g : jsstring)
| Tag (body : jsstring).

(** The text of a piece, of a list of pieces. *)
Definition renderPiece (p : piece) : jsstring :=
  match p with
  | Gap g => g
  | Tag body => openTag ++ body ++ closeTag
  end.

Fixpoint render (ps : list piece) : jsstring :=
  match ps with
  | [] => []
  | p :: ps' => renderPiece p ++ render ps'
  end.

(** The text of the piece, between the markers for a tag, has no [<]. *)
Definition plain (p : piece) : Prop :=
  match p with
  | Gap g => noLt g
  | Tag body => noLt body
  end.

#[global] Instance plain_dec (p : piece) : Decision (plain p).
Proof. destruct p; unfold plain, noLt; apply _. Defined.

(** The body of the tag gives an intent. *)
Definition recognised (body : jsstring) : bool :=
  match parseIntent body with
  | Ok _ => true
  | Throw _ => false
  end.

(** The pieces that stay in the clean text: plain text, and the tags
    whose payload does not parse. *)
Definition stays (p : piece) : bool :=
  match p with
  | Gap _ => true
  | Tag body => negb (recognised body)
  end.

Fixpoint survivors (ps : list piece) : list piece :=
  match ps with
  | [] => []
  | p :: ps' => if stays p then p :: survivors ps' else survivors ps'
  end.

(** The intents of the tags whose body gives one, in order. *)
Fixpoint recognisedIntents (ps : list piece) : list ActionInterpreter.SystemIntent :=
  match ps with
  | [] => []
  | Gap _ :: ps' => recognisedIntents ps'
  | Tag body :: ps' =>
    match parseIntent body with
    | Ok intent => intent :: recognisedIntents ps'
    | Throw _ => recognisedIntents ps'
    end
  end.

(** What has stayed so far: plain pieces, no recognised tag. *)
Definition kept (k : list piece) : Prop :=
  Forall (fun p => plain p ∧ stays p = true) k.

(** The text has an occurrence of the marker pair: an opening tag and,
    somewhere after it, a closing tag. *)
Definition hasTaggedOccurrence (s : jsstring) : Prop :=
  ∃ a b c, s = a ++ openTag ++ b ++ closeTag ++ c.

End ResponseVocabulary.

(** ** The worked example of the specification *)

Section ExampleVocabulary.

Import AICoreService ActionInterpreter.

(** The response of the example scenario. *)
Definition exampleResponse : jsstring :=
  jsq "Here is a plan. <system>create_task: {'title': 'Write report', 'priority': 'urgent'}</system> Good luck!".

(** The intent that the specification expects from [exampleResponse]. *)
Definition exampleIntent : SystemIntent :=
  {| action := js "create_task";
     data := Json.VObj [ (js "title", Json.VStr (js "Write report"));
                         (js "priority", Json.VStr (js "urgent")) ] |}.

(** A date for the handlers that read the clock. *)
Definition someClock : Clock :=
  {| isoString := js "2025-03-09T10:15:00.000Z"; localeDateString := js "3/9/2025" |}.

End ExampleVocabulary.

(** ** Effects *)

Section EffectVocabulary.

Import AsyncStorage.

(** [m] leaves a part [proj] of the world as it is, whatever happens. *)
Definition keeps {A B} (proj : World → B) (m : M A) : Prop :=
  ∀ w, proj (m w).2 = proj w.

(** The entry of [k] in the store. *)
Definition entry (k : jsstring) (w : World) : option stored := store w !! k.

(** [m] always returns: it never throws. *)
Definition returns {A} (m : M A) : Prop :=
  ∀ w, ∃ a, (m w).1 = Ok a.

(** No storage operation fails from [w] on. *)
Definition noFaults (w : World) : Prop := Forall (fun b => b = false) (faults w).

(** A part of the world that does not depend on the schedule of faults,
    on the store. *)
Definition faultFree {B} (proj : World → B) : Prop :=
  ∀ fs w, proj (with_faults fs w) = proj w.
Definition storeFree {B} (proj : World → B) : Prop :=
  ∀ s w, proj (with_store s w) = proj w.

(** [m] keeps a property of the world that holds before it. *)
Definition maintains {A} (P : World → Prop) (m : M A) : Prop :=
  ∀ w, P w → P (m w).2.

(** The persona map is not empty. *)
Definition loaded (w : World) : Prop := personas w ≠ [].

End EffectVocabulary.

(** ** Conversation memory *)

Section MemoryVocabulary.

Import AsyncStorage MemoryEngine.
Context `{U : Unicode}.

(** The log of a conversation as the store has it: empty when there is
    no entry, undefined when the entry is not a list of messages. *)
Definition storedMessages (w : World) (conversationId : jsstring)
  : option (list Message.t) :=
  match store w !! conversationKey conversationId with
  | None => Some []
  | Some (SMessages l) => Some l
  | Some _ => None
  end.

(** The memory index of a conversation, likewise. *)
Definition storedIndex (w : World) (conversationId : jsstring)
  : option (list jsstring) :=
  match store w !! indexKey conversationId with
  | None => Some []
  | Some (SStrings l) => Some l
  | Some _ => None
  end.

(** The item that [indexMessageForSearch] derives from a message. *)
Definition memoryItemOf (conversationId : jsstring) (message : Message.t) : MemoryItem.t :=
  {| MemoryItem.id := Message.id message;
     MemoryItem.conversationId := conversationId;
     MemoryItem.content := Message.content message;
     MemoryItem.timestamp := Message.timestamp message;
     MemoryItem.role := Message.role message;
     MemoryItem.keywords := extractKeywords (Message.content message) |}.


(** The store after the memory keys of [ids] are removed. *)
Definition withoutItems (ids : list jsstring) (s : gmap jsstring stored)
  : gmap jsstring stored :=
  foldl (fun s id => delete (memoryKey id) s) s ids.

(** A fresh installation, and two messages. *)
Definition emptyWorld : World := {| store := ∅; faults := []; console := []; personas := [] |}.

Definition firstQuestion : Message.t :=
  {| Message.id := js "msg_1700000000001"; Message.role := user;
     Message.content := js "How do I start my plan?";
     Message.timestamp := js "2025-03-09T10:15:00.000Z" |}.

Definition systemNote : Message.t :=
  {| Message.id := js "msg_1700000000002"; Message.role := system;
     Message.content := js "Conversation restarted by the user.";
     Message.timestamp := js "2025-03-09T10:16:00.000Z" |}.

End MemoryVocabulary.

(** ** JSON parsers *)

Section JsonVocabulary.

Import Json.

(** What is left after a value is shorter than the text it was read
    from. *)
Definition consumes (result : presult) (s : jsstring) : Prop :=
  match result with
  | POk _ r => (length r < length s)%nat
  | _ => True
  end.

End JsonVocabulary.

(** ** Intents and actions *)

Section InterpreterVocabulary.

Import ActionInterpreter.

(** The action type behind each [case] of the [switch] of
    [interpretIntent]. *)
Definition actionTypeOf (name : jsstring) : option ActionType :=
  if JsString.eqb name (js "create_task") then Some CREATE_TASK
  else if JsString.eqb name (js "update_task") then Some UPDATE_TASK
  else if JsString.eqb name (js "delete_task") then Some DELETE_TASK
  else if JsString.eqb name (js "create_goal") then Some CREATE_GOAL
  else if JsString.eqb name (js "update_goal") then Some UPDATE_GOAL
  else if JsString.eqb name (js "create_habit") then Some CREATE_HABIT
  else if JsString.eqb name (js "complete_habit") then Some COMPLETE_HABIT
  else if JsString.eqb name (js "navigate") then Some NAVIGATE
  else if JsString.eqb name (js "create_reflection") then Some CREATE_REFLECTION
  else if JsString.eqb name (js "display_message") then Some DISPLAY_MESSAGE
  else if JsString.eqb name (js "track_metric") then Some TRACK_METRIC
  else None.

(** The property of the intent data that an action of this type cannot
    do without. *)
Definition requiredField (t : ActionType) : string :=
  match t with
  | CREATE_TASK | CREATE_GOAL | CREATE_HABIT => "title"
  | UPDATE_TASK | DELETE_TASK | UPDATE_GOAL | COMPLETE_HABIT => "id"
  | NAVIGATE => "screen"
  | CREATE_REFLECTION => "content"
  | DISPLAY_MESSAGE => "message"
  | TRACK_METRIC => "name"
  end.

(** The value is not an object with a property of its own. *)
Definition memberless (v : Json.value) : Prop :=
  match v with
  | Json.VObj (_ :: _) => False
  | _ => True
  end.

(** The action [a] has the type [t], and its payload passes on, under
    the same name, the required property of the data [d], which is
    truthy. *)
Definition handled (t : ActionType) (d : Json.value) (a : AppAction) : Prop :=
  type a = t
  ∧ ∃ v, get d (requiredField t) = Ok v ∧ Json.truthy v = true
         ∧ Json.lookup (js (requiredField t)) (payload a) = Some v.

End InterpreterVocabulary.

(** ** Retrieval of memories *)

Section RetrievalVocabulary.

Import AsyncStorage MemoryEngine.
Context `{U : Unicode}.

(** What a keyword is made of: more than three units, none of them
    white space, all of them of the class that [extractKeywords] keeps,
    and the word is no stop word. *)
Definition keyword (word : jsstring) : Prop :=
  (3 < length word)%nat
  ∧ isStopWord word = false
  ∧ Forall (fun c => inKeptClass c = true ∧ isWhiteSpace c = false) word.

(** A stored value that is not a memory item. *)
Definition notAnItem (v : stored) : Prop :=
  match v with
  | SMemoryItem _ => False
  | _ => True
  end.

(** The store holds, under a key with the prefix of the memory keys,
    something that is not a memory item. *)
Definition strayMemoryKey (w : World) : Prop :=
  ∃ key v, store w !! key = Some v
           ∧ startsWith memoryKeyPrefix key = true ∧ notAnItem v.

End RetrievalVocabulary.

(** ** Personas *)

Section PersonaVocabulary.

Import AsyncStorage PersonalityEngine.

(** The map files every profile under its own id (and, being a [Map],
    has every key once). *)
Definition keyed (m : list (jsstring * PersonaProfile.t)) : Prop :=
  NoDup (map fst m) ∧ Forall (fun e => e.1 = PersonaProfile.id e.2) m.

(** The profiles of the running app that are marked custom, in the order
    of the map: what [saveCustomPersonas] writes. *)
Definition customPersonas (w : World) : list PersonaProfile.t :=
  filter (fun persona => truthyFlag (PersonaProfile.isCustom persona))
         (JsMap.values (personas w)).

(** The profile as [savePersona] files it: marked custom, and with a
    generated id if it came without one. *)
Definition asSaved (now : N) (persona : PersonaProfile.t) : PersonaProfile.t :=
  let persona := PersonaProfile.with_isCustom (Some true) persona in
  match PersonaProfile.id persona with
  | [] => PersonaProfile.with_id (js "persona_" ++ ofN now) persona
  | _ => persona
  end.

(** The copy that [duplicatePersona] makes of a profile. *)
Definition copyOf (now : N) (newName : jsstring) (base : PersonaProfile.t)
  : PersonaProfile.t :=
  PersonaProfile.with_isCustom (Some true)
    (PersonaProfile.with_name
       (match newName with
        | [] => PersonaProfile.name base ++ js " (копия)"
        | _ => newName
        end)
       (PersonaProfile.with_id (js "persona_" ++ ofN now) base)).

(** A new singleton over the store of [w], at the moment its constructor
    returns: [initPersonas], which the constructor calls without waiting
    for it, has set the built-in personas and is waiting for the store. *)
Definition constructed (w : World) : World :=
  (loadBuiltInPersonas (with_personas [] w)).2.

(** The same singleton once that call of [initPersonas] has settled, the
    stored personas set on top of the built-in ones, no other method
    having run in between. *)
Definition settled (w : World) : World := (loadCustomPersonas (constructed w)).2.

(** A number that [JSON.stringify] writes and [JSON.parse] reads back as
    it was: finite, and not the negative zero ([NaN] and the infinities
    are written as [null], [-0] as [0]). *)
Definition jsonNumber (x : float) : bool :=
  PrimFloat.is_finite x && negb (PrimFloat.is_zero x && PrimFloat.get_sign x).

(** The built-in personas. *)
Definition builtIns : list PersonaProfile.t :=
  [strategist; commander; architect; catalyst; tactical].

(** The running app after a persona was saved under the id of each
    built-in persona and the five ids were deleted, storage working: the
    map is empty. *)
Definition emptiedWorld : World :=
  foldl (fun w id => (deletePersona id w).2)
        (foldl (fun w persona => (savePersona 0 persona w).2) emptyWorld builtIns)
        (map PersonaProfile.id builtIns).

(** The ids of the built-in personas, in the order [loadBuiltInPersonas]
    sets them. *)
Definition builtInIds : list jsstring :=
  [js "strategist"; js "commander"; js "architect"; js "catalyst"; js "tactical"].

(** The recommendation for one entry of the map. *)
Definition recommendationOf (data : UserProfileData.t)
    (e : jsstring * PersonaProfile.t) : Recommendation.t :=
  {| Recommendation.id := e.1;
     Recommendation.score := recommendationScore data e.1 e.2 |}.

(** Highest score first. *)
Definition byScore (recommendations : list Recommendation.t) : Prop :=
  Sorted (fun a b => (Recommendation.score b ≤ Recommendation.score a)%Z)
         recommendations.

End PersonaVocabulary.

(** * Properties *)

(** ** Strings *)

Section StringFacts.

Lemma stripPrefix_Some (p s r : jsstring) :
  stripPrefix p s = Some r ↔ s = p ++ r.
Proof.
  revert s; induction p as [|a p IH]; intros s; simpl.
  - split; [intros [= ->]; done | intros ->; done].
  - destruct s as [|b s]; [split; [done | intros [=]] |].
    destruct (N.eqb_spec a b) as [->|Hne].
    + rewrite IH. split; [intros ->; done | intros [= ->]; done].
    + split; [done | intros [= -> _]; done].
Qed.

Lemma stripPrefix_app (p r : jsstring) : stripPrefix p (p ++ r) = Some r.
Proof. by apply stripPrefix_Some. Qed.

(** [cut] is sound: it splits its argument around an occurrence. *)
Lemma cut_Some (p s b a : jsstring) :
  cut p s = Some (b, a) → s = b ++ p ++ a.
Proof.
  revert b; induction s as [|c s IH]; intros b; simpl.
  - destruct (stripPrefix p []) eqn:E; [|done].
    intros [= <- <-]. by apply stripPrefix_Some in E.
  - destruct (stripPrefix p (c :: s)) eqn:E.
    + intros [= <- <-]. by apply stripPrefix_Some in E.
    + destruct (cut p s) as [[b' a']|] eqn:E'; [|done].
      intros [= <- <-]. simpl. f_equal. by apply IH.
Qed.

(** [cut] is complete: it finds an occurrence whenever there is one. *)
Lemma cut_None (p s : jsstring) :
  cut p s = None → ∀ b a, s ≠ b ++ p ++ a.
Proof.
  induction s as [|c s IH]; simpl.
  - destruct (stripPrefix p []) eqn:E; [done|]. intros _ b a Heq.
    destruct b; simpl in Heq.
    + apply stripPrefix_Some in Heq. congruence.
    + done.
  - destruct (stripPrefix p (c :: s)) eqn:E; [done|].
    destruct (cut p s) as [[b' a']|] eqn:E'; [done|]. intros _ b a Heq.
    destruct b as [|c' b]; simpl in Heq.
    + apply stripPrefix_Some in Heq. congruence.
    + injection Heq as -> Heq. by eapply IH.
Qed.

(** A pattern that starts with [c] does not occur at the head of a text
    that starts with another unit. *)
Lemma stripPrefix_head_ne (c d : N) (p s : jsstring) :
  c ≠ d → stripPrefix (c :: p) (d :: s) = None.
Proof. intros H. simpl. by destruct (N.eqb_spec c d). Qed.

(** Units other than the first unit of the pattern are skipped. *)
Lemma cut_skip (c : N) (p g s : jsstring) :
  Forall (fun d => d ≠ c) g →
  cut (c :: p) (g ++ s) =
    match cut (c :: p) s with
    | Some (b, a) => Some (g ++ b, a)
    | None => None
    end.
Proof.
  induction 1 as [|d g Hd _ IH].
  - simpl app. by destruct (cut (c :: p) s) as [[??]|].
  - change ((d :: g) ++ s) with (d :: (g ++ s)).
    cbn [cut]. rewrite stripPrefix_head_ne by done. rewrite IH.
    by destruct (cut (c :: p) s) as [[??]|].
Qed.

Lemma cut_here (p r : jsstring) : cut p (p ++ r) = Some ([], r).
Proof. destruct (p ++ r) eqn:E; simpl; rewrite <- E, stripPrefix_app; done. Qed.

Lemma cut_nil_None (c : N) (p : jsstring) : cut (c :: p) [] = None.
Proof. done. Qed.

(** First occurrence behind a prefix that is free of the first unit. *)
Lemma cut_first (c : N) (p g r : jsstring) :
  Forall (fun d => d ≠ c) g →
  cut (c :: p) (g ++ (c :: p) ++ r) = Some (g, r).
Proof.
  intros H. rewrite cut_skip by done. rewrite cut_here. by rewrite app_nil_r.
Qed.

Lemma cut_absent (c : N) (p g : jsstring) :
  Forall (fun d => d ≠ c) g → cut (c :: p) g = None.
Proof.
  intros H. rewrite <- (app_nil_r g). rewrite cut_skip by done. done.
Qed.

End StringFacts.

Section TrimFacts.

Lemma trimStart_split (s : jsstring) :
  ∃ ws, s = ws ++ trimStart s ∧ allWs ws
        ∧ ∀ c, head (trimStart s) = Some c → isWhiteSpace c = false.
Proof.
  induction s as [|c s (ws & Heq & Hws & Hhd)]; simpl.
  - exists []. split_and!; [done | constructor | done].
  - destruct (isWhiteSpace c) eqn:E.
    + exists (c :: ws). split_and!; [simpl; congruence | by constructor | done].
    + exists []. split_and!; [done | constructor |].
      simpl. by intros ? [= <-].
Qed.

Lemma trimEnd_split (s : jsstring) :
  ∃ ws, s = trimEnd s ++ ws ∧ allWs ws
        ∧ ∀ c, last (trimEnd s) = Some c → isWhiteSpace c = false.
Proof.
  destruct (trimStart_split (reverse s)) as (ws & Heq & Hws & Hhd).
  exists (reverse ws). unfold trimEnd. split_and!.
  - rewrite <- reverse_app, <- Heq. by rewrite reverse_involutive.
  - by apply Forall_reverse.
  - intros c Hc. apply Hhd. by rewrite last_reverse in Hc.
Qed.

Lemma trimStart_head_trimEnd (s : jsstring) (c : N) :
  (∀ d, head s = Some d → isWhiteSpace d = false) →
  head (trimEnd s) = Some c → isWhiteSpace c = false.
Proof.
  intros Hs Hc.
  destruct (trimEnd_split s) as (ws & Heq & Hws & Hl).
  destruct (trimEnd s) as [|d t] eqn:E; [done|].
  simpl in Hc. injection Hc as ->. apply Hs. rewrite Heq. done.
Qed.

(** [trim] takes white space off both ends and nothing else. *)
Lemma trim_split (s : jsstring) :
  ∃ pre post, s = pre ++ trim s ++ post ∧ allWs pre ∧ allWs post ∧ trimmed (trim s).
Proof.
  destruct (trimStart_split s) as (pre & Heq & Hpre & Hhd).
  destruct (trimEnd_split (trimStart s)) as (post & Heq' & Hpost & Hl).
  exists pre, post. unfold trim. split_and!; try done.
  - by rewrite <- Heq'.
  - split; [|done]. intros c. by apply trimStart_head_trimEnd.
Qed.

Lemma stripPrefix_trailing (p x ws : jsstring) :
  Forall (fun c => isWhiteSpace c = false) p → allWs ws →
  stripPrefix p (x ++ ws) =
    match stripPrefix p x with
    | Some r => Some (r ++ ws)
    | None => None
    end.
Proof.
  intros Hp Hws. revert x. induction Hp as [|a p Ha _ IH]; intros x; [done|].
  destruct x as [|b x].
  - simpl. destruct Hws as [|w ws Hw _]; [done|].
    destruct (N.eqb_spec a w) as [->|]; [congruence | done].
  - simpl. destruct (a =? b); [apply IH | done].
Qed.

(** White space after the text does not change where a pattern without
    white space first occurs. *)
Lemma cut_trailing (c : N) (p u ws : jsstring) :
  Forall (fun c => isWhiteSpace c = false) (c :: p) → allWs ws →
  cut (c :: p) (u ++ ws) =
    match cut (c :: p) u with
    | Some (b, a) => Some (b, a ++ ws)
    | None => None
    end.
Proof.
  intros Hp Hws. induction u as [|d u IH].
  - simpl app. rewrite cut_nil_None. apply cut_absent.
    inversion Hp as [|?? Hc _]; subst.
    eapply Forall_impl; [exact Hws|]. simpl. intros w Hw ->. congruence.
  - change ((d :: u) ++ ws) with (d :: (u ++ ws)). cbn [cut].
    change (d :: (u ++ ws)) with ((d :: u) ++ ws).
    rewrite stripPrefix_trailing by done.
    destruct (stripPrefix (c :: p) (d :: u)); [done|].
    rewrite IH. by destruct (cut (c :: p) u) as [[??]|].
Qed.

End TrimFacts.

(** ** The tag scanner of [parseResponse] *)

Section Scanner.

Import AICoreService.

Lemma openTag_eq : openTag = 60 :: js "system>".
Proof. reflexivity. Qed.

Lemma closeTag_eq : closeTag = 60 :: js "/system>".
Proof. reflexivity. Qed.

Lemma openTag_noWs : Forall (fun c => isWhiteSpace c = false) openTag.
Proof. by repeat constructor. Qed.

Lemma closeTag_noWs : Forall (fun c => isWhiteSpace c = false) closeTag.
Proof. by repeat constructor. Qed.

Lemma allWs_noLt (ws : jsstring) : allWs ws → noLt ws.
Proof. intros H. eapply Forall_impl; [exact H|]. by intros c Hc ->. Qed.

(** What [exec] returns is a tagged occurrence of its argument. *)
Lemma exec_Some (s m g r : jsstring) :
  exec s = Some (m, g, r) →
  m = openTag ++ g ++ closeTag ∧ ∃ b, s = b ++ m ++ r.
Proof.
  unfold exec.
  destruct (cut openTag s) as [[b a]|] eqn:E1; [|done].
  destruct (cut closeTag a) as [[g' r']|] eqn:E2; [|done].
  intros H.
  assert (m = openTag ++ g' ++ closeTag) as -> by congruence.
  assert (g = g') as -> by congruence.
  assert (r = r') as -> by congruence.
  split; [done|]. exists b.
  apply cut_Some in E1, E2. rewrite E1, E2. by rewrite <- !app_assoc.
Qed.

Lemma exec_shorter (s m g r : jsstring) :
  exec s = Some (m, g, r) → (length r < length s)%nat.
Proof.
  intros H. apply exec_Some in H as [-> [b ->]].
  rewrite !length_app. simpl. lia.
Qed.

Lemma exec_nil : exec [] = None.
Proof. reflexivity. Qed.

(** A prefix without [<] is skipped. *)
Lemma exec_skip (g s : jsstring) : noLt g → exec (g ++ s) = exec s.
Proof.
  intros H. unfold exec. rewrite openTag_eq, cut_skip by done.
  by destruct (cut _ s) as [[??]|].
Qed.

Lemma exec_absent (g : jsstring) : noLt g → exec g = None.
Proof. intros H. unfold exec. by rewrite openTag_eq, cut_absent. Qed.

(** A tag whose body has no [<] is the match found at its place. *)
Lemma exec_tag (body r : jsstring) :
  noLt body →
  exec (openTag ++ body ++ closeTag ++ r) = Some (openTag ++ body ++ closeTag, body, r).
Proof.
  intros H. unfold exec. rewrite cut_here.
  rewrite closeTag_eq. by rewrite cut_first.
Qed.

(** White space after the text changes no match. *)
Lemma exec_trailing (u ws : jsstring) :
  allWs ws →
  exec (u ++ ws) =
    match exec u with
    | Some (m, g, r) => Some (m, g, r ++ ws)
    | None => None
    end.
Proof.
  intros H. unfold exec.
  pose proof openTag_noWs as Ho. pose proof closeTag_noWs as Hc.
  rewrite openTag_eq in Ho |- *. rewrite closeTag_eq in Hc |- *.
  rewrite cut_trailing by done.
  destruct (cut _ u) as [[b a]|]; [|done].
  rewrite cut_trailing by done.
  by destruct (cut _ a) as [[??]|].
Qed.

(** Fuel at least the length of the text is enough. *)
Lemma scan_fuel (f1 f2 : nat) (rest : jsstring) (i : list ActionInterpreter.SystemIntent)
    (c : jsstring) :
  (length rest ≤ f1)%nat → (length rest ≤ f2)%nat →
  scan f1 rest i c = scan f2 rest i c.
Proof.
  revert f2 rest i c. induction f1 as [|f1 IH]; intros f2 rest i c H1 H2.
  - destruct rest; [|simpl in H1; lia]. by destruct f2.
  - destruct f2 as [|f2].
    + destruct rest; [|simpl in H2; lia]. done.
    + simpl. destruct (exec rest) as [[[m g] r]|] eqn:E; [|done].
      apply exec_shorter in E.
      destruct (parseIntent g); apply IH; lia.
Qed.

Lemma scan_S (f : nat) (rest : jsstring) (i : list ActionInterpreter.SystemIntent)
    (c : jsstring) :
  scan (S f) rest i c =
    match exec rest with
    | None => (i, c)
    | Some (match0, group1, rest') =>
      match parseIntent group1 with
      | Ok intent => scan f rest' (i ++ [intent]) (removeFirst match0 c)
      | Throw _ => scan f rest' i c
      end
    end.
Proof. reflexivity. Qed.

(** The loop, unfolded once. *)
Lemma scan_unfold (f : nat) (rest : jsstring) (i : list ActionInterpreter.SystemIntent)
    (c : jsstring) :
  (length rest ≤ f)%nat →
  scan f rest i c =
    match exec rest with
    | None => (i, c)
    | Some (match0, group1, rest') =>
      match parseIntent group1 with
      | Ok intent => scan f rest' (i ++ [intent]) (removeFirst match0 c)
      | Throw _ => scan f rest' i c
      end
    end.
Proof.
  intros H. destruct f as [|f].
  - destruct rest; [done | simpl in H; lia].
  - rewrite scan_S. destruct (exec rest) as [[[m g] r]|] eqn:E; [|done].
    apply exec_shorter in E.
    destruct (parseIntent g); apply scan_fuel; lia.
Qed.

(** The intents found do not depend on the clean text. *)
Lemma scan_intents (f : nat) (rest : jsstring) (i : list ActionInterpreter.SystemIntent)
    (c c' : jsstring) :
  (scan f rest i c).1 = i ++ (scan f rest [] c').1.
Proof.
  revert rest i c c'. induction f as [|f IH]; intros rest i c c'; simpl.
  - by rewrite app_nil_r.
  - destruct (exec rest) as [[[m g] r]|]; [|by rewrite app_nil_r].
    destruct (parseIntent g) as [x|]; [|apply IH].
    rewrite (IH r (i ++ [x]) _ c'), (IH r ([] ++ [x]) _ c').
    by rewrite <- app_assoc.
Qed.

Lemma parseResponse_intents (s : jsstring) : intents (parseResponse s) = found s.
Proof.
  unfold parseResponse, found. by destruct (scan (length s) s [] s).
Qed.

Lemma parseResponse_text (s : jsstring) :
  text (parseResponse s) = trim (scan (length s) s [] s).2.
Proof.
  unfold parseResponse. by destruct (scan (length s) s [] s).
Qed.

Lemma found_scan (f : nat) (s c : jsstring) :
  (length s ≤ f)%nat → (scan f s [] c).1 = found s.
Proof.
  intros H. unfold found. rewrite (scan_fuel f (length s)) by lia.
  rewrite (scan_intents _ _ _ c s). done.
Qed.

(** [found], unfolded once. *)
Lemma found_unfold (s : jsstring) :
  found s =
    match exec s with
    | None => []
    | Some (_, group1, rest') =>
      match parseIntent group1 with
      | Ok intent => intent :: found rest'
      | Throw _ => found rest'
      end
    end.
Proof.
  unfold found at 1. rewrite scan_unfold by done.
  destruct (exec s) as [[[m g] r]|] eqn:E; [|done].
  apply exec_shorter in E.
  destruct (parseIntent g) as [x|].
  - rewrite (scan_intents _ _ _ _ r). simpl. f_equal. apply found_scan. lia.
  - apply found_scan. lia.
Qed.

(** White space around the text changes no intent. *)
Lemma found_skip (g s : jsstring) : noLt g → found (g ++ s) = found s.
Proof.
  intros H. rewrite (found_unfold (g ++ s)), (found_unfold s).
  by rewrite exec_skip.
Qed.

Lemma found_trailing (u ws : jsstring) : allWs ws → found (u ++ ws) = found u.
Proof.
  intros H. remember (length u) as n eqn:Hn.
  revert u Hn. induction (lt_wf n) as [n _ IH]. intros u ->.
  rewrite (found_unfold (u ++ ws)), (found_unfold u), exec_trailing by done.
  destruct (exec u) as [[[m g] r]|] eqn:E; [|done].
  apply exec_shorter in E.
  destruct (parseIntent g); [f_equal|]; by eapply IH.
Qed.

Lemma found_trim (s : jsstring) : found (trim s) = found s.
Proof.
  destruct (trim_split s) as (pre & post & Heq & Hpre & Hpost & _).
  rewrite Heq at 2.
  rewrite found_skip by by apply allWs_noLt.
  by rewrite found_trailing.
Qed.

(** When no intent is found the clean text is the response itself. *)
Lemma scan_nothing (f : nat) (rest c : jsstring) (i : list ActionInterpreter.SystemIntent) :
  (scan f rest [] c).1 = [] → scan f rest i c = (i, c).
Proof.
  revert rest i. induction f as [|f IH]; intros rest i; simpl; [done|].
  destruct (exec rest) as [[[m g] r]|]; [|done].
  destruct (parseIntent g) as [x|]; [|apply IH].
  rewrite (scan_intents _ _ _ _ c). by destruct (scan f r [] c).1.
Qed.

End Scanner.

(** ** Responses whose tags are well formed *)

Section WellFormedResponses.

Import AICoreService.

Lemma render_app (k ps : list piece) : render (k ++ ps) = render k ++ render ps.
Proof. induction k as [|p k IH]; simpl; [done|]. by rewrite IH, app_assoc. Qed.

Lemma stripPrefix_common (p q s : jsstring) :
  stripPrefix (p ++ q) (p ++ s) = stripPrefix q s.
Proof. induction p as [|a p IH]; simpl; [done|]. by rewrite N.eqb_refl. Qed.

(** Two bodies without [<], followed by the closing tag, differ at some
    unit unless they are equal. *)
Lemma stripPrefix_bodies (b b' x : jsstring) :
  noLt b → noLt b' → b ≠ b' →
  stripPrefix (b ++ closeTag) (b' ++ closeTag ++ x) = None.
Proof.
  intros Hb. revert b'. induction Hb as [|c b Hc _ IH]; intros b' Hb' Hne.
  - destruct Hb' as [|c' b' Hc' _]; [done|].
    rewrite closeTag_eq. simpl app. by apply stripPrefix_head_ne.
  - destruct Hb' as [|c' b' Hc' Hb'].
    + rewrite closeTag_eq. simpl app. by apply stripPrefix_head_ne.
    + simpl. destruct (N.eqb_spec c c') as [->|]; [|done].
      apply IH; [done | congruence].
Qed.

Lemma cut_step (p s : jsstring) (c : N) :
  stripPrefix p (c :: s) = None →
  cut p (c :: s) =
    match cut p s with
    | Some (b, a) => Some (c :: b, a)
    | None => None
    end.
Proof. intros H. cbn [cut]. by rewrite H. Qed.

(** A tag is not found inside another tag with a different body. *)
Lemma cut_past_tag (b b' x : jsstring) :
  noLt b → noLt b' → b ≠ b' →
  cut (openTag ++ b ++ closeTag) (openTag ++ b' ++ closeTag ++ x) =
    match cut (openTag ++ b ++ closeTag) x with
    | Some (pre, a) => Some (openTag ++ b' ++ closeTag ++ pre, a)
    | None => None
    end.
Proof.
  intros Hb Hb' Hne.
  assert (stripPrefix (openTag ++ b ++ closeTag) (openTag ++ b' ++ closeTag ++ x) = None)
    as H0 by (rewrite stripPrefix_common; by apply stripPrefix_bodies).
  set (M := openTag ++ b ++ closeTag) in *.
  assert (M = 60 :: (js "system>" ++ b ++ closeTag)) as HM by done.
  assert (openTag ++ b' ++ closeTag ++ x
          = 60 :: ((js "system>" ++ b') ++ 60 :: (js "/system>" ++ x))) as Hs.
  { rewrite openTag_eq, closeTag_eq. cbn [app]. by rewrite <- app_assoc. }
  rewrite Hs in H0 |- *. rewrite cut_step by done.
  rewrite HM at 1. rewrite cut_skip.
  2:{ apply Forall_app. split; [by repeat constructor | done]. }
  rewrite <- HM. rewrite cut_step.
  2:{ rewrite HM. reflexivity. }
  rewrite HM at 1. rewrite cut_skip by by repeat constructor.
  rewrite <- HM. destruct (cut M x) as [[pre a]|]; [|done].
  rewrite openTag_eq, closeTag_eq. cbn [app]. by rewrite <- app_assoc.
Qed.

(** A recognised tag is first found behind what has stayed. *)
Lemma cut_past_kept (k : list piece) (b r : jsstring) :
  kept k → noLt b → recognised b = true →
  cut (openTag ++ b ++ closeTag) (render k ++ (openTag ++ b ++ closeTag) ++ r)
  = Some (render k, r).
Proof.
  intros Hk Hb Hrec. induction Hk as [|p k [Hp Hs] _ IH].
  - cbn [render app]. apply cut_here.
  - destruct p as [g|b']; cbn [render renderPiece plain stays] in *.
    + rewrite <- (app_assoc g (render k)).
      assert (openTag ++ b ++ closeTag = 60 :: (js "system>" ++ b ++ closeTag)) as HM by done.
      rewrite HM at 1. rewrite cut_skip by done. rewrite <- HM, IH. done.
    + rewrite <- (app_assoc _ (render k)), <- (app_assoc openTag), <- (app_assoc b').
      rewrite cut_past_tag; [| done | done |].
      * rewrite IH. by rewrite <- !app_assoc.
      * intros ->. rewrite Hrec in Hs. done.
Qed.

Lemma cut_past_kept_removeFirst (k : list piece) (b r : jsstring) :
  kept k → noLt b → recognised b = true →
  removeFirst (openTag ++ b ++ closeTag)
    (render k ++ (openTag ++ b ++ closeTag) ++ r) = render k ++ r.
Proof. intros. unfold removeFirst. by rewrite cut_past_kept. Qed.

Lemma length_render_cons (p : piece) (ps : list piece) :
  (length (render ps) ≤ length (render (p :: ps)))%nat.
Proof. cbn [render]. rewrite length_app. lia. Qed.

Lemma kept_snoc (k : list piece) (p : piece) :
  kept k → plain p → stays p = true → kept (k ++ [p]).
Proof. intros Hk Hp Hs. apply Forall_app. split; [done|]. by repeat constructor. Qed.

(** The first pass over a well-formed response: the recognised tags are
    taken out at their own place and nothing else changes. *)
Lemma scan_render (ps k : list piece) (f : nat) (i : list ActionInterpreter.SystemIntent) :
  Forall plain ps → kept k → (length (render ps) ≤ f)%nat →
  scan f (render ps) i (render (k ++ ps))
  = (i ++ recognisedIntents ps, render (k ++ survivors ps)).
Proof.
  intros Hps. revert k i. induction Hps as [|p ps Hp Hps IH]; intros k i Hk Hf.
  - cbn [render recognisedIntents survivors].
    rewrite scan_unfold, exec_nil by done. by rewrite !app_nil_r.
  - pose proof (length_render_cons p ps) as Hlen.
    rewrite scan_unfold by done.
    destruct p as [g|b]; cbn [plain] in Hp;
      cbn [render renderPiece recognisedIntents survivors stays].
    + rewrite exec_skip by done.
      rewrite <- scan_unfold by lia.
      rewrite (cons_middle (Gap g) k ps), app_assoc.
      rewrite IH; [| by apply kept_snoc | lia].
      rewrite (cons_middle (Gap g) k (survivors ps)), app_assoc. done.
    + rewrite <- !app_assoc. rewrite exec_tag by done.
      unfold recognised.
      destruct (parseIntent b) as [x|e] eqn:E; cbn [negb].
      * rewrite render_app. cbn [render renderPiece].
        rewrite cut_past_kept_removeFirst; [| done | done | by unfold recognised; rewrite E].
        rewrite <- render_app. rewrite IH by (done || lia).
        by rewrite <- app_assoc.
      * rewrite (cons_middle (Tag b) k ps), app_assoc.
        rewrite IH; [| apply kept_snoc; [done | done |] | lia].
        -- rewrite (cons_middle (Tag b) k (survivors ps)), app_assoc. done.
        -- cbn [stays]. unfold recognised. by rewrite E.
Qed.

End WellFormedResponses.

Section Extraction.

Import AICoreService.

Lemma cut_minimal (p s b a : jsstring) :
  cut p s = Some (b, a) → ∀ x r, s = x ++ p ++ r → (length b ≤ length x)%nat.
Proof.
  revert b. induction s as [|c s IH]; intros b; cbn [cut].
  - destruct (stripPrefix p []); [|done]. intros [= <- <-] x r _. simpl. lia.
  - destruct (stripPrefix p (c :: s)) eqn:E.
    + intros [= <- <-] x r _. simpl. lia.
    + destruct (cut p s) as [[b' a']|]; [|done].
      intros [= <- <-] x r Heq. destruct x as [|c' x].
      * cbn [app] in Heq. apply (stripPrefix_Some p) in Heq. congruence.
      * injection Heq as -> Heq. simpl. specialize (IH b' eq_refl x r Heq). lia.
Qed.

(** The match of [exec] is the one of the pattern: it starts at the
    leftmost opening tag and its group is the shortest one, up to the
    first closing tag after that opening tag. *)
Lemma exec_leftmost_lazy (s m g r : jsstring) :
  exec s = Some (m, g, r) →
  ∃ b, s = b ++ openTag ++ g ++ closeTag ++ r
       ∧ (∀ x y, s = x ++ openTag ++ y → (length b ≤ length x)%nat)
       ∧ (∀ x y, g ++ closeTag ++ r = x ++ closeTag ++ y → (length g ≤ length x)%nat).
Proof.
  unfold exec.
  destruct (cut openTag s) as [[b a]|] eqn:E1; [|done].
  destruct (cut closeTag a) as [[g' r']|] eqn:E2; [|done].
  intros H.
  assert (g = g') as -> by congruence.
  assert (r = r') as -> by congruence.
  exists b. split_and!.
  - apply cut_Some in E1, E2. by rewrite E1, E2.
  - intros x y. by apply (cut_minimal _ _ _ _ E1).
  - intros x y. pose proof (cut_Some _ _ _ _ E2) as <-.
    by apply (cut_minimal _ _ _ _ E2).
Qed.

(** [exec] finds a match exactly when the text has a tagged occurrence. *)
Lemma exec_None_iff (s : jsstring) : exec s = None ↔ ¬ hasTaggedOccurrence s.
Proof.
  split.
  - intros H (x & y & z & Heq). unfold exec in H.
    destruct (cut openTag s) as [[b a]|] eqn:E1.
    + destruct (cut closeTag a) as [[g r]|] eqn:E2; [done|].
      pose proof (cut_minimal _ _ _ _ E1 _ _ Heq) as Hmin.
      apply cut_Some in E1.
      assert (a = drop (length b + length openTag) s) as Ha.
      { rewrite E1, app_assoc, <- length_app. by rewrite drop_app_length. }
      rewrite Heq in Ha.
      rewrite (app_assoc x), (app_assoc (x ++ openTag)) in Ha.
      rewrite drop_app_le in Ha by (rewrite !length_app; lia).
      by eapply (cut_None _ _ E2).
    + by eapply (cut_None _ _ E1).
  - intros H. destruct (exec s) as [[[m g] r]|] eqn:E; [|done].
    exfalso. apply H. apply exec_Some in E as [-> [b ->]].
    exists b, g, r. by rewrite <- !app_assoc.
Qed.

Lemma found_stays (ps : list piece) : kept ps → found (render ps) = [].
Proof.
  induction 1 as [|p ps [Hp Hs] _ IH]; cbn [render].
  - by rewrite found_unfold, exec_nil.
  - destruct p as [g|b]; cbn [renderPiece plain stays] in *.
    + by rewrite found_skip.
    + rewrite found_unfold. rewrite <- !app_assoc, exec_tag by done.
      unfold recognised in Hs. by destruct (parseIntent b).
Qed.

Lemma kept_survivors (ps : list piece) : Forall plain ps → kept (survivors ps).
Proof.
  induction 1 as [|p ps Hp _ IH]; cbn [survivors]; [constructor|].
  destruct (stays p) eqn:E; [|done]. by constructor.
Qed.

(** What one pass makes of a well-formed response. *)
Lemma parseResponse_render (ps : list piece) :
  Forall plain ps →
  parseResponse (render ps)
  = {| text := trim (render (survivors ps)); intents := recognisedIntents ps |}.
Proof.
  intros H. unfold parseResponse.
  pose proof (scan_render ps [] (length (render ps)) [] H) as Hscan.
  cbn [app] in Hscan. rewrite Hscan; [done | constructor | done].
Qed.

End Extraction.

(** ** Intent extraction: the claims *)

Section ExtractionClaims.

Import AICoreService.

(** C10. A response without any occurrence of the marker pair comes back
    trimmed, with no intent: the visible text is [trim] of the response,
    that is the response without the white space at its two ends. *)
Theorem parseResponse_without_tag (raw : jsstring) :
  ¬ hasTaggedOccurrence raw →
  intents (parseResponse raw) = []
  ∧ text (parseResponse raw) = trim raw
  ∧ ∃ pre post, raw = pre ++ text (parseResponse raw) ++ post
                ∧ allWs pre ∧ allWs post ∧ trimmed (text (parseResponse raw)).
Proof.
  intros H. apply exec_None_iff in H.
  assert (scan (length raw) raw [] raw = ([], raw)) as Hscan.
  { rewrite scan_unfold by done. by rewrite H. }
  unfold parseResponse. rewrite Hscan. cbn [text intents].
  split_and!; [done | done | apply trim_split].
Qed.

Lemma parseResponse_without_tag_witness :
  let raw := js "  Keep going.  " in
  intents (parseResponse raw) = [] ∧ text (parseResponse raw) = js "Keep going.".
Proof.
  intros raw.
  assert (¬ hasTaggedOccurrence raw) as H.
  { apply exec_None_iff. vm_compute. reflexivity. }
  destruct (parseResponse_without_tag raw H) as (Hi & Ht & _).
  split; [exact Hi | rewrite Ht; vm_compute; reflexivity].
Defined.

(** C6, as stated, fails: the removal of a tag can join the text around
    it into a new tag, which a second pass then reads. *)
Lemma parseResponse_second_pass_finds_intent :
  let raw := js "<sys<system>a</system>tem>b</system>" in
  text (parseResponse raw) = js "<system>b</system>"
  ∧ intents (parseResponse (text (parseResponse raw)))
    = [ {| ActionInterpreter.action := js "b"; ActionInterpreter.data := Json.VObj [] |} ].
Proof. vm_compute. split; reflexivity. Qed.

(** C6, amended. When [<] occurs in the response only at the head of the
    markers of complete tags (none in the text between the tags, none in
    their bodies), one pass is exhausting: a second pass over the visible
    text finds no intent. *)
Theorem parseResponse_exhausts_well_formed (ps : list piece) :
  Forall plain ps →
  intents (parseResponse (text (parseResponse (render ps)))) = [].
Proof.
  intros H. rewrite parseResponse_render by done. cbn [text].
  rewrite parseResponse_intents, found_trim.
  apply found_stays. by apply kept_survivors.
Qed.

Lemma parseResponse_exhausts_well_formed_witness :
  let ps := [ Gap (js "Plan: "); Tag (js "navigate"); Gap (js " and ");
              Tag (jsq "create_task: {'title': 'Write report'}");
              Gap (js " Good luck!") ] in
  Forall plain ps
  ∧ intents (parseResponse (text (parseResponse (render ps)))) = [].
Proof.
  intros ps.
  assert (Forall plain ps) as H.
  { apply (bool_decide_unpack _). vm_compute. exact I. }
  split; [exact H | exact (parseResponse_exhausts_well_formed ps H)].
Defined.

(** X6. A pass that recognises nothing leaves nothing for a second pass. *)
Lemma parseResponse_nothing_twice (raw : jsstring) :
  intents (parseResponse raw) = [] →
  intents (parseResponse (text (parseResponse raw))) = [].
Proof.
  intros H. rewrite parseResponse_intents in H.
  rewrite parseResponse_text.
  unfold found in H. rewrite (scan_nothing _ _ _ _ H). cbn [snd].
  by rewrite parseResponse_intents, found_trim.
Qed.

End ExtractionClaims.

(** ** The worked example of the specification *)

Section WorkedExample.

Import AICoreService ActionInterpreter.

(** [jsq] writes the double quote of the example as an apostrophe. *)
Example jsq_quote : jsq "{'priority': 'urgent'}" = [123; 34] ++ js "priority" ++ [34; 58; 32; 34] ++ js "urgent" ++ [34; 125].
Proof. reflexivity. Qed.

(** C1. On the example response the code does not return the intent:
    [split(':', 2)] keeps the payload only up to its first colon, the cut
    payload is not JSON, the tag is skipped and stays in the visible text.
    Interpreting the expected intent does give a CREATE_TASK action with
    the priority coerced to medium. *)
Theorem parseResponse_example :
  parseResponse exampleResponse = {| text := exampleResponse; intents := [] |}
  ∧ exec exampleResponse
    = Some (jsq "<system>create_task: {'title': 'Write report', 'priority': 'urgent'}</system>",
            jsq "create_task: {'title': 'Write report', 'priority': 'urgent'}",
            js " Good luck!")
  ∧ split 58 2 (jsq "create_task: {'title': 'Write report', 'priority': 'urgent'}")
    = [js "create_task"; jsq " {'title'"]
  ∧ Json.parse (jsq "{'title'") = None
  ∧ parseIntent (jsq "create_task: {'title': 'Write report', 'priority': 'urgent'}")
    = Throw SyntaxError
  ∧ ∃ a, interpretIntent someClock exampleIntent = Ok (Some a)
         ∧ type a = CREATE_TASK
         ∧ JsMap.get (js "priority") (payload a) = Some (Json.VStr (js "medium")).
Proof.
  split_and!; try (vm_compute; reflexivity).
  eexists. split_and!; vm_compute; reflexivity.
Qed.

(** The example that the system instructions give to the model
    ([buildSystemInstructions]) is not read either. *)
Lemma parseResponse_prompt_example :
  let raw := jsq "<system>create_task: {'title': 'Название задачи', 'priority': 'high'}</system>" in
  parseResponse raw = {| text := raw; intents := [] |}.
Proof. vm_compute. reflexivity. Qed.

(** The payload whole is the JSON the specification expects. *)
Lemma example_payload_parses :
  Json.parse (jsq "{'title': 'Write report', 'priority': 'urgent'}") = Some (data exampleIntent).
Proof. vm_compute. reflexivity. Qed.

(** A payload without a colon is read. *)
Lemma parseResponse_colon_free :
  parseResponse (js "Done. <system>navigate</system>")
  = {| text := js "Done."; intents := [ {| action := js "navigate"; data := Json.VObj [] |} ] |}.
Proof. vm_compute. reflexivity. Qed.


End WorkedExample.

(** ** Effects: what a computation leaves in place *)

Section Effects.

Import AsyncStorage.

Lemma bind_run {A B} (m : M A) (f : A → M B) (w : World) :
  (m ≫= f) w =
    match m w with
    | (Ok a, w') => f a w'
    | (Throw e, w') => (Throw e, w')
    end.
Proof. reflexivity. Qed.

Lemma keeps_ret {A B} (proj : World → B) (a : A) : keeps proj (mret a : M A).
Proof. by intros w. Qed.

Lemma keeps_throw {A B} (proj : World → B) (e : exn) : keeps proj (throw e : M A).
Proof. by intros w. Qed.

Lemma keeps_bind {A A' B} (proj : World → B) (m : M A) (f : A → M A') :
  keeps proj m → (∀ a, keeps proj (f a)) → keeps proj (m ≫= f).
Proof.
  intros Hm Hf w. rewrite bind_run. specialize (Hm w).
  destruct (m w) as [[a|e] w']; [|done]. by rewrite Hf.
Qed.

Lemma keeps_tryCatch {A B} (proj : World → B) (m : M A) (h : exn → M A) :
  keeps proj m → (∀ e, keeps proj (h e)) → keeps proj (tryCatch m h).
Proof.
  intros Hm Hh w. unfold tryCatch. specialize (Hm w).
  destruct (m w) as [[a|e] w']; [done|]. by rewrite Hh.
Qed.

Lemma keeps_gets {A B} (proj : World → B) (f : World → A) : keeps proj (gets f).
Proof. by intros w. Qed.

Lemma keeps_attempt {B} (proj : World → B) : faultFree proj → keeps proj attempt.
Proof.
  intros H w. unfold attempt. destruct (faults w) as [|[] ?]; cbn [snd]; by rewrite ?H.
Qed.

Lemma keeps_getItem {B} (proj : World → B) (key : jsstring) :
  faultFree proj → keeps proj (getItem key).
Proof.
  intros H. apply keeps_bind; [by apply keeps_attempt | intros; apply keeps_gets].
Qed.

Lemma keeps_forEach {A B} (proj : World → B) (f : A → M unit) (l : list A) :
  (∀ x, keeps proj (f x)) → keeps proj (forEach f l).
Proof.
  intros Hf. induction l as [|x l IH]; cbn [forEach].
  - apply keeps_ret.
  - apply keeps_bind; [apply Hf | by intros].
Qed.

Lemma keeps_asStrings {B} (proj : World → B) (v : stored) : keeps proj (asStrings v).
Proof. by destruct v. Qed.

Lemma keeps_asMessages {B} (proj : World → B) (v : stored) : keeps proj (asMessages v).
Proof. by destruct v. Qed.

Lemma keeps_asPersonas {B} (proj : World → B) (v : stored) : keeps proj (asPersonas v).
Proof. by destruct v. Qed.

(** Parts that the storage operations do not touch. *)
Lemma keeps_setItem_free {B} (proj : World → B) (key : jsstring) (v : stored) :
  faultFree proj → storeFree proj → keeps proj (setItem key v).
Proof.
  intros H1 H2. apply keeps_bind; [by apply keeps_attempt|].
  intros _ w. unfold modify. cbn [snd]. by rewrite H2.
Qed.

Lemma keeps_removeItem_free {B} (proj : World → B) (key : jsstring) :
  faultFree proj → storeFree proj → keeps proj (removeItem key).
Proof.
  intros H1 H2. apply keeps_bind; [by apply keeps_attempt|].
  intros _ w. unfold modify. cbn [snd]. by rewrite H2.
Qed.

Lemma faultFree_entry (k : jsstring) : faultFree (entry k).
Proof. by intros fs w. Qed.

Lemma faultFree_console : faultFree console.
Proof. by intros fs w. Qed.

Lemma storeFree_console : storeFree console.
Proof. by intros fs w. Qed.

Lemma faultFree_personas : faultFree personas.
Proof. by intros fs w. Qed.

Lemma storeFree_personas : storeFree personas.
Proof. by intros fs w. Qed.

(** The entries of the other keys stay. *)
Lemma keeps_setItem (k key : jsstring) (v : stored) :
  k ≠ key → keeps (entry k) (setItem key v).
Proof.
  intros Hne. apply keeps_bind; [apply keeps_attempt, faultFree_entry|].
  intros _ w. unfold modify, entry. cbn [snd store with_store].
  by rewrite lookup_insert_ne.
Qed.

Lemma keeps_removeItem (k key : jsstring) :
  k ≠ key → keeps (entry k) (removeItem key).
Proof.
  intros Hne. apply keeps_bind; [apply keeps_attempt, faultFree_entry|].
  intros _ w. unfold modify, entry. cbn [snd store with_store].
  by rewrite lookup_delete_ne.
Qed.

Lemma keeps_consoleError {B} (proj : World → B) (msg : string) :
  (∀ c w, proj (with_console c w) = proj w) → keeps proj (consoleError msg).
Proof. intros H w. unfold consoleError. cbn [snd]. by rewrite H. Qed.

(** A [try] whose handler returns, returns. *)
Lemma returns_tryCatch {A} (m : M A) (h : exn → M A) :
  (∀ e, returns (h e)) → returns (tryCatch m h).
Proof.
  intros Hh w. unfold tryCatch. destruct (m w) as [[a|e] w']; [by exists a|].
  apply Hh.
Qed.

Lemma returns_consoleError (msg : string) : returns (consoleError msg).
Proof. intros w. by exists tt. Qed.

(** Storage operations when nothing fails. *)
Lemma noFaults_attempt (w : World) :
  noFaults w → ∃ w', attempt w = (Ok tt, w') ∧ store w' = store w
                     ∧ personas w' = personas w ∧ noFaults w'.
Proof.
  intros H. unfold attempt, noFaults in *.
  destruct (faults w) as [|b fs] eqn:E.
  - exists w. by rewrite E.
  - inversion H as [|?? -> Hfs]; subst. by exists (with_faults fs w).
Qed.

Lemma noFaults_getItem (key : jsstring) (w : World) :
  noFaults w → ∃ w', getItem key w = (Ok (store w !! key), w') ∧ store w' = store w
                     ∧ personas w' = personas w ∧ noFaults w'.
Proof.
  intros H. destruct (noFaults_attempt w H) as (w' & Ha & Hs & Hp & Hn).
  exists w'. unfold getItem. rewrite bind_run, Ha. unfold gets. by rewrite Hs.
Qed.

Lemma noFaults_setItem (key : jsstring) (v : stored) (w : World) :
  noFaults w → ∃ w', setItem key v w = (Ok tt, w') ∧ store w' = <[key := v]> (store w)
                     ∧ personas w' = personas w ∧ noFaults w'.
Proof.
  intros H. destruct (noFaults_attempt w H) as (w' & Ha & Hs & Hp & Hn).
  exists (with_store (<[key := v]> (store w')) w').
  unfold setItem. rewrite bind_run, Ha. unfold modify. cbn [store personas faults with_store].
  by rewrite Hs.
Qed.

Lemma noFaults_removeItem (key : jsstring) (w : World) :
  noFaults w → ∃ w', removeItem key w = (Ok tt, w') ∧ store w' = delete key (store w)
                     ∧ personas w' = personas w ∧ noFaults w'.
Proof.
  intros H. destruct (noFaults_attempt w H) as (w' & Ha & Hs & Hp & Hn).
  exists (with_store (delete key (store w')) w').
  unfold removeItem. rewrite bind_run, Ha. unfold modify. cbn [store personas faults with_store].
  by rewrite Hs.
Qed.

End Effects.

(** ** Conversation memory *)

Section MemoryClaims.

Import AsyncStorage MemoryEngine.
Context `{U : Unicode}.

Lemma conversationKey_memoryKey (c i : jsstring) : conversationKey c ≠ memoryKey i.
Proof. intros H. apply (f_equal head) in H. vm_compute in H. discriminate. Qed.

Lemma conversationKey_indexKey (c c' : jsstring) : conversationKey c ≠ indexKey c'.
Proof. intros H. apply (f_equal head) in H. vm_compute in H. discriminate. Qed.

Ltac frame_side :=
  solve [ apply faultFree_entry | apply faultFree_console | apply storeFree_console
        | apply faultFree_personas | apply storeFree_personas
        | apply conversationKey_memoryKey | apply conversationKey_indexKey
        | assumption | congruence ].

Ltac frame :=
  repeat first
    [ apply keeps_ret | apply keeps_throw | apply keeps_gets
    | apply keeps_asStrings | apply keeps_asMessages | apply keeps_asPersonas
    | apply keeps_getItem; frame_side
    | apply keeps_setItem_free; frame_side
    | apply keeps_removeItem_free; frame_side
    | apply keeps_setItem; frame_side
    | apply keeps_removeItem; frame_side
    | apply keeps_consoleError; by intros
    | apply keeps_bind; [|intros ?]
    | apply keeps_tryCatch; [|intros ?]
    | apply keeps_forEach; intros ?
    | match goal with
      | |- keeps _ (match ?x with _ => _ end) => destruct x
      end ].

Lemma attempt_succeeds (w : World) :
  head (faults w) ≠ Some true →
  ∃ w', attempt w = (Ok tt, w') ∧ store w' = store w ∧ faults w' = tail (faults w)
        ∧ console w' = console w ∧ personas w' = personas w.
Proof.
  intros H. unfold attempt. destruct (faults w) as [|[] fs] eqn:E.
  - exists w. by rewrite E.
  - done.
  - by exists (with_faults fs w).
Qed.



Lemma removeItem_succeeds (key : jsstring) (w : World) :
  head (faults w) ≠ Some true →
  ∃ w', removeItem key w = (Ok tt, w') ∧ store w' = delete key (store w)
        ∧ faults w' = tail (faults w)
        ∧ console w' = console w ∧ personas w' = personas w.
Proof.
  intros H. destruct (attempt_succeeds w H) as (w' & Ha & Hs & Hf & Hc & Hp).
  exists (with_store (delete key (store w')) w').
  unfold removeItem. rewrite bind_run, Ha. unfold modify.
  cbn [store faults console personas with_store]. by rewrite Hs.
Qed.

Lemma index_keeps_log (c conversationId : jsstring) (message : Message.t) :
  keeps (entry (conversationKey c)) (indexMessageForSearch conversationId message).
Proof.
  unfold indexMessageForSearch. frame.
Qed.

Lemma index_returns (conversationId : jsstring) (message : Message.t) :
  returns (indexMessageForSearch conversationId message).
Proof. apply returns_tryCatch. intros e. apply returns_consoleError. Qed.



(** *** What an append stores *)

Lemma memoryKey_indexKey (i c : jsstring) :
  i ≠ js "index_" ++ c → memoryKey i ≠ indexKey c.
Proof.
  intros Hne H. apply Hne. unfold memoryKey, indexKey in H.
  change (js "memory_index_") with (memoryKeyPrefix ++ js "index_") in H.
  rewrite <- app_assoc in H. by apply app_inv_head in H.
Qed.

Lemma indexMessageForSearch_run (w : World) (conversationId : jsstring)
    (message : Message.t) (ids : list jsstring) :
  noFaults w →
  store w !! indexKey conversationId = None ∧ ids = []
  ∨ store w !! indexKey conversationId = Some (SStrings ids) →
  memoryKey (Message.id message) ≠ indexKey conversationId →
  ∃ w', indexMessageForSearch conversationId message w = (Ok tt, w')
        ∧ store w' = <[indexKey conversationId := SStrings (ids ++ [Message.id message])]>
                       (<[memoryKey (Message.id message)
                          := SMemoryItem (memoryItemOf conversationId message)]> (store w))
        ∧ noFaults w'.
Proof.
  intros Hn Hidx Hne.
  destruct (noFaults_setItem (memoryKey (Message.id message))
              (SMemoryItem (memoryItemOf conversationId message)) w Hn)
    as (w1 & H1 & Hs1 & _ & Hn1).
  destruct (noFaults_getItem (indexKey conversationId) w1 Hn1)
    as (w2 & H2 & Hs2 & _ & Hn2).
  destruct (noFaults_setItem (indexKey conversationId)
              (SStrings (ids ++ [Message.id message])) w2 Hn2)
    as (w3 & H3 & Hs3 & _ & Hn3).
  exists w3. split_and!; [| by rewrite Hs3, Hs2, Hs1 | done].
  unfold indexMessageForSearch, tryCatch. fold (memoryItemOf conversationId message).
  cbv zeta. rewrite bind_run, H1. cbv beta iota. rewrite bind_run, H2. cbv beta iota.
  rewrite Hs1, lookup_insert_ne by done.
  assert ((match store w !! indexKey conversationId with
           | Some v => asStrings v
           | None => mret []
           end) w2 = (Ok ids, w2)) as Hread.
  { destruct Hidx as [[-> ->] | ->]; done. }
  rewrite bind_run, Hread. cbv beta iota. by rewrite H3.
Qed.

(** C3, as stated, fails twice: a system message with a long content
    gets a memory item, and a message whose content is longer than ten
    units only because of the white space around it gets none. *)
Lemma saveMessage_indexes_system_role :
  let conversation := js "conv_1700000000000" in
  let systemMessage :=
    {| Message.id := js "msg_1"; Message.role := system;
       Message.content := js "You are a strict mentor."; Message.timestamp := js "2025-03-09T10:15:00.000Z" |} in
  let paddedMessage :=
    {| Message.id := js "msg_2"; Message.role := user;
       Message.content := js "   ok       "; Message.timestamp := js "2025-03-09T10:16:00.000Z" |} in
  let empty := {| store := ∅; faults := []; console := []; personas := [] |} in
  let w1 := (saveMessage (U := basicUnicode) conversation systemMessage empty).2 in
  let w2 := (saveMessage (U := basicUnicode) conversation paddedMessage empty).2 in
  (length (Message.content systemMessage) = 24%nat
   ∧ (saveMessage (U := basicUnicode) conversation systemMessage empty).1 = Ok tt
   ∧ (∃ item, store w1 !! memoryKey (js "msg_1") = Some (SMemoryItem item)
              ∧ MemoryItem.role item = system)
   ∧ store w1 !! indexKey conversation = Some (SStrings [js "msg_1"]))
  ∧ (length (Message.content paddedMessage) = 12%nat
     ∧ (saveMessage (U := basicUnicode) conversation paddedMessage empty).1 = Ok tt
     ∧ store w2 !! memoryKey (js "msg_2") = None
     ∧ store w2 !! indexKey conversation = None).
Proof.
  cbv zeta. split_and!; try (vm_compute; reflexivity).
  eexists. split; vm_compute; reflexivity.
Qed.

(** C3, amended. While storage works, the stored log of the
    conversation being absent or a list of messages and its memory index
    being absent or a list of ids, an append whose content, trimmed, has
    at most ten units changes the log only; any other append, whatever
    the role of the message (system included), also stores one memory
    item, under the key of the message id, and adds the id at the end of
    the memory index of the conversation. (The id is not the conversation
    id behind [index_], which would make the key of the item the key of
    the index; after such an append the index is not a list of ids, see
    [saveMessage_index_key_taken].) *)
Theorem saveMessage_memory_item
    (w : World) (conversationId : jsstring) (message : Message.t)
    (old : list Message.t) (ids : list jsstring) :
  noFaults w →
  storedMessages w conversationId = Some old →
  storedIndex w conversationId = Some ids →
  Message.id message ≠ js "index_" ++ conversationId →
  ∃ w', saveMessage conversationId message w = (Ok tt, w')
        ∧ store w' =
            let logged := <[conversationKey conversationId := SMessages (old ++ [message])]>
                            (store w) in
            if bool_decide (length (trim (Message.content message)) ≤ 10)%nat
            then logged
            else <[indexKey conversationId := SStrings (ids ++ [Message.id message])]>
                   (<[memoryKey (Message.id message)
                      := SMemoryItem (memoryItemOf conversationId message)]> logged).
Proof.
  intros Hn Hold Hids Hid.
  set (key := conversationKey conversationId).
  destruct (noFaults_getItem key w Hn) as (w1 & Hg & Hs1 & _ & Hn1).
  destruct (noFaults_setItem key (SMessages (old ++ [message])) w1 Hn1)
    as (w2 & Hset & Hs2 & _ & Hn2).
  assert ((match store w !! key with
           | Some v => asMessages v
           | None => mret []
           end) w1 = (Ok old, w1)) as Hread.
  { unfold storedMessages in Hold. fold key in Hold.
    destruct (store w !! key) as [[]|]; by simplify_eq. }
  assert (∃ w', (if bool_decide (10 < length (trim (Message.content message)))%nat
                 then indexMessageForSearch conversationId message
                 else mret tt) w2 = (Ok tt, w')
                ∧ store w' =
                    if bool_decide (length (trim (Message.content message)) ≤ 10)%nat
                    then store w2
                    else <[indexKey conversationId := SStrings (ids ++ [Message.id message])]>
                           (<[memoryKey (Message.id message)
                              := SMemoryItem (memoryItemOf conversationId message)]> (store w2)))
    as (w' & Hrest & Hstore).
  { destruct (decide (10 < length (trim (Message.content message)))%nat) as [Hlong|Hshort].
    - rewrite bool_decide_eq_true_2 by done.
      rewrite (bool_decide_eq_false_2 (_ ≤ 10)%nat) by lia.
      destruct (indexMessageForSearch_run w2 conversationId message ids Hn2)
        as (w' & Hrun & Hs' & _).
      + rewrite Hs2, Hs1. rewrite lookup_insert_ne by apply conversationKey_indexKey.
        unfold storedIndex in Hids.
        destruct (store w !! indexKey conversationId) as [[]|]; simplify_eq; auto.
      + by apply memoryKey_indexKey.
      + by exists w'.
    - rewrite bool_decide_eq_false_2 by done.
      rewrite (bool_decide_eq_true_2 (_ ≤ 10)%nat) by lia.
      by exists w2. }
  exists w'. split.
  - unfold saveMessage, tryCatch. fold key.
    rewrite bind_run, Hg. cbv beta iota. rewrite bind_run, Hread. cbv beta iota.
    rewrite bind_run, Hset. cbv beta iota. by rewrite Hrest.
  - cbv zeta. rewrite Hstore, Hs2, Hs1. done.
Qed.

(** *** Recent messages *)

Lemma getAllMessages_run (w : World) (conversationId : jsstring) (msgs : list Message.t) :
  noFaults w → storedMessages w conversationId = Some msgs →
  ∃ w', getAllMessages conversationId w = (Ok msgs, w') ∧ store w' = store w
        ∧ noFaults w'.
Proof.
  intros Hn Hm.
  destruct (noFaults_getItem (conversationKey conversationId) w Hn)
    as (w1 & Hg & Hs1 & _ & Hn1).
  exists w1. split_and!; [|done|done].
  unfold getAllMessages, tryCatch. rewrite bind_run, Hg. cbv beta iota.
  unfold storedMessages in Hm.
  destruct (store w !! conversationKey conversationId) as [[]|]; by simplify_eq.
Qed.

Lemma getRecentMessages_run (w : World) (conversationId : jsstring) (limit : Z)
    (msgs : list Message.t) :
  noFaults w → storedMessages w conversationId = Some msgs →
  ∃ w', getRecentMessages conversationId limit w = (Ok (slice (- limit) msgs), w')
        ∧ store w' = store w.
Proof.
  intros Hn Hm.
  destruct (getAllMessages_run w conversationId msgs Hn Hm) as (w1 & Hg & Hs1 & _).
  exists w1. split; [|done].
  unfold getRecentMessages, tryCatch. by rewrite bind_run, Hg.
Qed.

(** For a limit of at least one, [slice (-limit)] is the last
    [min limit (length a)] elements. *)
Lemma slice_last {A} (limit : Z) (a : list A) :
  (1 ≤ limit)%Z →
  slice (- limit) a = drop (length a - Z.to_nat limit) a
  ∧ length (slice (- limit) a) = Nat.min (Z.to_nat limit) (length a).
Proof.
  intros H. unfold slice.
  destruct (Z.ltb_spec (- limit) 0) as [_|]; [|lia].
  assert (Z.to_nat (Z.max (Z.of_nat (length a) + - limit) 0)
          = (length a - Z.to_nat limit)%nat) as -> by lia.
  split; [done|]. rewrite length_drop. lia.
Qed.

(** For a limit of zero it is the whole array: [-0] is [0]. *)
Lemma slice_zero {A} (a : list A) : slice (- 0) a = a.
Proof. unfold slice. cbn [Z.opp Z.ltb Z.compare]. by rewrite Z.min_l by lia. Qed.

(** X16. While storage works, a positive limit gives the last messages of the
    log, in the order of the log. *)
Lemma getRecentMessages_positive (w : World) (conversationId : jsstring) (limit : Z)
    (msgs : list Message.t) :
  noFaults w → storedMessages w conversationId = Some msgs → (1 ≤ limit)%Z →
  (getRecentMessages conversationId limit w).1
  = Ok (drop (length msgs - Z.to_nat limit) msgs).
Proof.
  intros Hn Hm Hl.
  destruct (getRecentMessages_run w conversationId limit msgs Hn Hm) as (w' & -> & _).
  cbn [fst]. by rewrite (proj1 (slice_last limit msgs Hl)).
Qed.

(** While storage works, asking again gives the same sequence: the
    store is not changed by the question. *)
Lemma getRecentMessages_again (w : World) (conversationId : jsstring) (limit : Z)
    (msgs : list Message.t) :
  noFaults w → storedMessages w conversationId = Some msgs →
  let first := getRecentMessages conversationId limit w in
  let second := getRecentMessages conversationId limit first.2 in
  first.1 = Ok (slice (- limit) msgs) ∧ second.1 = first.1.
Proof.
  intros Hn Hm.
  destruct (noFaults_getItem (conversationKey conversationId) w Hn)
    as (w1 & Hg & Hs1 & _ & Hn1).
  assert (getRecentMessages conversationId limit w = (Ok (slice (- limit) msgs), w1)) as H1.
  { unfold getRecentMessages, getAllMessages, tryCatch. rewrite !bind_run, Hg.
    unfold storedMessages in Hm.
    destruct (store w !! conversationKey conversationId) as [[]|]; by simplify_eq. }
  cbv zeta. rewrite H1. cbn [fst snd]. split; [done|].
  assert (storedMessages w1 conversationId = Some msgs) as Hm1
    by (unfold storedMessages in *; by rewrite Hs1).
  by destruct (getRecentMessages_run w1 conversationId limit msgs Hn1 Hm1) as (w2 & -> & _).
Qed.

(** C4. With the limit 0 the code returns the whole log, not the last
    [min 0 (length log) = 0] messages. *)
Theorem getRecentMessages_limit_zero :
  let m1 := {| Message.id := js "msg_1"; Message.role := user;
               Message.content := js "How do I start?";
               Message.timestamp := js "2025-03-09T10:15:00.000Z" |} in
  let m2 := {| Message.id := js "msg_2"; Message.role := assistant;
               Message.content := js "Pick one goal.";
               Message.timestamp := js "2025-03-09T10:15:04.000Z" |} in
  let w := {| store := {[ conversationKey (js "c1") := SMessages [m1; m2] ]};
              faults := []; console := []; personas := [] |} in
  (getRecentMessages (js "c1") 0 w).1 = Ok [m1; m2]
  ∧ (getRecentMessages (js "c1") 1 w).1 = Ok [m2]
  ∧ (getRecentMessages (js "c1") 5 w).1 = Ok [m1; m2].
Proof. cbv zeta. split_and!; vm_compute; reflexivity. Qed.

(** *** Clearing a conversation *)

Lemma withoutItems_lookup_item (ids : list jsstring) (s : gmap jsstring stored)
    (id : jsstring) :
  id ∈ ids → withoutItems ids s !! memoryKey id = None.
Proof.
  unfold withoutItems. revert s. induction ids as [|i ids IH]; intros s Hin.
  - by apply elem_of_nil in Hin.
  - cbn [foldl]. destruct (decide (id ∈ ids)) as [|Hnot]; [by apply IH|].
    apply elem_of_cons in Hin as [->|]; [|done].
    clear IH. generalize (delete (memoryKey i) s) (lookup_delete_eq s (memoryKey i)).
    clear s. induction ids as [|j ids IH]; intros s Hs; [done|].
    cbn [foldl]. apply IH; [set_solver|].
    destruct (decide (memoryKey j = memoryKey i)) as [->|].
    + apply lookup_delete_eq.
    + by rewrite lookup_delete_ne.
Qed.

Lemma withoutItems_lookup_None (ids : list jsstring) (s : gmap jsstring stored)
    (k : jsstring) :
  s !! k = None → withoutItems ids s !! k = None.
Proof.
  unfold withoutItems. revert s. induction ids as [|i ids IH]; intros s Hs; [done|].
  cbn [foldl]. apply IH. destruct (decide (memoryKey i = k)) as [->|].
  - apply lookup_delete_eq.
  - by rewrite lookup_delete_ne.
Qed.

Lemma forEach_removeItem_run (ids : list jsstring) (w : World) :
  noFaults w →
  ∃ w', forEach (fun id => removeItem (memoryKey id)) ids w = (Ok tt, w')
        ∧ store w' = withoutItems ids (store w) ∧ noFaults w'.
Proof.
  revert w. induction ids as [|i ids IH]; intros w Hn.
  - by exists w.
  - destruct (noFaults_removeItem (memoryKey i) w Hn) as (w1 & H1 & Hs1 & _ & Hn1).
    destruct (IH w1 Hn1) as (w2 & H2 & Hs2 & Hn2).
    exists w2. split_and!; [| |done].
    + cbn [forEach]. by rewrite bind_run, H1.
    + unfold withoutItems in *. cbn [foldl]. by rewrite Hs2, Hs1.
Qed.

(** Once the log of a conversation is gone, [getRecentMessages] gives the
    empty sequence for every limit, whether the read fails or not. *)
Lemma getRecentMessages_cleared (w : World) (conversationId : jsstring) (limit : Z) :
  store w !! conversationKey conversationId = None →
  (getRecentMessages conversationId limit w).1 = Ok [].
Proof.
  intros H. unfold getRecentMessages, getAllMessages, getItem, tryCatch, attempt.
  rewrite !bind_run.
  destruct (faults w) as [|[] fs]; cbn [gets store with_faults fst snd];
    rewrite ?H; by destruct limit.
Qed.

Lemma clearMemory_keeps_log (c conversationId : jsstring) :
  keeps (entry (conversationKey c)) (clearMemoryForConversation conversationId).
Proof. unfold clearMemoryForConversation. frame. Qed.

(** Whenever [clearConversation] returns, the log is gone. *)
Lemma clearConversation_log (w w' : World) (conversationId : jsstring) :
  clearConversation conversationId w = (Ok tt, w') →
  store w' !! conversationKey conversationId = None
  ∧ ∀ limit, (getRecentMessages conversationId limit w').1 = Ok [].
Proof.
  intros H.
  assert (store w' !! conversationKey conversationId = None) as Hlog.
  { revert H. unfold clearConversation, tryCatch. rewrite bind_run.
    unfold removeItem at 1. rewrite bind_run. unfold attempt.
    pose proof (clearMemory_keeps_log conversationId conversationId) as Hk.
    destruct (faults w) as [|[] fs]; cbv beta iota; unfold modify; try done.
    - match goal with |- context [clearMemoryForConversation _ ?w1] =>
        specialize (Hk w1); destruct (clearMemoryForConversation conversationId w1)
          as [[[]|e] w2] end; [|done].
      intros [= <-]. unfold entry in Hk. cbn [snd store with_store] in Hk.
      by rewrite Hk, lookup_delete_eq.
    - match goal with |- context [clearMemoryForConversation _ ?w1] =>
        specialize (Hk w1); destruct (clearMemoryForConversation conversationId w1)
          as [[[]|e] w2] end; [|done].
      intros [= <-]. unfold entry in Hk. cbn [snd store with_store with_faults] in Hk.
      by rewrite Hk, lookup_delete_eq. }
  split; [done|]. intros limit. by apply getRecentMessages_cleared.
Qed.

(** C5, as stated, fails: a storage operation that is rejected while the
    memory of the conversation is cleared is only printed, and
    [clearConversation] returns with the memory item still stored. *)
Lemma clearConversation_leaves_items :
  let m := {| Message.id := js "msg_1"; Message.role := user;
              Message.content := js "How do I start my plan?";
              Message.timestamp := js "2025-03-09T10:15:00.000Z" |} in
  let empty := {| store := ∅; faults := []; console := []; personas := [] |} in
  let saved := (saveMessage (U := basicUnicode) (js "c1") m empty).2 in
  let failing := with_faults [false; true] saved in
  let cleared := (clearConversation (js "c1") failing).2 in
  store saved !! indexKey (js "c1") = Some (SStrings [js "msg_1"])
  ∧ (clearConversation (js "c1") failing).1 = Ok tt
  ∧ store cleared !! conversationKey (js "c1") = None
  ∧ store cleared !! memoryKey (js "msg_1") = store saved !! memoryKey (js "msg_1")
  ∧ is_Some (store cleared !! memoryKey (js "msg_1"))
  ∧ store cleared !! indexKey (js "c1") = Some (SStrings [js "msg_1"])
  ∧ console cleared = ["Failed to clear memory for conversation:"%string].
Proof.
  cbv zeta. split_and!; try (vm_compute; reflexivity).
  vm_compute. eexists. reflexivity.
Qed.

(** C5, amended. When no storage operation fails and the memory index
    of the conversation is absent or a list of ids, [clearConversation]
    returns, and then the log of the conversation, every memory item
    listed in its memory index and the index itself are gone from the
    store, and [getRecentMessages] gives the empty sequence for every
    limit. (When the key of the index holds a memory item instead,
    [clearConversation] returns with that key still stored, see
    [clearConversation_index_key_taken].) *)
Theorem clearConversation_clears
    (w : World) (conversationId : jsstring) (ids : list jsstring) :
  noFaults w →
  storedIndex w conversationId = Some ids →
  ∃ w', clearConversation conversationId w = (Ok tt, w')
        ∧ store w' !! conversationKey conversationId = None
        ∧ (∀ id, id ∈ ids → store w' !! memoryKey id = None)
        ∧ store w' !! indexKey conversationId = None
        ∧ ∀ limit, (getRecentMessages conversationId limit w').1 = Ok [].
Proof.
  intros Hn Hids.
  destruct (noFaults_removeItem (conversationKey conversationId) w Hn)
    as (w1 & H1 & Hs1 & _ & Hn1).
  destruct (noFaults_getItem (indexKey conversationId) w1 Hn1)
    as (w2 & H2 & Hs2 & _ & Hn2).
  assert (store w1 !! indexKey conversationId = store w !! indexKey conversationId) as Hi.
  { rewrite Hs1. apply lookup_delete_ne, conversationKey_indexKey. }
  unfold storedIndex in Hids.
  assert (∃ w', clearConversation conversationId w = (Ok tt, w')
                ∧ (∀ id, id ∈ ids → store w' !! memoryKey id = None)
                ∧ store w' !! indexKey conversationId = None) as (w' & Hrun & Hitems & Hidx).
  { destruct (store w !! indexKey conversationId) as [v|] eqn:E.
    - destruct v as [| |l|]; try done. injection Hids as ->.
      destruct (forEach_removeItem_run ids w2 Hn2) as (w3 & H3 & Hs3 & Hn3).
      destruct (noFaults_removeItem (indexKey conversationId) w3 Hn3)
        as (w4 & H4 & Hs4 & _ & _).
      exists w4. split_and!.
      + unfold clearConversation, clearMemoryForConversation, tryCatch.
        rewrite bind_run, H1. cbv beta iota. rewrite bind_run, H2, Hi.
        cbv beta iota. unfold asStrings. rewrite bind_run.
        change ((mret ids : M _) w2) with (Ok ids, w2). cbv beta iota.
        by rewrite bind_run, H3, H4.
      + intros id Hin. rewrite Hs4, Hs3.
        destruct (decide (indexKey conversationId = memoryKey id)) as [->|].
        * apply lookup_delete_eq.
        * rewrite lookup_delete_ne by done. by apply withoutItems_lookup_item.
      + rewrite Hs4. apply lookup_delete_eq.
    - injection Hids as <-. exists w2. split_and!.
      + unfold clearConversation, clearMemoryForConversation, tryCatch.
        rewrite bind_run, H1. cbv beta iota. by rewrite bind_run, H2, Hi.
      + intros id Hin. by apply elem_of_nil in Hin.
      + by rewrite Hs2, Hi. }
  exists w'. destruct (clearConversation_log w w' conversationId Hrun) as [Hlog Hrecent].
  by split_and!.
Qed.

End MemoryClaims.

(** *** Witnesses *)

Section MemoryWitnesses.

Import AsyncStorage MemoryEngine.


Lemma saveMessage_index_entry_missing :
  let w := with_faults [false; false; false; true] emptyWorld in
  let w' := (saveMessage (U := basicUnicode) (js "c1") firstQuestion w).2 in
  (saveMessage (U := basicUnicode) (js "c1") firstQuestion w).1 = Ok tt
  ∧ store w' !! conversationKey (js "c1") = Some (SMessages [firstQuestion])
  ∧ store w' !! indexKey (js "c1") = None
  ∧ console w' = ["Failed to index message for search:"%string].
Proof. cbv zeta. split_and!; vm_compute; reflexivity. Qed.

Lemma saveMessage_memory_item_witness :
  noFaults emptyWorld
  ∧ storedMessages emptyWorld (js "c1") = Some []
  ∧ storedIndex emptyWorld (js "c1") = Some []
  ∧ Message.id systemNote ≠ js "index_" ++ js "c1"
  ∧ ∃ w', saveMessage (U := basicUnicode) (js "c1") systemNote emptyWorld = (Ok tt, w')
          ∧ store w' =
              let logged := <[conversationKey (js "c1") := SMessages ([] ++ [systemNote])]>
                              (store emptyWorld) in
              if bool_decide (length (trim (Message.content systemNote)) ≤ 10)%nat
              then logged
              else <[indexKey (js "c1") := SStrings ([] ++ [Message.id systemNote])]>
                     (<[memoryKey (Message.id systemNote)
                        := SMemoryItem (memoryItemOf (U := basicUnicode) (js "c1") systemNote)]> logged).
Proof.
  assert (noFaults emptyWorld) as H1 by constructor.
  assert (storedMessages emptyWorld (js "c1") = Some []) as H2 by (vm_compute; reflexivity).
  assert (storedIndex emptyWorld (js "c1") = Some []) as H3 by (vm_compute; reflexivity).
  assert (Message.id systemNote ≠ js "index_" ++ js "c1") as H4 by (vm_compute; discriminate).
  split; [exact H1|]. split; [exact H2|]. split; [exact H3|]. split; [exact H4|].
  exact (saveMessage_memory_item (U := basicUnicode) emptyWorld (js "c1") systemNote [] [] H1 H2 H3 H4).
Defined.

Lemma clearConversation_clears_witness :
  let w := (saveMessage (U := basicUnicode) (js "c1") firstQuestion emptyWorld).2 in
  noFaults w
  ∧ storedIndex w (js "c1") = Some [Message.id firstQuestion]
  ∧ ∃ w', clearConversation (js "c1") w = (Ok tt, w')
          ∧ store w' !! conversationKey (js "c1") = None
          ∧ (∀ id, id ∈ [Message.id firstQuestion] → store w' !! memoryKey id = None)
          ∧ store w' !! indexKey (js "c1") = None
          ∧ ∀ limit, (getRecentMessages (js "c1") limit w').1 = Ok [].
Proof.
  cbv zeta.
  assert (noFaults (saveMessage (U := basicUnicode) (js "c1") firstQuestion emptyWorld).2) as H1
    by (vm_compute; constructor).
  assert (storedIndex (saveMessage (U := basicUnicode) (js "c1") firstQuestion emptyWorld).2 (js "c1")
          = Some [Message.id firstQuestion]) as H2 by (vm_compute; reflexivity).
  split; [exact H1|]. split; [exact H2|].
  exact (clearConversation_clears _ (js "c1") [Message.id firstQuestion] H1 H2).
Defined.

End MemoryWitnesses.

(** ** Persona store *)

Section PersonaClaims.

Import AsyncStorage PersonalityEngine.

Lemma maintains_bind {A A'} (P : World → Prop) (m : M A) (f : A → M A') :
  maintains P m → (∀ a, maintains P (f a)) → maintains P (m ≫= f).
Proof.
  intros Hm Hf w Hw. rewrite bind_run. specialize (Hm w Hw).
  destruct (m w) as [[a|e] w']; [|done]. by apply Hf.
Qed.

Lemma maintains_tryCatch {A} (P : World → Prop) (m : M A) (h : exn → M A) :
  maintains P m → (∀ e, maintains P (h e)) → maintains P (tryCatch m h).
Proof.
  intros Hm Hh w Hw. unfold tryCatch. specialize (Hm w Hw).
  destruct (m w) as [[a|e] w']; [done|]. by apply Hh.
Qed.

Lemma maintains_forEach {A} (P : World → Prop) (f : A → M unit) (l : list A) :
  (∀ x, maintains P (f x)) → maintains P (forEach f l).
Proof.
  intros Hf. induction l as [|x l IH]; cbn [forEach]; [by intros w|].
  apply maintains_bind; [apply Hf | by intros].
Qed.

Lemma maintains_keeps {A} (m : M A) : keeps personas m → maintains loaded m.
Proof. intros Hk w Hw. unfold loaded. by rewrite Hk. Qed.

Lemma set_not_empty {V} (k : jsstring) (v : V) (m : list (jsstring * V)) :
  JsMap.set k v m ≠ [].
Proof. destruct m as [|[k' v'] m]; cbn [JsMap.set]; [done|]. by destruct (JsString.eqb k k'). Qed.

Lemma setPersona_loads (persona : PersonaProfile.t) (w : World) :
  loaded (setPersona persona w).2.
Proof. unfold loaded, setPersona, modify. cbn [snd personas with_personas]. apply set_not_empty. Qed.

Lemma loadCustomPersonas_maintains : maintains loaded loadCustomPersonas.
Proof.
  unfold loadCustomPersonas.
  apply maintains_tryCatch.
  - apply maintains_bind.
    + apply maintains_keeps, keeps_getItem, faultFree_personas.
    + intros [v|]; [|by intros w].
      apply maintains_bind.
      * apply maintains_keeps, keeps_asPersonas.
      * intros l. apply maintains_forEach. intros x w _. apply setPersona_loads.
  - intros e. apply maintains_keeps, keeps_consoleError. by intros.
Qed.

Lemma loadBuiltInPersonas_run (w : World) :
  ∃ w', loadBuiltInPersonas w = (Ok tt, w') ∧ loaded w'.
Proof.
  unfold loadBuiltInPersonas. rewrite !bind_run. unfold setPersona at 1 2 3 4, modify.
  cbv beta iota. eexists. split; [reflexivity|]. apply setPersona_loads.
Qed.

(** After [initPersonas] the map is not empty. *)
Lemma initPersonas_run (w : World) :
  ∃ w', initPersonas w = (Ok tt, w') ∧ loaded w'.
Proof.
  unfold initPersonas, tryCatch. rewrite bind_run.
  destruct (loadBuiltInPersonas_run w) as (w1 & -> & Hl).
  pose proof (loadCustomPersonas_maintains w1 Hl) as Hm.
  assert (returns loadCustomPersonas) as Hr
    by (apply returns_tryCatch; intros; apply returns_consoleError).
  destruct (Hr w1) as [[] Hok].
  destruct (loadCustomPersonas w1) as [r w2]. cbn [fst snd] in *. subst r.
  by exists w2.
Qed.

(** The guard of the public methods leaves a map that is not empty, and
    leaves a map that is not empty alone. *)
Lemma ensureLoaded_run (w : World) :
  ∃ w', ensureLoaded w = (Ok tt, w') ∧ loaded w'
        ∧ (loaded w → w' = w).
Proof.
  unfold ensureLoaded. rewrite bind_run. unfold gets. cbv beta iota.
  case_bool_decide as Hsize.
  - destruct (initPersonas_run w) as (w' & Hrun & Hl). exists w'.
    split_and!; [done | done |]. intros Hw. exfalso. apply Hw.
    by destruct (personas w).
  - exists w. split_and!; [done | | done]. intros He. apply Hsize.
    unfold JsMap.size. by rewrite He.
Qed.





(** C2. Right after start-up, deleting [commander] fails and leaves the
    map and the store alone, and a custom persona (a duplicate) can be
    deleted and is then absent from [getAllPersonas]. But once a persona
    has been saved under the id [commander], an entry marked custom has
    taken the place of the built-in one: deleting [commander] succeeds and
    the id is gone, [getAllPersonas] has four profiles left and
    [getPersona] falls back to the first of them. *)
Theorem deletePersona_after_save_removes_builtin :
  let start := (create {| store := ∅; faults := []; console := []; personas := [] |}).2 in
  let edited := PersonaProfile.with_name (js "Commander, softer") commander in
  let refused := deletePersona (js "commander") start in
  let copied := duplicatePersona 1700000000000 (js "commander") (js "My commander") start in
  let uncopied := deletePersona (js "persona_1700000000000") copied.2 in
  let saved := savePersona 1700000000000 edited start in
  let deleted := deletePersona (js "commander") saved.2 in
  map fst (personas start)
  = [js "strategist"; js "commander"; js "architect"; js "catalyst"; js "tactical"]
  ∧ (refused.1 = Throw (Error "Failed to delete persona")
     ∧ personas refused.2 = personas start
     ∧ store refused.2 = store start)
  ∧ (map fst (personas copied.2)
     = [js "strategist"; js "commander"; js "architect"; js "catalyst"; js "tactical";
        js "persona_1700000000000"]
     ∧ uncopied.1 = Ok tt
     ∧ (getAllPersonas uncopied.2).1 = Ok [strategist; commander; architect; catalyst; tactical])
  ∧ (saved.1 = Ok tt
     ∧ deleted.1 = Ok tt
     ∧ JsMap.get (js "commander") (personas deleted.2) = None
     ∧ (getAllPersonas deleted.2).1 = Ok [strategist; architect; catalyst; tactical]
     ∧ (getPersona (js "commander") deleted.2).1 = Ok (Some strategist)).
Proof. cbv zeta. split_and!; vm_compute; reflexivity. Qed.

End PersonaClaims.

(** ** Completion request *)

Section RequestClaims.

Import AICoreService.

(** A temperature other than zero and NaN goes into the request as it
    is. *)
Lemma callOpenAI_temperature (p : PersonaProfile.t) (msgs : list ChatMessage) :
  truthyNumber (PersonaProfile.temperature p) = true →
  temperature (callOpenAI_request (Some p) msgs) = PersonaProfile.temperature p.
Proof. intros H. unfold callOpenAI_request. cbn [temperature]. by rewrite H. Qed.

Lemma callOpenAI_no_persona (msgs : list ChatMessage) :
  temperature (callOpenAI_request None msgs) = 0.7%float.
Proof. reflexivity. Qed.

(** C8. A persona that supplies the temperature 0 gets the default: the
    request carries 0.7. *)
Theorem callOpenAI_zero_temperature :
  let exact := PersonaProfile.with_temperature 0%float PersonalityEngine.architect in
  PersonaProfile.temperature exact = 0%float
  ∧ temperature (callOpenAI_request (Some exact) []) = 0.7%float
  ∧ PrimFloat.eqb (temperature (callOpenAI_request (Some exact) []))
                  (PersonaProfile.temperature exact) = false
  ∧ temperature (callOpenAI_request (Some PersonalityEngine.architect) []) = 0.2%float.
Proof. cbv zeta. split_and!; reflexivity. Qed.

End RequestClaims.

(** ** [JSON.parse] does not run out of fuel *)

Section JsonFuel.

Import Json.

Lemma skipWs_length (s : jsstring) : (length (skipWs s) ≤ length s)%nat.
Proof.
  induction s as [|c s IH]; cbn [skipWs]; [done|].
  destruct (isJsonWs c); cbn [length]; lia.
Qed.

Lemma skipWs_cons (s r : jsstring) (c : N) :
  skipWs s = c :: r → (length r < length s)%nat.
Proof. intros H. pose proof (skipWs_length s) as Hl. rewrite H in Hl. cbn [length] in Hl. lia. Qed.

Lemma parseChars_length (s acc str r : jsstring) :
  parseChars s acc = Some (str, r) → (length r < length s)%nat.
Proof.
  remember (length s) as n eqn:Hn. revert s acc Hn.
  induction (lt_wf n) as [n _ IH]. intros s acc -> H.
  destruct s as [|c s1]; [done|]. cbn [parseChars] in H.
  destruct (c =? 34); [injection H as _ <-; cbn [length]; lia|].
  destruct (c =? 92).
  - destruct s1 as [|e s2]; [done|].
    repeat match type of H with
    | (if ?b then _ else _) = _ => destruct b
    end;
    try (eapply IH in H; [| | reflexivity]; cbn [length] in *; lia).
    + destruct s2 as [|h1 [|h2 [|h3 [|h4 s3]]]]; try done.
      destruct (hexDigit h1), (hexDigit h2), (hexDigit h3), (hexDigit h4); try done.
      eapply IH in H; [| | reflexivity]; cbn [length] in *; lia.
    + done.
  - destruct (c <? 32); [done|].
    eapply IH in H; [| | reflexivity]; cbn [length] in *; lia.
Qed.

Lemma stripPrefix_length (p s r : jsstring) :
  stripPrefix p s = Some r → length s = (length p + length r)%nat.
Proof. intros H. apply stripPrefix_Some in H as ->. by rewrite length_app. Qed.

Lemma parseDigits_length (s : jsstring) (acc : N) (k : nat) :
  (length (parseDigits s acc k).2 ≤ length s)%nat.
Proof.
  revert acc k. induction s as [|c s IH]; intros acc k; cbn [parseDigits]; [done|].
  destruct (isDigit c); [|done]. specialize (IH (acc * 10 + (c - 48)) (S k)).
  cbn [length]. lia.
Qed.

Lemma parseNumber_length (c : N) (s r : jsstring) (n : numeral) :
  parseNumber (c :: s) = Some (n, r) → (length r < length (c :: s))%nat.
Proof.
  unfold parseNumber.
  set (start := if c =? 45 then (true, s) else (false, c :: s)).
  assert (length start.2 ≤ length (c :: s))%nat as Hstart
    by (unfold start; destruct (c =? 45); cbn [snd length]; lia).
  destruct start as [sg s1]. cbn [snd] in Hstart.
  destruct (parseInt s1) as [[i s2]|] eqn:Ei; [|done].
  assert (length s2 < length s1)%nat as H2.
  { unfold parseInt in Ei. destruct s1 as [|d s1']; [done|].
    destruct (d =? 48); [injection Ei as _ <-; cbn [length]; lia|].
    destruct (isDigit d) eqn:Ed; [|done].
    cbn [parseDigits] in Ei. rewrite Ed in Ei.
    pose proof (parseDigits_length s1' (0 * 10 + (d - 48)) 1) as Hl.
    destruct (parseDigits s1' (0 * 10 + (d - 48)) 1) as [[n' k'] r'].
    injection Ei as _ <-. cbn [snd length] in *. lia. }
  destruct (parseFrac i s2) as [[[m k] s3]|] eqn:Ef; [|done].
  assert (length s3 ≤ length s2)%nat as H3.
  { unfold parseFrac in Ef. destruct s2 as [|d s2']; [by injection Ef as _ _ <-|].
    destruct (d =? 46); [|by injection Ef as _ _ <-].
    pose proof (parseDigits_length s2' i 0) as Hl.
    destruct (parseDigits s2' i 0) as [[n' k'] r'].
    destruct k'; [done|]. injection Ef as _ _ <-. cbn [snd length] in *. lia. }
  destruct (parseExp s3) as [[e s4]|] eqn:Ee; [|done].
  assert (length s4 ≤ length s3)%nat as H4.
  { unfold parseExp in Ee. destruct s3 as [|d s3']; [by injection Ee as _ <-|].
    destruct ((d =? 101) || (d =? 69)); [|by injection Ee as _ <-].
    set (signed := match s3' with
                   | [] => (1%Z, s3')
                   | d0 :: s'' =>
                     if d0 =? 43 then (1%Z, s'')
                     else if d0 =? 45 then ((-1)%Z, s'') else (1%Z, s3')
                   end) in Ee.
    assert (length signed.2 ≤ length s3')%nat as Hsg.
    { unfold signed. destruct s3' as [|d0 s'']; [done|].
      destruct (d0 =? 43); [cbn [snd length]; lia|].
      destruct (d0 =? 45); cbn [snd length]; lia. }
    destruct signed as [sign s5]. cbn [snd] in Hsg.
    pose proof (parseDigits_length s5 0 0) as Hl.
    destruct (parseDigits s5 0 0) as [[n' k'] r'].
    destruct k'; [done|]. injection Ee as _ <-. cbn [snd length] in *. lia. }
  intros [= _ <-]. lia.
Qed.

Lemma consumes_mono (result : presult) (s s' : jsstring) :
  consumes result s' → (length s' ≤ length s)%nat → consumes result s.
Proof. destruct result; cbn [consumes]; [lia | done | done]. Qed.

Lemma consumes_literal (lit s : jsstring) (v : value) (other : presult) :
  lit ≠ [] → consumes other s →
  consumes (match stripPrefix lit s with
            | Some r' => POk v r'
            | None => other
            end) s.
Proof.
  intros Hl Ho. destruct (stripPrefix lit s) as [r'|] eqn:E; [|done].
  apply stripPrefix_length in E. cbn [consumes]. destruct lit; [done|]. cbn [length] in E. lia.
Qed.

Lemma parse_consumes (fuel : nat) :
  (∀ s, consumes (parseValue fuel s) s)
  ∧ (∀ s acc, consumes (parseElements fuel s acc) s)
  ∧ (∀ s acc, consumes (parseMembers fuel s acc) s).
Proof.
  induction fuel as [|f (IHv & IHe & IHm)]; [done|]. split_and!.
  - intros s. cbn [parseValue].
    destruct (skipWs s) as [|c r] eqn:Es; [done|]. apply skipWs_cons in Es.
    destruct (c =? 123).
    { destruct (skipWs r) as [|c' r'] eqn:Er; [done|]. apply skipWs_cons in Er.
      destruct (c' =? 125); [cbn [consumes]; lia|].
      apply (consumes_mono _ _ r); [apply IHm | lia]. }
    destruct (c =? 91).
    { destruct (skipWs r) as [|c' r'] eqn:Er; [done|]. apply skipWs_cons in Er.
      destruct (c' =? 93); [cbn [consumes]; lia|].
      apply (consumes_mono _ _ r); [apply IHe | lia]. }
    destruct (c =? 34).
    { destruct (parseChars r []) as [[str r']|] eqn:Ec; [|done].
      apply parseChars_length in Ec. cbn [consumes]. lia. }
    destruct ((c =? 45) || isDigit c).
    { destruct (parseNumber (c :: r)) as [[n r']|] eqn:En; [|done].
      apply parseNumber_length in En. cbn [consumes length] in *. lia. }
    apply (consumes_mono _ _ (c :: r)); [|cbn [length]; lia].
    repeat (apply consumes_literal; [done|]). done.
  - intros s acc. cbn [parseElements].
    specialize (IHv s). destruct (parseValue f s) as [v r| |]; [|done|done].
    cbn [consumes] in IHv.
    destruct (skipWs r) as [|c r'] eqn:Er; [done|]. apply skipWs_cons in Er.
    destruct (c =? 44); [apply (consumes_mono _ _ r'); [apply IHe | lia]|].
    destruct (c =? 93); [cbn [consumes]; lia | done].
  - intros s acc. cbn [parseMembers].
    destruct (skipWs s) as [|q r0] eqn:Es; [done|]. apply skipWs_cons in Es.
    destruct (q =? 34); [|done].
    destruct (parseChars r0 []) as [[k r1]|] eqn:Ec; [|done].
    apply parseChars_length in Ec.
    destruct (skipWs r1) as [|c1 r2] eqn:E1; [done|]. apply skipWs_cons in E1.
    destruct (c1 =? 58); [|done].
    specialize (IHv r2). destruct (parseValue f r2) as [v r3| |]; [|done|done].
    cbn [consumes] in IHv.
    destruct (skipWs r3) as [|c r'] eqn:E3; [done|]. apply skipWs_cons in E3.
    destruct (c =? 44); [apply (consumes_mono _ _ r'); [apply IHm | lia]|].
    destruct (c =? 125); [cbn [consumes]; lia | done].
Qed.

(** With fuel above twice the length of the text, no parser gives up. *)
Lemma parse_fuel (fuel : nat) :
  (∀ s, (2 * length s + 1 ≤ fuel)%nat → parseValue fuel s ≠ POutOfFuel)
  ∧ (∀ s acc, (2 * length s + 2 ≤ fuel)%nat → parseElements fuel s acc ≠ POutOfFuel)
  ∧ (∀ s acc, (2 * length s + 2 ≤ fuel)%nat → parseMembers fuel s acc ≠ POutOfFuel).
Proof.
  induction fuel as [|f (IHv & IHe & IHm)]; [split_and!; intros; lia|]. split_and!.
  - intros s Hf. cbn [parseValue].
    destruct (skipWs s) as [|c r] eqn:Es; [done|]. apply skipWs_cons in Es.
    destruct (c =? 123).
    { destruct (skipWs r) as [|c' r'] eqn:Er; [done|].
      destruct (c' =? 125); [done|]. apply IHm. lia. }
    destruct (c =? 91).
    { destruct (skipWs r) as [|c' r'] eqn:Er; [done|].
      destruct (c' =? 93); [done|]. apply IHe. lia. }
    destruct (c =? 34); [by destruct (parseChars r []) as [[??]|]|].
    destruct ((c =? 45) || isDigit c); [by destruct (parseNumber (c :: r)) as [[??]|]|].
    by repeat match goal with |- context [match ?x with Some _ => _ | None => _ end] =>
      destruct x end.
  - intros s acc Hf. cbn [parseElements].
    specialize (IHv s). pose proof (proj1 (parse_consumes f) s) as Hc.
    destruct (parseValue f s) as [v r| |]; [|done|apply IHv; lia].
    cbn [consumes] in Hc.
    destruct (skipWs r) as [|c r'] eqn:Er; [done|]. apply skipWs_cons in Er.
    destruct (c =? 44); [apply IHe; lia|]. by destruct (c =? 93).
  - intros s acc Hf. cbn [parseMembers].
    destruct (skipWs s) as [|q r0] eqn:Es; [done|]. apply skipWs_cons in Es.
    destruct (q =? 34); [|done].
    destruct (parseChars r0 []) as [[k r1]|] eqn:Ec; [|done].
    apply parseChars_length in Ec.
    destruct (skipWs r1) as [|c1 r2] eqn:E1; [done|]. apply skipWs_cons in E1.
    destruct (c1 =? 58); [|done].
    specialize (IHv r2). pose proof (proj1 (parse_consumes f) r2) as Hc.
    destruct (parseValue f r2) as [v r3| |]; [|done|apply IHv; lia].
    cbn [consumes] in Hc.
    destruct (skipWs r3) as [|c r'] eqn:E3; [done|]. apply skipWs_cons in E3.
    destruct (c =? 44); [apply IHm; lia|]. by destruct (c =? 125).
Qed.

(** [parse] always has fuel enough: when it fails, the text is not JSON. *)
Lemma parseValue_fuel (text : jsstring) :
  parseValue (2 * length text + 1) text ≠ POutOfFuel.
Proof. by apply (proj1 (parse_fuel _)). Qed.

End JsonFuel.

(** ** Examples: the model against the behaviour of the platform *)

Section Examples.

Import AsyncStorage MemoryEngine.

Example split_limit : split 58 2 (js "a:b:c") = [js "a"; js "b"].
Proof. reflexivity. Qed.

Example split_no_separator : split 58 2 (js "navigate") = [js "navigate"].
Proof. reflexivity. Qed.

Example trim_both_ends : trim (js "  two words  ") = js "two words".
Proof. reflexivity. Qed.

Example trim_no_break_space : trim ([160] ++ js "x" ++ [8232; 9]) = js "x".
Proof. reflexivity. Qed.

Example removeFirst_first_only : removeFirst (js "ab") (js "xxabyyab") = js "xxyyab".
Proof. reflexivity. Qed.

Example splitWs_runs : splitWs (js " ab  cd ") [] false = [[]; js "ab"; js "cd"; []].
Proof. reflexivity. Qed.

Example slice_last_two : slice (- 2) [1; 2; 3] = [2; 3].
Proof. reflexivity. Qed.

Example slice_beyond : slice (- 5) [1; 2; 3] = [1; 2; 3].
Proof. reflexivity. Qed.

Example parse_nested :
  Json.parse (jsq " {'a': [1, -2.50e3, true, null], 'b': {}, 'a': 'x'} ")
  = Some (Json.VObj [ (js "a", Json.VStr (js "x")); (js "b", Json.VObj []) ]).
Proof. vm_compute. reflexivity. Qed.

Example parse_number : Json.parse (js "-2.50e3") = Some (Json.VNum (Json.Numeral true 250 1)).
Proof. vm_compute. reflexivity. Qed.

Example parse_rejects :
  Json.parse (js "") = None ∧ Json.parse (js "01") = None
  ∧ Json.parse (js "[1,]") = None ∧ Json.parse (js "{a: 1}") = None
  ∧ Json.parse (js "1 2") = None.
Proof. split_and!; vm_compute; reflexivity. Qed.

Example truthy_values :
  Json.truthy (Json.VStr []) = false
  ∧ Json.truthy (Json.VNum (Json.Numeral false 0 5)) = false
  ∧ Json.truthy (Json.VNum (Json.Numeral true 25 (-1))) = true
  ∧ Json.truthy (Json.VArr []) = true.
Proof. split_and!; reflexivity. Qed.

Example extractKeywords_words :
  extractKeywords (U := basicUnicode) (js "Hello, World! Это большой план with TESTS.")
  = [js "hello"; js "world"; js "большой"; js "план"; js "tests"].
Proof. vm_compute. reflexivity. Qed.

Example interpret_update_without_id :
  ActionInterpreter.interpretIntent someClock
    {| ActionInterpreter.action := js "update_task"; ActionInterpreter.data := Json.VObj [] |}
  = Throw (Error "Task ID is required").
Proof. reflexivity. Qed.

Example interpret_unknown :
  ActionInterpreter.interpretIntent someClock
    {| ActionInterpreter.action := js "restart_phone"; ActionInterpreter.data := Json.VObj [] |}
  = Ok None.
Proof. reflexivity. Qed.

End Examples.

(** * Further properties of the services *)

(** ** From the response of the model to the actions of the app *)

Section Interpreter.

Import Json ActionInterpreter AICoreService.

Lemma lookup_head (k : jsstring) (v : value) (ms : list (jsstring * value)) :
  lookup k ((k, v) :: ms) = Some v.
Proof.
  unfold lookup. cbn [JsMap.get]. unfold JsString.eqb.
  by rewrite bool_decide_eq_true_2.
Qed.

Ltac handler h :=
  let E := fresh "E" in
  intros d a; unfold h, handled;
  destruct d as [| | | | |?|ms]; cbn [get mbind result_bind truthy negb]; try done;
  [ destruct (truthy (default VUndefined (lookup _ ms))) eqn:E; cbn [negb]; [|done];
    intros H; injection H as <-; cbn [type payload requiredField];
    split; [done|]; eexists; split_and!; [done | exact E | apply lookup_head] ].

Lemma handleCreateTask_handled :
  ∀ d a, handleCreateTask d = Ok a → handled CREATE_TASK d a.
Proof. handler handleCreateTask. Qed.

Lemma handleUpdateTask_handled :
  ∀ d a, handleUpdateTask d = Ok a → handled UPDATE_TASK d a.
Proof. handler handleUpdateTask. Qed.

Lemma handleDeleteTask_handled :
  ∀ d a, handleDeleteTask d = Ok a → handled DELETE_TASK d a.
Proof. handler handleDeleteTask. Qed.

Lemma handleCreateGoal_handled :
  ∀ d a, handleCreateGoal d = Ok a → handled CREATE_GOAL d a.
Proof. handler handleCreateGoal. Qed.

Lemma handleUpdateGoal_handled :
  ∀ d a, handleUpdateGoal d = Ok a → handled UPDATE_GOAL d a.
Proof. handler handleUpdateGoal. Qed.

Lemma handleCreateHabit_handled :
  ∀ d a, handleCreateHabit d = Ok a → handled CREATE_HABIT d a.
Proof. handler handleCreateHabit. Qed.

Lemma handleCompleteHabit_handled (now : Clock) :
  ∀ d a, handleCompleteHabit now d = Ok a → handled COMPLETE_HABIT d a.
Proof. handler handleCompleteHabit. Qed.

Lemma handleNavigate_handled :
  ∀ d a, handleNavigate d = Ok a → handled NAVIGATE d a.
Proof. handler handleNavigate. Qed.

Lemma handleCreateReflection_handled (now : Clock) :
  ∀ d a, handleCreateReflection now d = Ok a → handled CREATE_REFLECTION d a.
Proof. handler handleCreateReflection. Qed.

Lemma handleDisplayMessage_handled :
  ∀ d a, handleDisplayMessage d = Ok a → handled DISPLAY_MESSAGE d a.
Proof. handler handleDisplayMessage. Qed.

Lemma handleTrackMetric_handled (now : Clock) :
  ∀ d a, handleTrackMetric now d = Ok a → handled TRACK_METRIC d a.
Proof.
  intros d a. unfold handleTrackMetric, handled.
  destruct d as [| | | | |?|ms]; cbn [get mbind result_bind truthy negb orb]; try done.
  destruct (truthy (default VUndefined (lookup _ ms))) eqn:E; cbn [negb orb]; [|done].
  destruct (default VUndefined (lookup (js "value") ms)); try done;
    intros H; injection H as <-; cbn [type payload requiredField];
    (split; [done|]; eexists; split_and!; [done | exact E | apply lookup_head]).
Qed.

Lemma fmap_Some_inv {A} (m : result A) (x : option A) :
  Some <$> m = Ok x → ∃ a, m = Ok a ∧ x = Some a.
Proof. destruct m as [a|e]; [|done]. intros [= <-]. by exists a. Qed.

(** What [interpretIntent] returns, read backwards. *)
Lemma interpretIntent_inv (now : Clock) (intent : SystemIntent) (a : AppAction) :
  interpretIntent now intent = Ok (Some a) →
  actionTypeOf (action intent) = Some (type a) ∧ handled (type a) (data intent) a.
Proof.
  unfold interpretIntent, actionTypeOf.
  repeat match goal with
  | |- context [JsString.eqb (action intent) ?n] =>
    destruct (JsString.eqb (action intent) n);
    [ intros H; apply fmap_Some_inv in H as (a' & H & [= <-]);
      first [ apply handleCreateTask_handled in H
            | apply handleUpdateTask_handled in H
            | apply handleDeleteTask_handled in H
            | apply handleCreateGoal_handled in H
            | apply handleUpdateGoal_handled in H
            | apply handleCreateHabit_handled in H
            | apply handleCompleteHabit_handled in H
            | apply handleNavigate_handled in H
            | apply handleCreateReflection_handled in H
            | apply handleDisplayMessage_handled in H
            | apply handleTrackMetric_handled in H ];
      pose proof H as [Ht _]; rewrite Ht; by split
    | ]
  end.
  done.
Qed.

Lemma interpretIntent_unknown (now : Clock) (intent : SystemIntent) :
  interpretIntent now intent = Ok None ↔ actionTypeOf (action intent) = None.
Proof.
  unfold interpretIntent, actionTypeOf.
  repeat match goal with
  | |- context [JsString.eqb (action intent) ?n] =>
    destruct (JsString.eqb (action intent) n);
    [ split; [|done]; intros H;
      match type of H with Some <$> ?m = _ => destruct m; discriminate H end
    | ]
  end.
  done.
Qed.

(** *** No colon, no property *)

Lemma skipWs_elem (c : N) (s : jsstring) : c ∈ skipWs s → c ∈ s.
Proof.
  induction s as [|d s IH]; cbn [skipWs]; [done|].
  destruct (isJsonWs d); [|done]. intros H. right. by apply IH.
Qed.

Lemma parseChars_elem (s acc str r : jsstring) (c : N) :
  parseChars s acc = Some (str, r) → c ∈ r → c ∈ s.
Proof.
  remember (length s) as n eqn:Hn. revert s acc Hn.
  induction (lt_wf n) as [n _ IH]. intros s acc -> H Hc.
  destruct s as [|d s1]; [done|]. cbn [parseChars] in H.
  destruct (d =? 34); [injection H as _ <-; by right|].
  destruct (d =? 92).
  - destruct s1 as [|e s2]; [done|].
    repeat match type of H with
    | (if ?b then _ else _) = _ => destruct b
    end;
    try (eapply IH in H; [| | reflexivity | exact Hc];
         [by do 2 right | cbn [length]; lia]).
    + destruct s2 as [|h1 [|h2 [|h3 [|h4 s3]]]]; try done.
      destruct (hexDigit h1), (hexDigit h2), (hexDigit h3), (hexDigit h4); try done.
      eapply IH in H; [| | reflexivity | exact Hc];
        [by do 6 right | cbn [length]; lia].
    + done.
  - destruct (d <? 32); [done|].
    eapply IH in H; [| | reflexivity | exact Hc]; [by right | cbn [length]; lia].
Qed.

(** A member needs its colon. *)
Lemma parseMembers_colon (fuel : nat) (s r : jsstring) (acc : list (jsstring * value))
    (v : value) :
  parseMembers fuel s acc = POk v r → 58 ∈ s.
Proof.
  destruct fuel as [|f]; [done|]. cbn [parseMembers].
  destruct (skipWs s) as [|q r0] eqn:E0; [done|].
  destruct (q =? 34); [|done].
  destruct (parseChars r0 []) as [[k r1]|] eqn:Ec; [|done].
  destruct (skipWs r1) as [|c1 r2] eqn:E1; [done|].
  destruct (N.eqb_spec c1 58) as [->|]; [|done]. intros _.
  apply skipWs_elem. rewrite E0. right.
  apply (parseChars_elem _ _ _ _ _ Ec). apply skipWs_elem. rewrite E1. by left.
Qed.

Lemma parseElements_array (fuel : nat) (s r : jsstring) (acc : list value) (v : value) :
  parseElements fuel s acc = POk v r → memberless v.
Proof.
  revert s acc. induction fuel as [|f IH]; intros s acc; [done|].
  cbn [parseElements].
  destruct (parseValue f s) as [v' r'| |]; [|done|done].
  destruct (skipWs r') as [|c r'']; [done|].
  destruct (c =? 44); [apply IH|].
  destruct (c =? 93); [|done]. by intros [= <- <-].
Qed.

Lemma parseValue_memberless (fuel : nat) (s r : jsstring) (v : value) :
  58 ∉ s → parseValue fuel s = POk v r → memberless v.
Proof.
  intros Hs. destruct fuel as [|f]; [done|]. cbn [parseValue].
  destruct (skipWs s) as [|c r0] eqn:E0; [done|].
  destruct (c =? 123).
  { destruct (skipWs r0) as [|c' r'] eqn:E1; [done|].
    destruct (c' =? 125); [by intros [= <- <-]|].
    intros H. exfalso. apply Hs, skipWs_elem. rewrite E0. right.
    by apply parseMembers_colon in H. }
  destruct (c =? 91).
  { destruct (skipWs r0) as [|c' r'] eqn:E1; [done|].
    destruct (c' =? 93); [by intros [= <- <-]|]. apply parseElements_array. }
  destruct (c =? 34).
  { destruct (parseChars r0 []) as [[str r']|]; [|done]. by intros [= <- <-]. }
  destruct ((c =? 45) || isDigit c).
  { destruct (parseNumber (c :: r0)) as [[n r']|]; [|done]. by intros [= <- <-]. }
  destruct (stripPrefix (js "true") (c :: r0)); [by intros [= <- <-]|].
  destruct (stripPrefix (js "false") (c :: r0)); [by intros [= <- <-]|].
  destruct (stripPrefix (js "null") (c :: r0)); [by intros [= <- <-]|done].
Qed.

Lemma parse_memberless (text : jsstring) (v : value) :
  58 ∉ text → parse text = Some v → memberless v.
Proof.
  intros Hs. unfold parse.
  destruct (parseValue _ text) as [v' r| |] eqn:E; [|done|done].
  destruct (skipWs r); [|done]. intros [= <-].
  by apply (parseValue_memberless _ _ _ _ Hs E).
Qed.

Lemma splitAll_free (sep : N) (s : jsstring) :
  Forall (fun piece => sep ∉ piece) (splitAll sep s).
Proof.
  induction s as [|c s IH]; cbn [splitAll].
  - repeat constructor. apply not_elem_of_nil.
  - destruct (N.eqb_spec c sep) as [->|Hne].
    + constructor; [apply not_elem_of_nil | done].
    + destruct (splitAll sep s) as [|h t].
      * repeat constructor. intros [?|H]%elem_of_cons; [done|].
        by apply elem_of_nil in H.
      * apply Forall_cons in IH as [Hh Ht]. constructor; [|done].
        intros [?|H]%elem_of_cons; [done | by apply Hh].
Qed.

Lemma trim_elem (c : N) (s : jsstring) : c ∈ trim s → c ∈ s.
Proof.
  intros H. destruct (trim_split s) as (pre & post & Heq & _).
  rewrite Heq. set_solver.
Qed.

(** The data of an intent is read from the text between the first and
    the second colon of the tag: it has no property. *)
Lemma parseIntent_memberless (group1 : jsstring) (intent : SystemIntent) :
  parseIntent group1 = Ok intent → memberless (data intent).
Proof.
  unfold parseIntent, split.
  destruct (nth_error _ 1) as [[|c dataStr]|] eqn:E; try by intros [= <-].
  destruct (parse (trim (c :: dataStr))) as [d|] eqn:Ep; [|done].
  intros [= <-]. cbn [data]. apply (parse_memberless _ _) in Ep; [done|].
  intros Hc%trim_elem.
  apply nth_error_In, list_elem_of_In in E.
  pose proof (splitAll_free 58 (trim group1)) as Hfree.
  apply (Forall_take _ 2%nat) in Hfree.
  rewrite Forall_forall in Hfree. by apply (Hfree _ E).
Qed.

Lemma scan_memberless (fuel : nat) (rest cleanText : jsstring)
    (acc : list SystemIntent) :
  Forall (fun intent => memberless (data intent)) acc →
  Forall (fun intent => memberless (data intent)) (scan fuel rest acc cleanText).1.
Proof.
  revert rest acc cleanText. induction fuel as [|f IH]; intros rest acc cleanText Hacc.
  { done. }
  rewrite scan_S. destruct (exec rest) as [[[m g] r]|]; [|done].
  destruct (parseIntent g) as [intent|e] eqn:E; [|by apply IH].
  apply IH, Forall_app. split; [done|].
  repeat constructor. by apply parseIntent_memberless in E.
Qed.

(** Data without a property gives no action: every handler misses its
    required property. *)
Lemma interpretIntent_memberless (now : Clock) (intent : SystemIntent) (a : AppAction) :
  memberless (data intent) → interpretIntent now intent ≠ Ok (Some a).
Proof.
  intros Hm H. apply interpretIntent_inv in H as [_ (_ & v & Hget & Hv & _)].
  destruct (data intent) as [| | | | |?|[|??]]; cbn [get] in Hget; try done;
    injection Hget as <-; done.
Qed.

Lemma processSystemIntents_memberless (now : Clock) (intents : list SystemIntent) :
  Forall (fun intent => memberless (data intent)) intents →
  processSystemIntents now intents = [].
Proof.
  induction 1 as [|intent more Hm _ IH]; cbn [processSystemIntents]; [done|].
  destruct (interpretIntent now intent) as [[a|]|e] eqn:E; [|done|done].
  by apply interpretIntent_memberless in E.
Qed.

(** X1. No response of the model makes the app act. [split(':', 2)] leaves
    of a tag the text up to its second colon, so the data of an intent
    is read from text without a colon and has no property; each handler
    then misses the property it requires, and [processSystemIntents]
    skips the intent. *)
Theorem processSystemIntents_of_response (now : Clock) (response : jsstring) :
  Forall (fun intent => memberless (data intent)) (intents (parseResponse response))
  ∧ processSystemIntents now (intents (parseResponse response)) = [].
Proof.
  assert (Forall (fun intent => memberless (data intent))
            (intents (parseResponse response))) as H.
  { rewrite parseResponse_intents. unfold found. by apply scan_memberless. }
  split; [done | by apply processSystemIntents_memberless].
Qed.

(** The intents are read all the same: a tag without data gives an
    intent, and no action. *)
Example processSystemIntents_navigate :
  let parsed := parseResponse (js "Done. <system>navigate</system>") in
  intents parsed = [ {| action := js "navigate"; data := VObj [] |} ]
  ∧ processSystemIntents someClock (intents parsed) = []
  ∧ interpretIntent someClock {| action := js "navigate"; data := VObj [] |}
    = Throw (Error "Navigation screen is required").
Proof. vm_compute. split_and!; reflexivity. Qed.

(** X2. [interpretIntent] gives an action of the type that belongs to the
    name of the intent; a name outside the [switch] gives [null],
    whatever the data, and never an exception. *)
Theorem interpretIntent_dispatch (now : Clock) (intent : SystemIntent) :
  match interpretIntent now intent with
  | Ok (Some a) => actionTypeOf (action intent) = Some (type a)
  | Ok None => actionTypeOf (action intent) = None
  | Throw _ => actionTypeOf (action intent) ≠ None
  end.
Proof.
  destruct (interpretIntent now intent) as [[a|]|e] eqn:E.
  - by apply interpretIntent_inv in E as [? _].
  - by apply (interpretIntent_unknown now).
  - intros H. apply (interpretIntent_unknown now) in H. congruence.
Qed.

(** X3. An action that [interpretIntent] returns carries the property its
    type requires, as the data of the intent has it, and this value is
    truthy: not [undefined], [null], [false], [0] or the empty string. *)
Theorem interpretIntent_required (now : Clock) (intent : SystemIntent) (a : AppAction) :
  interpretIntent now intent = Ok (Some a) →
  ∃ v, get (data intent) (requiredField (type a)) = Ok v
       ∧ truthy v = true
       ∧ lookup (js (requiredField (type a))) (payload a) = Some v.
Proof. intros H. by apply interpretIntent_inv in H as [_ [_ ?]]. Qed.

Lemma interpretIntent_required_witness :
  match interpretIntent someClock exampleIntent with
  | Ok (Some a) =>
    type a = CREATE_TASK
    ∧ ∃ v, get (data exampleIntent) (requiredField (type a)) = Ok v
           ∧ truthy v = true
           ∧ lookup (js (requiredField (type a))) (payload a) = Some v
  | _ => False
  end.
Proof.
  destruct (interpretIntent someClock exampleIntent) as [[a|]|e] eqn:E.
  - split; [|exact (interpretIntent_required someClock exampleIntent a E)].
    vm_compute in E. by injection E as <-.
  - vm_compute in E. discriminate E.
  - vm_compute in E. discriminate E.
Defined.

(** An id that is [0] or the empty string is refused like a missing one. *)
Example interpretIntent_falsy_id :
  interpretIntent someClock
    {| action := js "delete_task";
       data := VObj [ (js "id", VNum (Numeral false 0 0)) ] |}
  = Throw (Error "Task ID is required")
  ∧ interpretIntent someClock
      {| action := js "complete_habit"; data := VObj [ (js "id", VStr []) ] |}
    = Throw (Error "Habit ID is required")
  ∧ interpretIntent someClock {| action := js "delete_task"; data := VNull |}
    = Throw TypeError.
Proof. vm_compute. split_and!; reflexivity. Qed.


End Interpreter.

(** ** Memory engine: keywords, retrieval, failures *)

Section Memory.

Import AsyncStorage MemoryEngine.
Context `{U : Unicode} `{L : KeyListing}.

(** *** Keywords *)

Lemma splitWs_pieces (P : N → Prop) (s cur : jsstring) (inws : bool) :
  Forall P s →
  Forall (fun c => P c ∧ isWhiteSpace c = false) cur →
  Forall (Forall (fun c => P c ∧ isWhiteSpace c = false)) (splitWs s cur inws).
Proof.
  intros Hs. revert cur inws.
  induction Hs as [|c s Hc Hs IH]; intros cur inws Hcur; cbn [splitWs].
  - repeat constructor. by apply Forall_reverse.
  - destruct (isWhiteSpace c) eqn:E.
    + destruct inws; [by apply IH|].
      constructor; [by apply Forall_reverse|]. apply IH. constructor.
    + apply IH. by constructor.
Qed.

(** X7. Every word that [extractKeywords] returns is a keyword. *)
Theorem extractKeywords_keyword (text : jsstring) :
  Forall keyword (extractKeywords text).
Proof.
  apply Forall_forall. intros word H. unfold extractKeywords in H.
  apply list_elem_of_filter in H as [Hstop H].
  apply list_elem_of_filter in H as [Hlen H].
  split_and!.
  - by apply bool_decide_unpack in Hlen.
  - by destruct (isStopWord word).
  - assert (Forall (fun c => inKeptClass c = true)
              (filter inKeptClass (toLowerCase text))) as Hkept.
    { apply Forall_forall. intros c [Hc _]%list_elem_of_filter.
      by apply Is_true_true. }
    pose proof (splitWs_pieces _ _ [] false Hkept (Forall_nil_2 _)) as Hp.
    rewrite Forall_forall in Hp. by apply Hp.
Qed.

(** *** Scores *)

Lemma calculateMatchScore_count (queryKeywords memoryKeywords : list jsstring) :
  calculateMatchScore queryKeywords memoryKeywords
  = Z.of_nat (length (filter (fun qWord => qWord ∈ memoryKeywords) queryKeywords)).
Proof.
  unfold calculateMatchScore.
  assert (∀ acc,
    foldl (fun score qWord =>
             if bool_decide (qWord ∈ memoryKeywords) then (score + 1)%Z else score)
          acc queryKeywords
    = (acc + Z.of_nat (length (filter (fun qWord => qWord ∈ memoryKeywords)
                                      queryKeywords)))%Z) as H.
  { induction queryKeywords as [|q qs IH]; intros acc; cbn [foldl].
    - rewrite filter_nil. cbn [length]. lia.
    - rewrite IH, filter_cons. case_bool_decide as Hq.
      + rewrite decide_True by done. cbn [length]. lia.
      + by rewrite decide_False by done. }
  rewrite H. lia.
Qed.

(** X8. The score of a memory is the number of query keywords that are among
    its keywords, a repeated query keyword counted each time: it is at
    most the number of query keywords, and it is positive exactly when
    the query and the memory share a keyword. *)
Theorem calculateMatchScore_shared (queryKeywords memoryKeywords : list jsstring) :
  (0 ≤ calculateMatchScore queryKeywords memoryKeywords
     ≤ Z.of_nat (length queryKeywords))%Z
  ∧ ((0 < calculateMatchScore queryKeywords memoryKeywords)%Z
     ↔ ∃ word, word ∈ queryKeywords ∧ word ∈ memoryKeywords).
Proof.
  rewrite calculateMatchScore_count.
  pose proof (length_filter (fun qWord => qWord ∈ memoryKeywords) queryKeywords) as Hle.
  split; [lia|]. split.
  - intros Hpos.
    destruct (filter (fun qWord => qWord ∈ memoryKeywords) queryKeywords)
      as [|word rest] eqn:E; [cbn [length] in Hpos; lia|].
    assert (word ∈ filter (fun qWord => qWord ∈ memoryKeywords) queryKeywords) as Hin
      by (rewrite E; left).
    apply list_elem_of_filter in Hin as [? ?]. by exists word.
  - intros (word & Hq & Hm).
    assert (word ∈ filter (fun qWord => qWord ∈ memoryKeywords) queryKeywords) as Hin
      by by apply list_elem_of_filter.
    destruct (filter (fun qWord => qWord ∈ memoryKeywords) queryKeywords);
      [by apply elem_of_nil in Hin | cbn [length]; lia].
Qed.

(** *** Storage operations, step by step *)

Lemma attempt_cases (w : World) :
  ∃ w', store w' = store w ∧ console w' = console w ∧ personas w' = personas w
        ∧ (attempt w = (Ok tt, w') ∧ head (faults w) ≠ Some true
           ∨ attempt w = (Throw StorageError, w') ∧ head (faults w) = Some true).
Proof.
  unfold attempt. destruct (faults w) as [|[] fs].
  - exists w. split_and!; try done. by left.
  - exists (with_faults fs w). split_and!; try done. by right.
  - exists (with_faults fs w). split_and!; try done. by left.
Qed.

Lemma getItem_cases (key : jsstring) (w : World) :
  ∃ w', store w' = store w ∧ console w' = console w ∧ personas w' = personas w
        ∧ (getItem key w = (Ok (store w !! key), w')
           ∨ getItem key w = (Throw StorageError, w')).
Proof.
  destruct (attempt_cases w) as (w' & Hs & Hc & Hp & [[Ha _]|[Ha _]]);
    exists w'; split_and!; try done; unfold getItem; rewrite bind_run, Ha.
  - left. unfold gets. by rewrite Hs.
  - by right.
Qed.

Lemma setItem_cases (key : jsstring) (v : stored) (w : World) :
  (∃ w', setItem key v w = (Ok tt, w') ∧ store w' = <[key := v]> (store w)
         ∧ console w' = console w ∧ personas w' = personas w)
  ∨ (∃ w', setItem key v w = (Throw StorageError, w') ∧ store w' = store w
           ∧ console w' = console w ∧ personas w' = personas w).
Proof.
  destruct (attempt_cases w) as (w' & Hs & Hc & Hp & [[Ha _]|[Ha _]]);
    unfold setItem; rewrite bind_run, Ha.
  - left. eexists. split; [reflexivity|].
    cbn [store console personas with_store]. by rewrite Hs.
  - right. by exists w'.
Qed.

Lemma faultFree_store : faultFree store.
Proof. by intros fs w. Qed.

(** *** Retrieval *)

Lemma getAllMemoryKeys_run (w : World) :
  ∃ keys w', getAllMemoryKeys w = (Ok keys, w') ∧ store w' = store w
             ∧ (keys = []
                ∨ keys = filter (fun key => startsWith memoryKeyPrefix key)
                                (allKeys (store w))).
Proof.
  unfold getAllMemoryKeys, tryCatch, getAllKeys. rewrite !bind_run.
  destruct (attempt_cases w) as (w' & Hs & _ & _ & [[-> _]|[-> _]]).
  - eexists _, w'. split_and!; [reflexivity | done |]. right. unfold gets.
    cbn [fst]. by rewrite Hs.
  - eexists _, _. split_and!; [reflexivity | done | by left].
Qed.

Lemma keeps_collectMatches (queryKeywords keys : list jsstring)
    (matchedMemories : list Matched.t) :
  keeps store (collectMatches queryKeywords keys matchedMemories).
Proof.
  revert matchedMemories. induction keys as [|key keys IH]; intros matchedMemories;
    cbn [collectMatches].
  - apply keeps_ret.
  - apply keeps_bind; [apply keeps_getItem, faultFree_store|].
    intros [[| memory | |]|]; try apply keeps_throw; [|apply IH].
    destruct (isSystem _); [apply IH|]. destruct (_ <? _)%Z; apply IH.
Qed.

(** A key that holds something else than a memory item stops the loop
    with an exception, wherever it comes in the listing. *)
Lemma collectMatches_stray (queryKeywords keys : list jsstring)
    (matchedMemories : list Matched.t) (w : World) (key : jsstring) (v : stored) :
  key ∈ keys → store w !! key = Some v → notAnItem v →
  ∃ e w', collectMatches queryKeywords keys matchedMemories w = (Throw e, w').
Proof.
  revert matchedMemories w.
  induction keys as [|k keys IH]; intros matchedMemories w Hin Hv Hn.
  { by apply elem_of_nil in Hin. }
  cbn [collectMatches]. rewrite bind_run.
  destruct (getItem_cases k w) as (w1 & Hs & _ & _ & [-> | ->]); [|by eexists _, _].
  assert (k ≠ key → ∀ acc,
            ∃ e w', collectMatches queryKeywords keys acc w1 = (Throw e, w')) as Hrest.
  { intros Hne acc. apply IH; [|by rewrite Hs|done].
    apply elem_of_cons in Hin as [?|?]; [congruence|done]. }
  destruct (store w !! k) as [[| memory | |]|] eqn:Ek; try by eexists _, _.
  - assert (k ≠ key) as Hne by (intros ->; rewrite Ek in Hv; by injection Hv as <-).
    destruct (isSystem _); [by apply Hrest|]. destruct (_ <? _)%Z; by apply Hrest.
  - apply Hrest. intros ->. congruence.
Qed.

Lemma sliceTo_nil {A} (e : Z) : JsArray.sliceTo e (@nil A) = [].
Proof. unfold JsArray.sliceTo. apply take_nil. Qed.

Lemma retrieveRelevantContext_stray (w : World) (query : jsstring) (limit : Z) :
  strayMemoryKey w → (retrieveRelevantContext query limit w).1 = Ok [].
Proof.
  intros (key & v & Hv & Hp & Hn).
  unfold retrieveRelevantContext, tryCatch. cbv zeta. rewrite bind_run.
  destruct (getAllMemoryKeys_run w) as (keys & w1 & -> & Hs & [-> | ->]).
  - rewrite bind_run. cbn [collectMatches]. unfold mret, M_ret. cbv beta iota.
    cbn [JsArray.sort]. by rewrite sliceTo_nil.
  - rewrite bind_run.
    edestruct (collectMatches_stray (extractKeywords query)
                 (filter (fun key => startsWith memoryKeyPrefix key) (allKeys (store w)))
                 [] w1 key v) as (e & w2 & ->); [| by rewrite Hs | done | done].
    apply list_elem_of_filter. split; [by apply Is_true_true|].
    apply allKeys_elem. by exists v.
Qed.

Lemma startsWith_indexKey (conversationId : jsstring) :
  startsWith memoryKeyPrefix (indexKey conversationId) = true.
Proof.
  unfold startsWith, indexKey.
  change (js "memory_index_") with (memoryKeyPrefix ++ js "index_").
  by rewrite <- app_assoc, stripPrefix_app.
Qed.

(** X9. Retrieval is blind as soon as one conversation has a memory index.
    The key of the index has the prefix of the memory keys, so the loop
    of [retrieveRelevantContext] reads the index as a memory; the index is
    an array of ids without [keywords] and without [content], and
    [extractKeywords(undefined)] throws. The answer is the empty string
    for every query and limit, in whatever order the platform lists the
    keys, and whether storage operations are rejected or not. *)
Theorem retrieveRelevantContext_blind (w : World) (conversationId : jsstring)
    (ids : list jsstring) (query : jsstring) (limit : Z) :
  store w !! indexKey conversationId = Some (SStrings ids) →
  (retrieveRelevantContext query limit w).1 = Ok [].
Proof.
  intros H. apply retrieveRelevantContext_stray.
  exists (indexKey conversationId), (SStrings ids).
  split_and!; [done | apply startsWith_indexKey | done].
Qed.

Lemma saveMessage_index_entry (w : World) (conversationId : jsstring)
    (message : Message.t) (old : list Message.t) (ids : list jsstring) :
  noFaults w →
  storedMessages w conversationId = Some old →
  storedIndex w conversationId = Some ids →
  Message.id message ≠ js "index_" ++ conversationId →
  (10 < length (trim (Message.content message)))%nat →
  ∃ w', saveMessage conversationId message w = (Ok tt, w')
        ∧ store w' !! indexKey conversationId
          = Some (SStrings (ids ++ [Message.id message]))
        ∧ noFaults w'.
Proof.
  intros Hn Hold Hids Hid Hlong.
  set (key := conversationKey conversationId).
  destruct (noFaults_getItem key w Hn) as (w1 & Hg & Hs1 & _ & Hn1).
  destruct (noFaults_setItem key (SMessages (old ++ [message])) w1 Hn1)
    as (w2 & Hset & Hs2 & _ & Hn2).
  assert ((match store w !! key with
           | Some v => asMessages v
           | None => mret []
           end) w1 = (Ok old, w1)) as Hread.
  { unfold storedMessages in Hold. fold key in Hold.
    destruct (store w !! key) as [[]|]; by simplify_eq. }
  destruct (indexMessageForSearch_run w2 conversationId message ids Hn2)
    as (w' & Hrun & Hs' & Hn').
  { rewrite Hs2, Hs1. rewrite lookup_insert_ne by apply conversationKey_indexKey.
    unfold storedIndex in Hids.
    destruct (store w !! indexKey conversationId) as [[]|]; simplify_eq; auto. }
  { by apply memoryKey_indexKey. }
  exists w'. split_and!; [| by rewrite Hs', lookup_insert_eq | done].
  unfold saveMessage, tryCatch. cbv zeta. fold key.
  rewrite bind_run, Hg. cbv beta iota. rewrite bind_run, Hread. cbv beta iota.
  rewrite bind_run, Hset. cbv beta iota.
  by rewrite bool_decide_eq_true_2, Hrun by done.
Qed.

(** X10. An append that is indexed blinds retrieval. While storage
    works, the stored log of the conversation being absent or a list of
    messages and its memory index being absent or a list of ids,
    [saveMessage] of a message whose id is not the conversation id behind
    [index_] and whose trimmed content has more than ten units returns,
    and [retrieveRelevantContext] then answers the empty string to every
    query, the content of that message included. *)
Theorem retrieveRelevantContext_after_saveMessage
    (w : World) (conversationId : jsstring) (message : Message.t)
    (old : list Message.t) (ids : list jsstring) (query : jsstring) (limit : Z) :
  noFaults w →
  storedMessages w conversationId = Some old →
  storedIndex w conversationId = Some ids →
  Message.id message ≠ js "index_" ++ conversationId →
  (10 < length (trim (Message.content message)))%nat →
  (saveMessage conversationId message w).1 = Ok tt
  ∧ (retrieveRelevantContext query limit (saveMessage conversationId message w).2).1
    = Ok [].
Proof.
  intros Hn Hold Hids Hid Hlong.
  destruct (saveMessage_index_entry w conversationId message old ids)
    as (w' & -> & Hidx & _); try done.
  split; [done|]. apply retrieveRelevantContext_stray.
  exists (indexKey conversationId), (SStrings (ids ++ [Message.id message])).
  split_and!; [done | apply startsWith_indexKey | done].
Qed.

Lemma collectMatches_no_keywords (keys : list jsstring) (w w' : World)
    (matchedMemories : list Matched.t) :
  collectMatches [] keys [] w = (Ok matchedMemories, w') → matchedMemories = [].
Proof.
  revert w. induction keys as [|key keys IH]; intros w; cbn [collectMatches].
  { by intros [= <- _]. }
  rewrite bind_run. destruct (getItem key w) as [[[[| memory | |]|]|e] w1]; try done;
    try apply IH.
  destruct (isSystem _); [apply IH|]. cbn [calculateMatchScore foldl Z.ltb Z.compare].
  apply IH.
Qed.

(** X11. A query without a keyword (every word a stop word or of at most
    three units) retrieves nothing, whatever is stored. *)
Theorem retrieveRelevantContext_no_keyword (w : World) (query : jsstring) (limit : Z) :
  extractKeywords query = [] →
  (retrieveRelevantContext query limit w).1 = Ok [].
Proof.
  intros Hq. unfold retrieveRelevantContext, tryCatch. cbv zeta.
  rewrite Hq, bind_run.
  destruct (getAllMemoryKeys_run w) as (keys & w1 & -> & _ & _).
  rewrite bind_run.
  destruct (collectMatches [] keys [] w1) as [[l|e] w2] eqn:E; [|done].
  apply collectMatches_no_keywords in E as ->.
  unfold mret, M_ret. cbv beta iota. cbn [JsArray.sort]. by rewrite sliceTo_nil.
Qed.

(** X12. Reading never throws and never writes: [getRecentMessages] and
    [retrieveRelevantContext] return a value and leave the store as it
    is, whatever the store holds and whichever operations are rejected. *)
Theorem readers_return_and_keep_store (w : World) (conversationId query : jsstring)
    (limit : Z) :
  (∃ messages, (getRecentMessages conversationId limit w).1 = Ok messages)
  ∧ store (getRecentMessages conversationId limit w).2 = store w
  ∧ (∃ context, (retrieveRelevantContext query limit w).1 = Ok context)
  ∧ store (retrieveRelevantContext query limit w).2 = store w.
Proof.
  assert (∀ msg : string, keeps store (consoleError msg)) as Hc.
  { intros msg. by apply keeps_consoleError. }
  assert (∀ {A} (msg : string) (a : A),
            returns (consoleError msg ≫= fun _ => mret a)) as Hr.
  { intros A msg a w0. by exists a. }
  split_and!.
  - apply returns_tryCatch. intros e. apply Hr.
  - unfold getRecentMessages, getAllMessages.
    repeat first
      [ apply keeps_ret | apply keeps_gets | apply Hc | apply keeps_asMessages
      | apply keeps_getItem, faultFree_store
      | apply keeps_bind; [|intros ?]
      | apply keeps_tryCatch; [|intros ?]
      | match goal with
        | |- keeps _ (match ?x with _ => _ end) => destruct x
        end ].
  - apply returns_tryCatch. intros e. apply Hr.
  - unfold retrieveRelevantContext, getAllMemoryKeys, getAllKeys. cbv zeta.
    repeat first
      [ apply keeps_ret | apply keeps_gets | apply Hc | apply keeps_collectMatches
      | apply keeps_attempt, faultFree_store
      | apply keeps_bind; [|intros ?]
      | apply keeps_tryCatch; [|intros ?] ].
Qed.

(** *** The key of the index taken by a memory item *)

(** When the key of the index holds a memory item once the item of the
    message is stored (the item of this message, whose id is the
    conversation id behind [index_], or the item of an earlier one),
    [indexMessageForSearch] stores the item, fails to read the index as a
    list, and leaves it at that. *)
Lemma indexMessageForSearch_key_taken (w : World) (conversationId : jsstring)
    (message : Message.t) (item : MemoryItem.t) :
  noFaults w →
  <[memoryKey (Message.id message) := SMemoryItem (memoryItemOf conversationId message)]>
    (store w) !! indexKey conversationId = Some (SMemoryItem item) →
  ∃ w', indexMessageForSearch conversationId message w = (Ok tt, w')
        ∧ store w' = <[memoryKey (Message.id message)
                       := SMemoryItem (memoryItemOf conversationId message)]> (store w).
Proof.
  intros Hn Hidx.
  destruct (noFaults_setItem (memoryKey (Message.id message))
              (SMemoryItem (memoryItemOf conversationId message)) w Hn)
    as (w1 & H1 & Hs1 & _ & Hn1).
  destruct (noFaults_getItem (indexKey conversationId) w1 Hn1)
    as (w2 & H2 & Hs2 & _ & _).
  eexists. split.
  - unfold indexMessageForSearch, tryCatch. fold (memoryItemOf conversationId message).
    cbv zeta. rewrite bind_run, H1. cbv beta iota. rewrite bind_run, H2. cbv beta iota.
    rewrite Hs1, Hidx. rewrite bind_run. cbn [asStrings]. unfold throw. cbv beta iota.
    unfold consoleError. reflexivity.
  - cbn [store with_console]. by rewrite Hs2, Hs1.
Qed.

(** An append of more than ten units in that situation: the item is
    stored and the key of the index holds a memory item, not a list of
    ids; the id of the message is in no index. *)
Lemma saveMessage_index_key_taken (w : World) (conversationId : jsstring)
    (message : Message.t) (old : list Message.t) :
  noFaults w →
  storedMessages w conversationId = Some old →
  (10 < length (trim (Message.content message)))%nat →
  Message.id message = js "index_" ++ conversationId
  ∨ (∃ item, store w !! indexKey conversationId = Some (SMemoryItem item)) →
  ∃ w', saveMessage conversationId message w = (Ok tt, w')
        ∧ store w' = <[memoryKey (Message.id message)
                       := SMemoryItem (memoryItemOf conversationId message)]>
                       (<[conversationKey conversationId := SMessages (old ++ [message])]>
                          (store w))
        ∧ ∃ item, store w' !! indexKey conversationId = Some (SMemoryItem item).
Proof.
  intros Hn Hold Hlong Htaken.
  set (key := conversationKey conversationId).
  destruct (noFaults_getItem key w Hn) as (w1 & Hg & Hs1 & _ & Hn1).
  destruct (noFaults_setItem key (SMessages (old ++ [message])) w1 Hn1)
    as (w2 & Hset & Hs2 & _ & Hn2).
  assert ((match store w !! key with
           | Some v => asMessages v
           | None => mret []
           end) w1 = (Ok old, w1)) as Hread.
  { unfold storedMessages in Hold. fold key in Hold.
    destruct (store w !! key) as [[]|]; by simplify_eq. }
  assert (∃ item,
            <[memoryKey (Message.id message)
              := SMemoryItem (memoryItemOf conversationId message)]> (store w2)
              !! indexKey conversationId = Some (SMemoryItem item)) as [item Hitem].
  { destruct (decide (memoryKey (Message.id message) = indexKey conversationId))
      as [Heq|Hne].
    - eexists. rewrite Heq. apply lookup_insert_eq.
    - destruct Htaken as [Hid|[item Hitem]].
      + exfalso. apply Hne. rewrite Hid. unfold memoryKey, indexKey.
        change (js "memory_index_") with (memoryKeyPrefix ++ js "index_").
        by rewrite <- app_assoc.
      + exists item. rewrite lookup_insert_ne by done. rewrite Hs2, Hs1.
        rewrite lookup_insert_ne by apply conversationKey_indexKey. done. }
  destruct (indexMessageForSearch_key_taken w2 conversationId message item Hn2 Hitem)
    as (w' & Hrun & Hs').
  exists w'. split_and!.
  - unfold saveMessage, tryCatch. cbv zeta. fold key.
    rewrite bind_run, Hg. cbv beta iota. rewrite bind_run, Hread. cbv beta iota.
    rewrite bind_run, Hset. cbv beta iota.
    by rewrite bool_decide_eq_true_2, Hrun by done.
  - by rewrite Hs', Hs2, Hs1.
  - exists item. by rewrite Hs'.
Qed.

(** [clearConversation] in that situation: it removes the log, fails to
    read the index as a list, and returns with every memory key still
    stored, no storage operation being rejected. *)
Lemma clearConversation_index_key_taken (w : World) (conversationId : jsstring)
    (item : MemoryItem.t) :
  noFaults w →
  store w !! indexKey conversationId = Some (SMemoryItem item) →
  ∃ w', clearConversation conversationId w = (Ok tt, w')
        ∧ store w' = delete (conversationKey conversationId) (store w).
Proof.
  intros Hn Hidx.
  destruct (noFaults_removeItem (conversationKey conversationId) w Hn)
    as (w1 & H1 & Hs1 & _ & Hn1).
  destruct (noFaults_getItem (indexKey conversationId) w1 Hn1)
    as (w2 & H2 & Hs2 & _ & _).
  eexists. split.
  - unfold clearConversation, clearMemoryForConversation, tryCatch.
    rewrite bind_run, H1. cbv beta iota. rewrite bind_run, H2, Hs1.
    rewrite lookup_delete_ne by apply conversationKey_indexKey. rewrite Hidx.
    cbv beta iota. rewrite bind_run. cbn [asStrings]. unfold throw. cbv beta iota.
    unfold consoleError. reflexivity.
  - cbn [store with_console]. by rewrite Hs2, Hs1.
Qed.

(** *** One conversation and the others *)

Lemma conversationKey_ne (c other : jsstring) :
  other ≠ c → conversationKey other ≠ conversationKey c.
Proof. intros Hne H. by apply Hne, (app_inv_head conversationKeyPrefix). Qed.

(** X13. Appending to a conversation or clearing it leaves the log of every
    other conversation as it is, whichever storage operations are
    rejected on the way. *)
Theorem conversations_are_separate (w : World) (c other : jsstring)
    (message : Message.t) :
  other ≠ c →
  storedMessages (saveMessage c message w).2 other = storedMessages w other
  ∧ storedMessages (clearConversation c w).2 other = storedMessages w other.
Proof.
  intros Hne%conversationKey_ne.
  assert (keeps (entry (conversationKey other)) (saveMessage c message)) as Hsave.
  { unfold saveMessage. cbv zeta.
    repeat first
      [ apply keeps_ret | apply keeps_throw | apply keeps_asMessages
      | apply index_keeps_log
      | apply keeps_getItem, faultFree_entry
      | apply keeps_setItem; exact Hne
      | apply keeps_consoleError; by intros
      | apply keeps_bind; [|intros ?]
      | apply keeps_tryCatch; [|intros ?]
      | match goal with
        | |- keeps _ (match ?x with _ => _ end) => destruct x
        end ]. }
  assert (keeps (entry (conversationKey other)) (clearConversation c)) as Hclear.
  { unfold clearConversation.
    repeat first
      [ apply keeps_throw | apply clearMemory_keeps_log
      | apply keeps_removeItem; exact Hne
      | apply keeps_consoleError; by intros
      | apply keeps_bind; [|intros ?]
      | apply keeps_tryCatch; [|intros ?] ]. }
  unfold storedMessages. specialize (Hsave w). specialize (Hclear w).
  unfold entry in Hsave, Hclear. by rewrite Hsave, Hclear.
Qed.

(** *** Failures *)

(** X14. An append that fails has changed nothing: whenever [saveMessage]
    throws, it throws its own error, it has printed its message, and the
    store is as it was before the call. *)
Theorem saveMessage_failure_keeps_store (w w' : World) (conversationId : jsstring)
    (message : Message.t) (e : exn) :
  saveMessage conversationId message w = (Throw e, w') →
  e = Error "Failed to save message"
  ∧ store w' = store w
  ∧ console w' = console w ++ ["Failed to save message:"%string].
Proof.
  unfold saveMessage, tryCatch. cbv zeta.
  set (key := conversationKey conversationId).
  match goal with |- context [match ?body w with _ => _ end] =>
    assert (∀ e0 w0, body w = (Throw e0, w0) →
                     store w0 = store w ∧ console w0 = console w) as Hbody
  end.
  { intros e0 w0. rewrite bind_run.
    destruct (getItem_cases key w) as (w1 & Hs1 & Hc1 & _ & [-> | ->]);
      [|intros [= _ <-]; done].
    cbv beta iota. rewrite bind_run.
    assert (∃ r, (match store w !! key with
                  | Some v => asMessages v
                  | None => mret []
                  end) w1 = (r, w1)) as [[old|e1] ->].
    { destruct (store w !! key) as [[]|]; by eexists. }
    2: { intros [= _ <-]. done. }
    cbv beta iota. rewrite bind_run.
    destruct (setItem_cases key (SMessages (old ++ [message])) w1)
      as [(w2 & -> & _) | (w2 & -> & Hs2 & Hc2 & _)].
    - cbv beta iota. case_bool_decide; [|done].
      intros Hthrow. destruct (index_returns conversationId message w2) as [[] Hr].
      rewrite Hthrow in Hr. discriminate Hr.
    - intros [= _ <-]. split; congruence. }
  match goal with |- context [match ?body w with _ => _ end] =>
    destruct (body w) as [[[]|e0] w0] eqn:E
  end; [done|].
  destruct (Hbody e0 w0 eq_refl) as [Hs Hc].
  rewrite bind_run. unfold consoleError, throw. intros [= <- <-].
  cbn [store console with_console]. by rewrite Hs, Hc.
Qed.

Lemma removeItem_cases (key : jsstring) (w : World) :
  (∃ w', removeItem key w = (Ok tt, w') ∧ store w' = delete key (store w)
         ∧ head (faults w) ≠ Some true)
  ∨ (∃ w', removeItem key w = (Throw StorageError, w') ∧ store w' = store w
           ∧ console w' = console w ∧ head (faults w) = Some true).
Proof.
  destruct (attempt_cases w) as (w' & Hs & Hc & Hp & [[Ha Hh]|[Ha Hh]]);
    unfold removeItem; rewrite bind_run, Ha.
  - left. eexists. split; [reflexivity|].
    cbn [store with_store]. by rewrite Hs.
  - right. by exists w'.
Qed.

(** X15. [clearConversation] fails exactly when the removal of the log is
    rejected, and then nothing is removed; once the log is removed, the
    call returns, whatever goes wrong while the memory is cleared. *)
Theorem clearConversation_outcome (w : World) (conversationId : jsstring) :
  let outcome := clearConversation conversationId w in
  match head (faults w) with
  | Some true =>
    outcome.1 = Throw (Error "Failed to clear conversation")
    ∧ store outcome.2 = store w
  | _ =>
    outcome.1 = Ok tt
    ∧ store outcome.2 !! conversationKey conversationId = None
  end.
Proof.
  cbv zeta. unfold clearConversation, tryCatch. rewrite bind_run.
  destruct (removeItem_cases (conversationKey conversationId) w)
    as [(w1 & -> & Hs & Hh) | (w1 & -> & Hs & _ & ->)].
  - cbv beta iota.
    assert (returns (clearMemoryForConversation conversationId)) as Hr.
    { apply returns_tryCatch. intros e. apply returns_consoleError. }
    destruct (Hr w1) as [[] Hok].
    pose proof (clearMemory_keeps_log conversationId conversationId w1) as Hk.
    unfold entry in Hk.
    destruct (clearMemoryForConversation conversationId w1) as [r w2].
    cbn [fst snd] in Hok, Hk. subst r. cbn [fst snd].
    assert (store w2 !! conversationKey conversationId = None) as Hlog
      by by rewrite Hk, Hs, lookup_delete_eq.
    by destruct (head (faults w)) as [[]|].
  - cbn [head]. cbv beta iota. rewrite bind_run. unfold consoleError, throw.
    cbn [fst snd store with_console]. done.
Qed.

End Memory.

(** *** The memory engine on Latin and Russian text *)

Section MemoryExamples.

Import AsyncStorage MemoryEngine.

(** The store after the first question went through [saveMessage]. *)
Lemma retrieveRelevantContext_blind_witness :
  let w := (saveMessage (U := basicUnicode) (js "c1") firstQuestion emptyWorld).2 in
  store w !! indexKey (js "c1") = Some (SStrings [Message.id firstQuestion])
  ∧ (retrieveRelevantContext (U := basicUnicode) (L := someListing)
       (Message.content firstQuestion) 3 w).1 = Ok [].
Proof.
  intros w.
  assert (store w !! indexKey (js "c1") = Some (SStrings [Message.id firstQuestion]))
    as H by (vm_compute; reflexivity).
  split; [exact H|].
  exact (retrieveRelevantContext_blind (U := basicUnicode) (L := someListing)
           w (js "c1") _ (Message.content firstQuestion) 3 H).
Defined.

Lemma retrieveRelevantContext_after_saveMessage_witness :
  (saveMessage (U := basicUnicode) (js "c1") firstQuestion emptyWorld).1 = Ok tt
  ∧ (retrieveRelevantContext (U := basicUnicode) (L := someListing)
       (js "How do I start?") 3
       (saveMessage (U := basicUnicode) (js "c1") firstQuestion emptyWorld).2).1
    = Ok [].
Proof.
  apply (retrieveRelevantContext_after_saveMessage (U := basicUnicode) (L := someListing)
           emptyWorld (js "c1") firstQuestion [] []).
  - constructor.
  - reflexivity.
  - reflexivity.
  - vm_compute. discriminate.
  - vm_compute. lia.
Defined.

(** A store with a memory item and no index: the write of the index was
    rejected. *)
Lemma retrieveRelevantContext_no_keyword_witness :
  let w := (saveMessage (U := basicUnicode) (js "c1") firstQuestion
              (with_faults [false; false; false; false; true] emptyWorld)).2 in
  extractKeywords (U := basicUnicode) (js "How are you?") = []
  ∧ (retrieveRelevantContext (U := basicUnicode) (L := someListing)
       (js "How are you?") 3 w).1 = Ok [].
Proof.
  intros w.
  assert (extractKeywords (U := basicUnicode) (js "How are you?") = []) as H
    by (vm_compute; reflexivity).
  split; [exact H|].
  exact (retrieveRelevantContext_no_keyword (U := basicUnicode) (L := someListing)
           w (js "How are you?") 3 H).
Defined.

(** In that store retrieval does find the memory: the query shares the
    keyword [plan] with it. *)
Example retrieveRelevantContext_finds :
  let w := (saveMessage (U := basicUnicode) (js "c1") firstQuestion
              (with_faults [false; false; false; false; true] emptyWorld)).2 in
  store w !! indexKey (js "c1") = None
  ∧ (retrieveRelevantContext (U := basicUnicode) (L := someListing)
       (js "What about my plan?") 3 w).1 = Ok (js "- How do I start my plan?").
Proof. vm_compute. split; reflexivity. Qed.

Lemma conversations_are_separate_witness :
  let w := (saveMessage (U := basicUnicode) (js "c2") systemNote emptyWorld).2 in
  js "c2" ≠ js "c1"
  ∧ storedMessages (saveMessage (U := basicUnicode) (js "c1") firstQuestion w).2 (js "c2")
    = storedMessages w (js "c2")
  ∧ storedMessages (clearConversation (js "c1") w).2 (js "c2")
    = storedMessages w (js "c2").
Proof.
  intros w.
  assert (js "c2" ≠ js "c1") as H by (vm_compute; discriminate).
  split; [exact H|].
  exact (conversations_are_separate (U := basicUnicode) w (js "c1") (js "c2")
           firstQuestion H).
Defined.

Lemma saveMessage_failure_keeps_store_witness :
  let w := with_faults [false; true] emptyWorld in
  match saveMessage (U := basicUnicode) (js "c1") firstQuestion w with
  | (Throw e, w') =>
    e = Error "Failed to save message"
    ∧ store w' = store w
    ∧ console w' = console w ++ ["Failed to save message:"%string]
  | _ => False
  end.
Proof.
  intros w.
  destruct (saveMessage (U := basicUnicode) (js "c1") firstQuestion w)
    as [[[]|e] w'] eqn:E.
  - vm_compute in E. discriminate E.
  - exact (saveMessage_failure_keeps_store (U := basicUnicode) w w' (js "c1")
             firstQuestion e E).
Defined.

(** A message whose id is the conversation id behind [index_] puts its
    memory item under the key of the memory index. From then on the index
    is not a list of ids: a later append stores its item and leaves the
    key as it is, and [clearConversation] returns with the key and the
    item of the later message still stored, no storage operation being
    rejected. *)
Example index_key_taken :
  let taking :=
    {| Message.id := js "index_c1"; Message.role := user;
       Message.content := js "Please remember my plan.";
       Message.timestamp := js "2025-03-09T10:14:00.000Z" |} in
  let w1 := (saveMessage (U := basicUnicode) (js "c1") taking emptyWorld).2 in
  let w2 := (saveMessage (U := basicUnicode) (js "c1") firstQuestion w1).2 in
  let w3 := (clearConversation (js "c1") w2).2 in
  (memoryKey (Message.id taking) = indexKey (js "c1")
   ∧ store w1 !! indexKey (js "c1")
     = Some (SMemoryItem (memoryItemOf (U := basicUnicode) (js "c1") taking))
   ∧ storedIndex w1 (js "c1") = None)
  ∧ ((saveMessage (U := basicUnicode) (js "c1") firstQuestion w1).1 = Ok tt
     ∧ store w2 !! memoryKey (Message.id firstQuestion)
       = Some (SMemoryItem (memoryItemOf (U := basicUnicode) (js "c1") firstQuestion))
     ∧ store w2 !! indexKey (js "c1") = store w1 !! indexKey (js "c1")
     ∧ faults w2 = [])
  ∧ ((clearConversation (js "c1") w2).1 = Ok tt
     ∧ store w3 !! conversationKey (js "c1") = None
     ∧ store w3 !! indexKey (js "c1") = store w1 !! indexKey (js "c1")
     ∧ store w3 !! memoryKey (Message.id firstQuestion)
       = store w2 !! memoryKey (Message.id firstQuestion)
     ∧ console w3 = [ "Failed to index message for search:"%string;
                      "Failed to index message for search:"%string;
                      "Failed to clear memory for conversation:"%string ]).
Proof. cbv zeta. split_and!; vm_compute; reflexivity. Qed.

Lemma getRecentMessages_positive_witness :
  let w := (saveMessage (U := basicUnicode) (js "c1") systemNote
              (saveMessage (U := basicUnicode) (js "c1") firstQuestion emptyWorld).2).2 in
  noFaults w
  ∧ storedMessages w (js "c1") = Some [firstQuestion; systemNote]
  ∧ (1 ≤ 1)%Z
  ∧ (getRecentMessages (js "c1") 1 w).1 = Ok [systemNote].
Proof.
  intros w.
  assert (noFaults w) as Hn by (vm_compute; constructor).
  assert (storedMessages w (js "c1") = Some [firstQuestion; systemNote]) as Hm
    by (vm_compute; reflexivity).
  assert (1 ≤ 1)%Z as Hl by lia.
  split_and!; [exact Hn | exact Hm | exact Hl |].
  exact (getRecentMessages_positive w (js "c1") 1 [firstQuestion; systemNote] Hn Hm Hl).
Defined.

End MemoryExamples.

(** ** Personality engine: the map, the store and a new singleton *)

Section Personas.

Import AsyncStorage PersonalityEngine.

(** *** The map *)

Lemma get_set_eq {V} (k : jsstring) (v : V) (m : list (jsstring * V)) :
  JsMap.get k (JsMap.set k v m) = Some v.
Proof.
  induction m as [|[k' v'] m IH]; cbn [JsMap.set JsMap.get]; unfold JsString.eqb.
  - by rewrite bool_decide_eq_true_2.
  - case_bool_decide as Hk; cbn [JsMap.get]; unfold JsString.eqb.
    + by rewrite bool_decide_eq_true_2.
    + by rewrite bool_decide_eq_false_2.
Qed.

Lemma get_set_ne {V} (k k' : jsstring) (v : V) (m : list (jsstring * V)) :
  k ≠ k' → JsMap.get k (JsMap.set k' v m) = JsMap.get k m.
Proof.
  intros Hne. induction m as [|[k'' v''] m IH]; cbn [JsMap.set JsMap.get];
    unfold JsString.eqb.
  - by rewrite bool_decide_eq_false_2.
  - case_bool_decide as Hk; cbn [JsMap.get]; unfold JsString.eqb.
    + subst k''. by rewrite !bool_decide_eq_false_2.
    + case_bool_decide; [done | apply IH].
Qed.

(** [set] keeps the keys in place and puts a new key last. *)
Lemma keys_set {V} (k : jsstring) (v : V) (m : list (jsstring * V)) :
  map fst (JsMap.set k v m)
  = if decide (k ∈ map fst m) then map fst m else map fst m ++ [k].
Proof.
  induction m as [|[k' v'] m IH]; cbn [JsMap.set map fst].
  - rewrite decide_False; [done | apply not_elem_of_nil].
  - unfold JsString.eqb. case_bool_decide as Hk.
    + subst k'. rewrite decide_True; [done | by left].
    + cbn [map fst]. rewrite IH. destruct (decide (k ∈ map fst m)) as [Hin|Hout].
      * rewrite decide_True; [done | by right].
      * rewrite decide_False; [done|]. by intros [?|?]%elem_of_cons.
Qed.

Lemma elem_of_set {V} (k : jsstring) (v : V) (m : list (jsstring * V))
    (e : jsstring * V) :
  e ∈ JsMap.set k v m → e = (k, v) ∨ e ∈ m.
Proof.
  induction m as [|[k' v'] m IH]; cbn [JsMap.set].
  - intros [->|H]%elem_of_cons; [by left | by apply elem_of_nil in H].
  - destruct (JsString.eqb k k').
    + intros [->|H]%elem_of_cons; [by left | right; by right].
    + intros [->|H]%elem_of_cons; [right; by left|].
      destruct (IH H) as [->|?]; [by left | right; by right].
Qed.

Lemma elem_of_set_new {V} (k : jsstring) (v : V) (m : list (jsstring * V)) :
  (k, v) ∈ JsMap.set k v m.
Proof.
  induction m as [|[k' v'] m IH]; cbn [JsMap.set]; [by left|].
  destruct (JsString.eqb k k'); [by left | by right].
Qed.

Lemma elem_of_delete {V} (k : jsstring) (m : list (jsstring * V))
    (e : jsstring * V) :
  e ∈ JsMap.delete k m → e ∈ m.
Proof.
  induction m as [|[k' v'] m IH]; cbn [JsMap.delete]; [done|].
  destruct (JsString.eqb k k'); [by right|].
  intros [->|H]%elem_of_cons; [by left | right; by apply IH].
Qed.

Lemma keys_delete {V} (k : jsstring) (m : list (jsstring * V)) :
  NoDup (map fst m) → NoDup (map fst (JsMap.delete k m)).
Proof.
  induction m as [|[k' v'] m IH]; cbn [JsMap.delete map fst]; [done|].
  intros [Hk' Hnd]%NoDup_cons. destruct (JsString.eqb k k'); [done|].
  cbn [map fst]. apply NoDup_cons. split; [|by apply IH].
  intros Hin. apply Hk'. apply list_elem_of_fmap in Hin as (e & -> & He).
  apply list_elem_of_fmap. exists e. split; [done | by apply elem_of_delete in He].
Qed.

Lemma keyed_nil : keyed [].
Proof. split; constructor. Qed.

Lemma keyed_set (persona : PersonaProfile.t) (m : list (jsstring * PersonaProfile.t)) :
  keyed m → keyed (JsMap.set (PersonaProfile.id persona) persona m).
Proof.
  intros [Hnd Hid]. split.
  - rewrite keys_set. destruct (decide _); [done|].
    apply NoDup_app. split_and!; [done | | apply NoDup_singleton].
    intros k Hk [->|H]%elem_of_cons; [done | by apply elem_of_nil in H].
  - apply Forall_forall. intros e [->|He]%elem_of_set; [done|].
    rewrite Forall_forall in Hid. by apply Hid.
Qed.

Lemma keyed_delete (k : jsstring) (m : list (jsstring * PersonaProfile.t)) :
  keyed m → keyed (JsMap.delete k m).
Proof.
  intros [Hnd Hid]. split; [by apply keys_delete|].
  apply Forall_forall. intros e He%elem_of_delete.
  rewrite Forall_forall in Hid. by apply Hid.
Qed.

(** *** What the methods keep *)

Lemma keeps_modify {B} (proj : World → B) (f : World → World) :
  (∀ w, proj (f w) = proj w) → keeps proj (modify f).
Proof. intros H w. apply H. Qed.

Lemma maintains_ret {A} (P : World → Prop) (a : A) : maintains P (mret a : M A).
Proof. by intros w. Qed.

Lemma maintains_throw {A} (P : World → Prop) (e : exn) : maintains P (throw e : M A).
Proof. by intros w. Qed.

Lemma maintains_gets {A} (P : World → Prop) (f : World → A) : maintains P (gets f).
Proof. by intros w. Qed.

Lemma maintains_personas {A} (Q : list (jsstring * PersonaProfile.t) → Prop) (m : M A) :
  keeps personas m → maintains (fun w => Q (personas w)) m.
Proof. intros Hk w Hw. by rewrite Hk. Qed.

Lemma maintains_faults {A} (m : M A) : keeps faults m → maintains noFaults m.
Proof. intros Hk w Hw. unfold noFaults. by rewrite Hk. Qed.

Lemma maintains_noFaults_attempt : maintains noFaults attempt.
Proof.
  intros w Hw. destruct (noFaults_attempt w Hw) as (w' & -> & _ & _ & Hn). done.
Qed.

Lemma maintains_noFaults_getItem (key : jsstring) : maintains noFaults (getItem key).
Proof.
  intros w Hw. destruct (noFaults_getItem key w Hw) as (w' & -> & _ & _ & Hn). done.
Qed.

Lemma maintains_noFaults_setItem (key : jsstring) (v : stored) :
  maintains noFaults (setItem key v).
Proof.
  intros w Hw. destruct (noFaults_setItem key v w Hw) as (w' & -> & _ & _ & Hn). done.
Qed.

Lemma keeps_setPersona {B} (proj : World → B) (persona : PersonaProfile.t) :
  (∀ p w, proj (with_personas p w) = proj w) → keeps proj (setPersona persona).
Proof. intros H. apply keeps_modify. intros w. apply H. Qed.

(** The methods reach the map through [setPersona]: a property of the map
    that [set] under the own id keeps, is kept while the personas load. *)
Section Loading.

Variable Q : list (jsstring * PersonaProfile.t) → Prop.
Hypothesis Q_set : ∀ persona m, Q m → Q (JsMap.set (PersonaProfile.id persona) persona m).

Lemma maintains_setPersona (persona : PersonaProfile.t) :
  maintains (fun w => Q (personas w)) (setPersona persona).
Proof. intros w Hw. by apply Q_set. Qed.

Lemma maintains_loadCustomPersonas :
  maintains (fun w => Q (personas w)) loadCustomPersonas.
Proof.
  unfold loadCustomPersonas. apply maintains_tryCatch.
  - apply maintains_bind.
    + apply maintains_personas, keeps_getItem, faultFree_personas.
    + intros [v|]; [|apply maintains_ret]. apply maintains_bind.
      * apply maintains_personas, keeps_asPersonas.
      * intros l. apply maintains_forEach, maintains_setPersona.
  - intros e. apply maintains_personas, keeps_consoleError. by intros.
Qed.

Lemma maintains_initPersonas : maintains (fun w => Q (personas w)) initPersonas.
Proof.
  unfold initPersonas, loadBuiltInPersonas. apply maintains_tryCatch.
  - repeat (apply maintains_bind; [|intros ?]);
      apply maintains_setPersona || apply maintains_loadCustomPersonas.
  - intros e. apply maintains_personas, keeps_consoleError. by intros.
Qed.

Lemma maintains_ensureLoaded : maintains (fun w => Q (personas w)) ensureLoaded.
Proof.
  unfold ensureLoaded. apply maintains_bind; [apply maintains_gets|].
  intros size. case_bool_decide; [apply maintains_initPersonas | apply maintains_ret].
Qed.

End Loading.



Lemma maintains_noFaults_ensureLoaded : maintains noFaults ensureLoaded.
Proof.
  unfold ensureLoaded, initPersonas, loadBuiltInPersonas, loadCustomPersonas.
  repeat first
    [ apply maintains_ret | apply maintains_gets
    | apply maintains_noFaults_getItem
    | apply maintains_faults, keeps_asPersonas
    | apply maintains_faults, keeps_setPersona; done
    | apply maintains_faults, keeps_consoleError; done
    | apply maintains_bind; [|intros ?]
    | apply maintains_tryCatch; [|intros ?]
    | apply maintains_forEach; intros ?
    | match goal with
      | |- maintains _ (match ?x with _ => _ end) => destruct x
      | |- maintains _ (if ?x then _ else _) => destruct x
      end ].
Qed.

(** *** Saving and reading back *)

Lemma savePersona_eq (now : N) (persona : PersonaProfile.t) :
  savePersona now persona
  = tryCatch
      (ensureLoaded;; (setPersona (asSaved now persona);; saveCustomPersonas))
      (fun _ => consoleError "Failed to save persona:";;
                throw (Error "Failed to save persona")).
Proof. reflexivity. Qed.

Lemma duplicatePersona_eq (now : N) (basePersonaId newName : jsstring) :
  duplicatePersona now basePersonaId newName
  = tryCatch
      (ensureLoaded;;
       basePersona ← getPersona basePersonaId;
       match basePersona with
       | None => throw (Error "Base persona not found")
       | Some base =>
         savePersona now (copyOf now newName base);; mret (copyOf now newName base)
       end)
      (fun _ => consoleError "Failed to duplicate persona:";;
                throw (Error "Failed to duplicate persona")).
Proof. reflexivity. Qed.

Lemma saveCustomPersonas_run (w : World) :
  noFaults w →
  ∃ w', saveCustomPersonas w = (Ok tt, w')
        ∧ store w' = <[personasKey := SPersonas (customPersonas w)]> (store w)
        ∧ personas w' = personas w ∧ noFaults w'.
Proof.
  intros Hn. unfold saveCustomPersonas, tryCatch. rewrite bind_run.
  unfold gets. cbv beta iota. fold (customPersonas w).
  destruct (noFaults_setItem personasKey (SPersonas (customPersonas w)) w Hn)
    as (w' & -> & Hs & Hp & Hn').
  by exists w'.
Qed.

Lemma save_run (persona : PersonaProfile.t) (w : World) :
  noFaults w →
  ∃ w', (setPersona persona;; saveCustomPersonas) w = (Ok tt, w')
        ∧ personas w' = JsMap.set (PersonaProfile.id persona) persona (personas w)
        ∧ store w' = <[personasKey := SPersonas (customPersonas w')]> (store w)
        ∧ noFaults w'.
Proof.
  intros Hn. rewrite bind_run. unfold setPersona, modify. cbv beta iota.
  set (w1 := with_personas _ w).
  destruct (saveCustomPersonas_run w1) as (w' & -> & Hs & Hp & Hn'); [done|].
  exists w'. split_and!; [done | by rewrite Hp | | done].
  rewrite Hs. unfold customPersonas. by rewrite Hp.
Qed.


Lemma getPersona_loaded (personaId : jsstring) (w : World) :
  loaded w →
  getPersona personaId w
  = (Ok (match JsMap.get personaId (personas w) with
         | Some p => Some p
         | None =>
           match JsMap.get (js "commander") (personas w) with
           | Some p => Some p
           | None => head (JsMap.values (personas w))
           end
         end), w).
Proof.
  intros Hl. destruct (ensureLoaded_run w) as (w1 & Hrun & _ & Hsame).
  rewrite (Hsame Hl) in Hrun.
  unfold getPersona. rewrite bind_run, Hrun. cbv beta iota.
  rewrite bind_run. unfold gets. cbv beta iota.
  by destruct (JsMap.get personaId (personas w)).
Qed.

Lemma asSaved_custom (now : N) (persona : PersonaProfile.t) :
  PersonaProfile.isCustom (asSaved now persona) = Some true.
Proof. unfold asSaved. cbv zeta. by destruct (PersonaProfile.id _). Qed.

Lemma elem_of_customPersonas (w : World) (persona : PersonaProfile.t) :
  persona ∈ customPersonas w
  ↔ PersonaProfile.isCustom persona = Some true
    ∧ ∃ k, (k, persona) ∈ personas w.
Proof.
  unfold customPersonas, JsMap.values. rewrite list_elem_of_filter, list_elem_of_fmap.
  split.
  - intros [Hc ([k p] & -> & Hin)]. split; [|by exists k].
    cbn [snd] in *. by destruct (PersonaProfile.isCustom p) as [[]|].
  - intros [Hc [k Hin]]. split; [by rewrite Hc|]. by exists (k, persona).
Qed.



(** *** A new singleton over the same store *)

Lemma forEach_setPersona_run (l : list PersonaProfile.t) (w : World) :
  ∃ w', forEach setPersona l w = (Ok tt, w')
        ∧ personas w'
          = foldl (fun m p => JsMap.set (PersonaProfile.id p) p m) (personas w) l
        ∧ store w' = store w.
Proof.
  revert w. induction l as [|p l IH]; intros w; cbn [forEach foldl].
  - by exists w.
  - rewrite bind_run. unfold setPersona at 1, modify. cbv beta iota.
    destruct (IH (with_personas (JsMap.set (PersonaProfile.id p) p (personas w)) w))
      as (w' & -> & Hp & Hs).
    by exists w'.
Qed.

Lemma get_foldl_set_other (k : jsstring) (l : list PersonaProfile.t)
    (m : list (jsstring * PersonaProfile.t)) :
  k ∉ map PersonaProfile.id l →
  JsMap.get k (foldl (fun m p => JsMap.set (PersonaProfile.id p) p m) m l)
  = JsMap.get k m.
Proof.
  revert m. induction l as [|p l IH]; intros m Hk; cbn [foldl]; [done|].
  cbn [map] in Hk. apply not_elem_of_cons in Hk as [Hne Hk].
  rewrite IH by done. by apply get_set_ne.
Qed.

Lemma get_foldl_set (persona : PersonaProfile.t) (l : list PersonaProfile.t)
    (m : list (jsstring * PersonaProfile.t)) :
  NoDup (map PersonaProfile.id l) → persona ∈ l →
  JsMap.get (PersonaProfile.id persona)
    (foldl (fun m p => JsMap.set (PersonaProfile.id p) p m) m l)
  = Some persona.
Proof.
  revert m. induction l as [|p l IH]; intros m Hnd Hin; cbn [foldl].
  { by apply elem_of_nil in Hin. }
  cbn [map] in Hnd. apply NoDup_cons in Hnd as [Hp Hnd].
  apply elem_of_cons in Hin as [->|Hl]; [|by apply IH].
  rewrite get_foldl_set_other by done. apply get_set_eq.
Qed.

Lemma keyed_ids (m : list (jsstring * PersonaProfile.t)) :
  keyed m → map PersonaProfile.id (JsMap.values m) = map fst m.
Proof.
  intros [_ Hid]. unfold JsMap.values.
  induction Hid as [|[k p] m Hk _ IH]; cbn [map fst snd]; [done|].
  cbn [fst snd] in Hk. by rewrite IH, Hk.
Qed.

Lemma keyed_customPersonas (w : World) :
  keyed (personas w) → NoDup (map PersonaProfile.id (customPersonas w)).
Proof.
  intros Hk. eapply sublist_NoDup; [|apply fmap_sublist, sublist_filter].
  change (NoDup (map PersonaProfile.id (JsMap.values (personas w)))).
  rewrite keyed_ids by done. apply Hk.
Qed.

Lemma keeps_loadBuiltInPersonas {B} (proj : World → B) :
  (∀ p w, proj (with_personas p w) = proj w) → keeps proj loadBuiltInPersonas.
Proof.
  intros H. unfold loadBuiltInPersonas.
  repeat (apply keeps_bind; [|intros ?]); by apply keeps_setPersona.
Qed.

Lemma constructed_personas (w : World) :
  personas (constructed w) = map (fun p => (PersonaProfile.id p, p)) builtIns
  ∧ store (constructed w) = store w
  ∧ faults (constructed w) = faults w.
Proof.
  unfold constructed. split_and!.
  - unfold loadBuiltInPersonas. rewrite !bind_run. unfold setPersona, modify.
    cbv beta iota. cbn [snd personas with_personas]. vm_compute. reflexivity.
  - exact (keeps_loadBuiltInPersonas store (fun _ _ => eq_refl) (with_personas [] w)).
  - exact (keeps_loadBuiltInPersonas faults (fun _ _ => eq_refl) (with_personas [] w)).
Qed.

Lemma get_values {V} (k : jsstring) (v : V) (m : list (jsstring * V)) :
  JsMap.get k m = Some v → v ∈ JsMap.values m.
Proof.
  unfold JsMap.values. induction m as [|[k' v'] m IH]; cbn [JsMap.get map snd]; [done|].
  destruct (JsString.eqb k k'); [intros [= ->]; by left | intros H; right; by apply IH].
Qed.

(** At the moment the constructor returns, [getPersona] answers with a
    built-in persona, whatever the id and the store. *)
Lemma getPersona_constructed (w : World) (personaId : jsstring) :
  ∃ builtIn, (getPersona personaId (constructed w)).1 = Ok (Some builtIn)
             ∧ builtIn ∈ builtIns.
Proof.
  destruct (constructed_personas w) as (Hp & _ & _).
  rewrite getPersona_loaded by (unfold loaded; by rewrite Hp).
  rewrite Hp.
  set (m := map (fun p => (PersonaProfile.id p, p)) builtIns).
  assert (JsMap.values m = builtIns) as Hvalues by reflexivity.
  assert (JsMap.get (js "commander") m = Some commander) as Hc
    by (vm_compute; reflexivity).
  destruct (JsMap.get personaId m) as [p|] eqn:E.
  - exists p. split; [done|]. apply get_values in E. by rewrite Hvalues in E.
  - rewrite Hc. exists commander. split; [done|]. unfold builtIns. right. left.
Qed.

(** Once the load has settled over a store that holds custom personas,
    every one of them is filed under its id. *)
Lemma settled_restores (w : World) (l : list PersonaProfile.t)
    (persona : PersonaProfile.t) :
  noFaults w → store w !! personasKey = Some (SPersonas l) →
  NoDup (map PersonaProfile.id l) → persona ∈ l →
  JsMap.get (PersonaProfile.id persona) (personas (settled w)) = Some persona
  ∧ loaded (settled w).
Proof.
  intros Hn Hs Hnd Hin. unfold settled.
  destruct (constructed_personas w) as (Hp1 & Hs1 & Hf1).
  set (w1 := constructed w) in *.
  assert (noFaults w1) as Hn1 by (unfold noFaults; by rewrite Hf1).
  assert (loaded w1) as Hl1 by (unfold loaded; by rewrite Hp1).
  split; [|by apply loadCustomPersonas_maintains].
  unfold loadCustomPersonas, tryCatch. rewrite bind_run.
  destruct (noFaults_getItem personasKey w1 Hn1) as (w2 & -> & Hs2 & Hp2 & _).
  cbv beta iota. rewrite Hs1, Hs.
  rewrite bind_run. cbn [asPersonas]. unfold mret at 1, M_ret at 1. cbv beta iota.
  destruct (forEach_setPersona_run l w2) as (w3 & -> & Hp3 & _).
  cbn [snd]. rewrite Hp3. by apply get_foldl_set.
Qed.

(** X19. A saved persona survives a restart, once it is loaded again.
    While storage works, every profile of the map being filed under its
    own id and the temperature of the profile being a number that JSON
    keeps (finite, not the negative zero), [savePersona] returns, and a
    new singleton over the store it leaves answers [getPersona] under
    the id of the saved profile
    - with one of the built-in personas at the moment its constructor
      returns ([initPersonas] is not awaited there), and
    - with the saved profile once that call of [initPersonas] has
      settled, no other method having run in between.
    The store keeps the value that the JSON text denotes; for a profile
    with such a temperature that is the value saved. *)
Theorem savePersona_survives_restart (w : World) (now : N)
    (persona : PersonaProfile.t) :
  noFaults w → keyed (personas w) →
  jsonNumber (PersonaProfile.temperature persona) = true →
  ∃ w', savePersona now persona w = (Ok tt, w')
        ∧ (∃ builtIn,
             (getPersona (PersonaProfile.id (asSaved now persona)) (constructed w')).1
             = Ok (Some builtIn)
             ∧ builtIn ∈ builtIns)
        ∧ (getPersona (PersonaProfile.id (asSaved now persona)) (settled w')).1
          = Ok (Some (asSaved now persona)).
Proof.
  intros Hn Hk _. destruct (ensureLoaded_run w) as (w1 & Hrun & _ & _).
  pose proof (maintains_noFaults_ensureLoaded w Hn) as Hn1.
  pose proof (maintains_ensureLoaded keyed keyed_set w Hk) as Hk1.
  rewrite Hrun in Hn1, Hk1. cbn [snd] in Hn1, Hk1.
  destruct (save_run (asSaved now persona) w1 Hn1) as (w' & Hsave & Hp & Hs & Hn').
  exists w'. split_and!.
  { rewrite savePersona_eq. unfold tryCatch. by rewrite bind_run, Hrun, Hsave. }
  { apply getPersona_constructed. }
  destruct (settled_restores w' (customPersonas w') (asSaved now persona))
    as [Hget Hl]; try done.
  - by rewrite Hs, lookup_insert_eq.
  - apply keyed_customPersonas. rewrite Hp. by apply keyed_set.
  - apply elem_of_customPersonas. split; [apply asSaved_custom|].
    exists (PersonaProfile.id (asSaved now persona)). rewrite Hp.
    apply elem_of_set_new.
  - rewrite getPersona_loaded by done. by rewrite Hget.
Qed.

(** *** Copies *)




(** *** The invariant of the map *)

Lemma keeps_saveCustomPersonas : keeps personas saveCustomPersonas.
Proof.
  unfold saveCustomPersonas.
  repeat first
    [ apply keeps_gets | apply keeps_throw
    | apply keeps_setItem_free; [apply faultFree_personas | apply storeFree_personas]
    | apply keeps_consoleError; by intros
    | apply keeps_bind; [|intros ?]
    | apply keeps_tryCatch; [|intros ?] ].
Qed.

Lemma keeps_scoreEntries (userProfileData : option UserProfileData.t)
    (entries : list (jsstring * PersonaProfile.t))
    (recommendations : list Recommendation.t) :
  keeps personas (scoreEntries userProfileData entries recommendations).
Proof.
  revert recommendations. induction entries as [|[id persona] entries IH];
    intros recommendations; cbn [scoreEntries]; [apply keeps_ret|].
  destruct userProfileData; [apply IH | apply keeps_throw].
Qed.

Ltac keeping :=
  repeat first
    [ apply maintains_ret | apply maintains_throw | apply maintains_gets
    | apply (maintains_ensureLoaded keyed keyed_set)
    | apply (maintains_setPersona keyed keyed_set)
    | apply maintains_personas, keeps_saveCustomPersonas
    | apply maintains_personas, keeps_scoreEntries
    | apply maintains_personas, keeps_consoleError; by intros
    | apply maintains_bind; [|intros ?]
    | apply maintains_tryCatch; [|intros ?]
    | match goal with
      | |- maintains _ (match ?x with _ => _ end) => destruct x
      | |- maintains _ (if ?x then _ else _) => destruct x
      | |- maintains _ (modify _) => intros ? ?; by apply keyed_delete
      end ].

Lemma keyed_savePersona (now : N) (persona : PersonaProfile.t) :
  maintains (fun w => keyed (personas w)) (savePersona now persona).
Proof. rewrite savePersona_eq. keeping. Qed.

Lemma keyed_getPersona (personaId : jsstring) :
  maintains (fun w => keyed (personas w)) (getPersona personaId).
Proof. unfold getPersona. keeping. Qed.

(** X21. Every public method keeps the map in order: each profile filed under
    its own id, whatever the store holds and whichever storage operations
    are rejected. *)
Theorem personas_stay_keyed (w : World) (now : N) (persona : PersonaProfile.t)
    (personaId newName : jsstring) (userProfileData : option UserProfileData.t) :
  keyed (personas w) →
  keyed (personas (getAllPersonas w).2)
  ∧ keyed (personas (getPersona personaId w).2)
  ∧ keyed (personas (savePersona now persona w).2)
  ∧ keyed (personas (deletePersona personaId w).2)
  ∧ keyed (personas (duplicatePersona now personaId newName w).2)
  ∧ keyed (personas (getRecommendedPersonas userProfileData w).2).
Proof.
  intros Hk. split_and!.
  - revert w Hk. change (maintains (fun w => keyed (personas w)) getAllPersonas).
    unfold getAllPersonas. keeping.
  - by apply keyed_getPersona.
  - by apply keyed_savePersona.
  - revert w Hk.
    change (maintains (fun w => keyed (personas w)) (deletePersona personaId)).
    unfold deletePersona. keeping.
  - revert w Hk.
    change (maintains (fun w => keyed (personas w))
              (duplicatePersona now personaId newName)).
    rewrite duplicatePersona_eq.
    repeat first
      [ apply keyed_getPersona | apply keyed_savePersona | keeping ].
  - revert w Hk.
    change (maintains (fun w => keyed (personas w))
              (getRecommendedPersonas userProfileData)).
    unfold getRecommendedPersonas. keeping.
Qed.

(** *** The built-in personas *)

Lemma keys_prefix_set (persona : PersonaProfile.t)
    (m : list (jsstring * PersonaProfile.t)) :
  (∃ rest, map fst m = builtInIds ++ rest) →
  ∃ rest, map fst (JsMap.set (PersonaProfile.id persona) persona m)
          = builtInIds ++ rest.
Proof.
  intros [rest H]. rewrite keys_set. destruct (decide _); [by exists rest|].
  exists (rest ++ [PersonaProfile.id persona]). by rewrite H, app_assoc.
Qed.

Lemma loadBuiltInPersonas_fresh (w : World) :
  personas w = [] →
  ∃ w', loadBuiltInPersonas w = (Ok tt, w')
        ∧ map fst (personas w') = builtInIds ∧ keyed (personas w').
Proof.
  intros Hw. destruct (loadBuiltInPersonas_run w) as (w' & Hrun & _).
  exists w'. split_and!; [done | |].
  - replace w' with (loadBuiltInPersonas w).2 by by rewrite Hrun.
    unfold loadBuiltInPersonas. rewrite !bind_run. unfold setPersona, modify.
    cbv beta iota. cbn [snd personas with_personas]. rewrite Hw.
    vm_compute. reflexivity.
  - replace w' with (loadBuiltInPersonas w).2 by by rewrite Hrun.
    assert (maintains (fun w => keyed (personas w)) loadBuiltInPersonas) as Hm.
    { unfold loadBuiltInPersonas. keeping. }
    apply Hm. rewrite Hw. apply keyed_nil.
Qed.

(** X22. Whenever [getAllPersonas] finds the map empty (its guard
    [personas.size === 0]), it loads the personas again and returns at
    least five profiles, the first five carrying the built-in ids in
    their order, whatever the store holds and whether it can be read. *)
Theorem getAllPersonas_built_in_ids (w : World) :
  personas w = [] →
  ∃ l w', getAllPersonas w = (Ok l, w')
          ∧ (5 ≤ length l)%nat
          ∧ map PersonaProfile.id (take 5 l) = builtInIds.
Proof.
  intros Hw. unfold getAllPersonas, ensureLoaded. rewrite !bind_run.
  unfold gets at 1. cbv beta iota. rewrite Hw. cbn [JsMap.size length].
  rewrite bool_decide_eq_true_2 by done.
  unfold initPersonas, tryCatch. rewrite bind_run.
  destruct (loadBuiltInPersonas_fresh w Hw) as (w1 & -> & Hkeys & Hk).
  cbv beta iota.
  set (Q := fun m : list (jsstring * PersonaProfile.t) =>
              keyed m ∧ ∃ rest, map fst m = builtInIds ++ rest).
  assert (Q (personas (loadCustomPersonas w1).2)) as [Hk2 [rest Hkeys2]].
  { apply (maintains_loadCustomPersonas Q).
    - intros persona m [? ?]. split; [by apply keyed_set | by apply keys_prefix_set].
    - split; [done|]. exists []. by rewrite app_nil_r. }
  assert (returns loadCustomPersonas) as Hr
    by (apply returns_tryCatch; intros; apply returns_consoleError).
  destruct (Hr w1) as [[] Hok].
  destruct (loadCustomPersonas w1) as [r w2]. cbn [fst snd] in *. subst r.
  exists (JsMap.values (personas w2)), w2. split; [reflexivity|].
  assert (map PersonaProfile.id (JsMap.values (personas w2)) = builtInIds ++ rest)
    as Hids by by rewrite keyed_ids.
  split.
  - apply (f_equal length) in Hids. rewrite length_map, length_app in Hids.
    change (length builtInIds) with 5%nat in Hids. lia.
  - rewrite <- firstn_map, Hids. by rewrite (take_app_length' builtInIds).
Qed.

(** *** Recommendations *)

Section Sorting.

Context {A : Type} (key : A → Z).

Let compare (a b : A) : Z := (key b - key a)%Z.
Let ordered (a b : A) : Prop := (key b ≤ key a)%Z.

Lemma insertSorted_Permutation (x : A) (l : list A) :
  JsArray.insertSorted compare x l ≡ₚ x :: l.
Proof.
  induction l as [|y l IH]; cbn [JsArray.insertSorted]; [done|].
  destruct (0 <? compare x y)%Z; [|done]. rewrite IH. apply Permutation_swap.
Qed.

Lemma sort_Permutation (l : list A) : JsArray.sort compare l ≡ₚ l.
Proof.
  induction l as [|x l IH]; cbn [JsArray.sort]; [done|].
  by rewrite insertSorted_Permutation, IH.
Qed.

Lemma insertSorted_HdRel (x y : A) (l : list A) :
  ordered y x → HdRel ordered y l → HdRel ordered y (JsArray.insertSorted compare x l).
Proof.
  intros Hx Hl. destruct l as [|z l]; cbn [JsArray.insertSorted]; [by constructor|].
  destruct (0 <? compare x z)%Z; [|by constructor].
  constructor. by apply HdRel_inv in Hl.
Qed.

Lemma insertSorted_Sorted (x : A) (l : list A) :
  Sorted ordered l → Sorted ordered (JsArray.insertSorted compare x l).
Proof.
  induction 1 as [|y l Hl IH Hy]; cbn [JsArray.insertSorted].
  - by repeat constructor.
  - unfold compare at 1. destruct (Z.ltb_spec 0 (key y - key x)) as [Hlt|Hge].
    + constructor; [done|]. apply insertSorted_HdRel; [unfold ordered; lia | done].
    + constructor; [by constructor|]. constructor. unfold ordered. lia.
Qed.

Lemma sort_Sorted (l : list A) : Sorted ordered (JsArray.sort compare l).
Proof.
  induction l as [|x l IH]; cbn [JsArray.sort]; [constructor|].
  by apply insertSorted_Sorted.
Qed.

(** The sort is stable: elements of one rank stay as they are. *)
Lemma sort_ties (l : list A) (rank : Z) :
  Forall (fun a => key a = rank) l → JsArray.sort compare l = l.
Proof.
  induction 1 as [|x l Hx Hl IH]; cbn [JsArray.sort]; [done|].
  rewrite IH. destruct Hl as [|y l Hy Hl]; cbn [JsArray.insertSorted]; [done|].
  unfold compare. rewrite Hx, Hy, Z.sub_diag. done.
Qed.

End Sorting.

Lemma scoreEntries_run (data : UserProfileData.t)
    (entries : list (jsstring * PersonaProfile.t))
    (recommendations : list Recommendation.t) (w : World) :
  scoreEntries (Some data) entries recommendations w
  = (Ok (recommendations ++ map (recommendationOf data) entries), w).
Proof.
  revert recommendations. induction entries as [|[id persona] entries IH];
    intros recommendations; cbn [scoreEntries map].
  - by rewrite app_nil_r.
  - rewrite IH. by rewrite <- app_assoc.
Qed.

Lemma eqb_eq (a b : jsstring) : JsString.eqb a b = true → a = b.
Proof. unfold JsString.eqb. by intros ?%bool_decide_eq_true. Qed.

(** The bonus of the traits goes to one id and is at most 35 (commander:
    20 and 15); the bonus of the preferences is at most 20, a verbosity
    level being either concise or detailed. *)
Lemma recommendationScore_bounds (data : UserProfileData.t) (id : jsstring)
    (persona : PersonaProfile.t) :
  (50 ≤ recommendationScore data id persona ≤ 105)%Z.
Proof.
  unfold recommendationScore. cbv zeta.
  set (traitScore := match UserProfileData.traits data with
                     | Some _ => _
                     | None => _
                     end).
  assert (50 ≤ traitScore ≤ 85)%Z as Ht.
  { unfold traitScore. destruct (UserProfileData.traits data) as [tr|]; [|lia].
    destruct (JsString.eqb id (js "commander")) eqn:E1;
    destruct (JsString.eqb id (js "architect")) eqn:E2;
    destruct (JsString.eqb id (js "catalyst")) eqn:E3;
    destruct (JsString.eqb id (js "strategist")) eqn:E4;
    destruct (JsString.eqb id (js "tactical")) eqn:E5;
    try (exfalso;
         match goal with
         | H : JsString.eqb id _ = true |- _ => apply eqb_eq in H; subst id
         end;
         match goal with
         | H : JsString.eqb _ _ = true |- _ => vm_compute in H; discriminate H
         end);
    repeat match goal with
    | |- context [PrimFloat.ltb ?a ?b] => destruct (PrimFloat.ltb a b)
    end; cbn [andb orb]; lia. }
  clearbody traitScore.
  destruct (UserProfileData.communicationPreferences data) as [pr|]; [|lia].
  destruct (JsString.eqb (UserProfileData.verbosityLevel pr) (js "concise")) eqn:E1;
  destruct (JsString.eqb (UserProfileData.verbosityLevel pr) (js "detailed")) eqn:E2;
  [ exfalso; apply eqb_eq in E1; rewrite E1 in E2; vm_compute in E2; discriminate E2
  | | | ];
  repeat match goal with
  | |- context [bool_decide ?P] => destruct (bool_decide P)
  end;
  destruct (JsString.eqb (UserProfileData.feedbackStyle pr) (js "direct"));
  cbn [andb]; lia.
Qed.

(** X25. A profile that is [null] or [undefined] gets no recommendation: the
    TypeError of the first property read is caught and the list is
    empty, whatever the state of the map and the store. *)
Theorem getRecommendedPersonas_no_profile (w : World) :
  (getRecommendedPersonas None w).1 = Ok [].
Proof.
  unfold getRecommendedPersonas, tryCatch. rewrite bind_run.
  destruct (ensureLoaded_run w) as (w1 & -> & Hl & _). cbv beta iota.
  rewrite bind_run. unfold gets. cbv beta iota. rewrite bind_run.
  unfold loaded in Hl. destruct (personas w1) as [|[id persona] rest]; [done|].
  reflexivity.
Qed.

(** X26. The recommendations for a profile: one for every persona of the
    map, the highest score first, every score from 50 to 105. *)
Theorem getRecommendedPersonas_ranking (w : World) (data : UserProfileData.t) :
  ∃ recommendations w',
    getRecommendedPersonas (Some data) w = (Ok recommendations, w')
    ∧ recommendations ≡ₚ map (recommendationOf data) (personas w')
    ∧ byScore recommendations
    ∧ Forall (fun r => 50 ≤ Recommendation.score r ≤ 105)%Z recommendations
    ∧ recommendations ≠ [].
Proof.
  destruct (ensureLoaded_run w) as (w1 & Hrun & Hl & _).
  eexists _, w1. split.
  { unfold getRecommendedPersonas, tryCatch. rewrite bind_run, Hrun. cbv beta iota.
    rewrite bind_run. unfold gets. cbv beta iota.
    rewrite bind_run, scoreEntries_run. reflexivity. }
  cbn [app].
  pose proof (sort_Permutation Recommendation.score
                (map (recommendationOf data) (personas w1))) as Hperm.
  split_and!.
  - exact Hperm.
  - apply (sort_Sorted Recommendation.score).
  - rewrite Hperm. apply Forall_forall.
    intros r (e & -> & _)%list_elem_of_fmap. apply recommendationScore_bounds.
  - intros Hnil. rewrite Hnil in Hperm. symmetry in Hperm.
    apply Permutation_nil_r in Hperm. apply fmap_nil_inv in Hperm. by apply Hl.
Qed.

(** X27. Personas of one score keep the order of the map: for a profile
    without traits and without preferences the list is the map, every
    persona at the base score. *)
Theorem getRecommendedPersonas_base_scores (w : World) (data : UserProfileData.t) :
  UserProfileData.traits data = None →
  UserProfileData.communicationPreferences data = None →
  ∃ w', getRecommendedPersonas (Some data) w
        = (Ok (map (fun e => {| Recommendation.id := e.1;
                                Recommendation.score := 50 |})
                   (personas w')), w').
Proof.
  intros Ht Hc. destruct (ensureLoaded_run w) as (w1 & Hrun & Hl & _).
  exists w1.
  unfold getRecommendedPersonas, tryCatch. rewrite bind_run, Hrun. cbv beta iota.
  rewrite bind_run. unfold gets. cbv beta iota.
  rewrite bind_run, scoreEntries_run. cbn [app]. unfold mret, M_ret.
  assert (map (recommendationOf data) (personas w1)
          = map (fun e => {| Recommendation.id := e.1;
                             Recommendation.score := 50 |}) (personas w1)) as ->.
  { apply map_ext. intros [id persona]. unfold recommendationOf, recommendationScore.
    by rewrite Ht, Hc. }
  rewrite (sort_ties Recommendation.score _ 50); [done|].
  apply Forall_forall. by intros r (e & -> & _)%list_elem_of_fmap.
Qed.

End Personas.

(** *** The personality engine on a fresh installation *)

Section PersonaExamples.

Import AsyncStorage PersonalityEngine.



Lemma savePersona_survives_restart_witness :
  let edited := PersonaProfile.with_name (js "Commander, softer") commander in
  noFaults emptyWorld
  ∧ keyed (personas emptyWorld)
  ∧ jsonNumber (PersonaProfile.temperature edited) = true
  ∧ ∃ w', savePersona 1700000000000 edited emptyWorld = (Ok tt, w')
          ∧ (∃ builtIn,
               (getPersona (PersonaProfile.id (asSaved 1700000000000 edited))
                  (constructed w')).1 = Ok (Some builtIn)
               ∧ builtIn ∈ builtIns)
          ∧ (getPersona (PersonaProfile.id (asSaved 1700000000000 edited)) (settled w')).1
            = Ok (Some (asSaved 1700000000000 edited)).
Proof.
  intros edited.
  assert (noFaults emptyWorld) as Hn by constructor.
  assert (keyed (personas emptyWorld)) as Hk by apply keyed_nil.
  assert (jsonNumber (PersonaProfile.temperature edited) = true) as Ht
    by (vm_compute; reflexivity).
  split_and!; [exact Hn | exact Hk | exact Ht |].
  exact (savePersona_survives_restart emptyWorld 1700000000000 edited Hn Hk Ht).
Defined.

(** The new singleton over that store: the built-in commander at the
    moment the constructor returns, the stored one once the load has
    settled. *)
Example getPersona_new_singleton :
  let edited := PersonaProfile.with_name (js "Commander, softer") commander in
  let w := (savePersona 1700000000000 edited emptyWorld).2 in
  (getPersona (js "commander") (constructed w)).1 = Ok (Some commander)
  ∧ (getPersona (js "commander") (settled w)).1
    = Ok (Some (PersonaProfile.with_isCustom (Some true) edited))
  ∧ (getAllPersonas (settled w)).1
    = Ok [strategist; PersonaProfile.with_isCustom (Some true) edited; architect;
          catalyst; tactical].
Proof. vm_compute. split_and!; reflexivity. Qed.


Example duplicatePersona_unknown_base :
  (duplicatePersona 1700000000000 (js "mentor_9") [] emptyWorld).1
  = Ok (copyOf 1700000000000 [] commander)
  ∧ PersonaProfile.name (copyOf 1700000000000 [] commander) = js "Командир (копия)".
Proof. vm_compute. split; reflexivity. Qed.

Lemma personas_stay_keyed_witness :
  let w := with_faults [true; false; true] emptyWorld in
  let edited := PersonaProfile.with_name (js "Commander, softer") commander in
  keyed (personas w)
  ∧ keyed (personas (getAllPersonas w).2)
  ∧ keyed (personas (getPersona (js "commander") w).2)
  ∧ keyed (personas (savePersona 1700000000000 edited w).2)
  ∧ keyed (personas (deletePersona (js "commander") w).2)
  ∧ keyed (personas (duplicatePersona 1700000000000 (js "commander") (js "Mine") w).2)
  ∧ keyed (personas (getRecommendedPersonas None w).2).
Proof.
  intros w edited.
  assert (keyed (personas w)) as Hk by apply keyed_nil.
  split; [exact Hk|].
  exact (personas_stay_keyed w 1700000000000 edited (js "commander") (js "Mine") None Hk).
Defined.

(** The map is empty after a persona was saved under each built-in id
    and the five were deleted. *)
Lemma getAllPersonas_built_in_ids_witness :
  personas emptiedWorld = []
  ∧ ∃ l w', getAllPersonas emptiedWorld = (Ok l, w')
            ∧ (5 ≤ length l)%nat
            ∧ map PersonaProfile.id (take 5 l) = builtInIds.
Proof.
  assert (personas emptiedWorld = []) as H by (vm_compute; reflexivity).
  split; [exact H|].
  exact (getAllPersonas_built_in_ids emptiedWorld H).
Defined.

Lemma getRecommendedPersonas_base_scores_witness :
  let data := {| UserProfileData.traits := None;
                 UserProfileData.communicationPreferences := None |} in
  UserProfileData.traits data = None
  ∧ UserProfileData.communicationPreferences data = None
  ∧ ∃ w', getRecommendedPersonas (Some data) emptyWorld
          = (Ok (map (fun e => {| Recommendation.id := e.1;
                                  Recommendation.score := 50 |})
                     (personas w')), w').
Proof.
  intros data.
  assert (UserProfileData.traits data = None) as Ht by reflexivity.
  assert (UserProfileData.communicationPreferences data = None) as Hc by reflexivity.
  split_and!; [exact Ht | exact Hc |].
  exact (getRecommendedPersonas_base_scores emptyWorld data Ht Hc).
Defined.

(** A conscientious, anxious user who likes it short and direct: the
    commander comes first with the highest score there is. *)
Example getRecommendedPersonas_commander :
  let data :=
    {| UserProfileData.traits :=
         Some {| UserProfileData.conscientiousness := 9; UserProfileData.openness := 5;
                 UserProfileData.neuroticism := 8; UserProfileData.resilience := 6 |};
       UserProfileData.communicationPreferences :=
         Some {| UserProfileData.verbosityLevel := js "concise";
                 UserProfileData.feedbackStyle := js "direct" |} |} in
  (getRecommendedPersonas (Some data) emptyWorld).1
  = Ok [ {| Recommendation.id := js "commander"; Recommendation.score := 105 |};
         {| Recommendation.id := js "architect"; Recommendation.score := 70 |};
         {| Recommendation.id := js "strategist"; Recommendation.score := 50 |};
         {| Recommendation.id := js "catalyst"; Recommendation.score := 50 |};
         {| Recommendation.id := js "tactical"; Recommendation.score := 50 |} ].
Proof. vm_compute. reflexivity. Qed.



End PersonaExamples.

(** ** The request: what goes to the model *)

Section Requests.

Import AICoreService.

(** X5. The payload starts with two system messages, the instructions
    first, and goes on with the last ten turns of the context window (all
    of them when there are fewer), oldest first: older turns are not
    sent. *)
Theorem buildMessagePayload_window (systemInstructions : jsstring)
    (contextWindow : list Message.t)
    (relevantMemories userProfileJson localeNow : jsstring) :
  let payload := buildMessagePayload systemInstructions contextWindow
                   relevantMemories userProfileJson localeNow in
  length payload = (2 + Nat.min 10 (length contextWindow))%nat
  ∧ head payload = Some {| role := js "system"; content := systemInstructions |}
  ∧ map role (take 2 payload) = [js "system"; js "system"]
  ∧ ∃ older recent,
      contextWindow = older ++ recent
      ∧ length recent = Nat.min 10 (length contextWindow)
      ∧ drop 2 payload
        = map (fun msg => {| role := roleName (Message.role msg);
                             content := Message.content msg |}) recent.
Proof.
  cbv zeta. unfold buildMessagePayload. split_and!.
  - rewrite length_app, length_map, length_drop. cbn [length]. lia.
  - reflexivity.
  - reflexivity.
  - exists (take (length contextWindow - 10) contextWindow),
           (drop (length contextWindow - 10) contextWindow).
    split_and!; [by rewrite take_drop | rewrite length_drop; lia | reflexivity].
Qed.

Example buildMessagePayload_twelve :
  let turn (n : N) :=
    {| Message.id := js "msg_" ++ ofN n; Message.role := user;
       Message.content := js "turn " ++ ofN n; Message.timestamp := [] |} in
  let window := map turn [1; 2; 3; 4; 5; 6; 7; 8; 9; 10; 11; 12] in
  map content (drop 2 (buildMessagePayload (js "Be brief.") window [] (js "{}") []))
  = map (fun n => js "turn " ++ ofN n) [3; 4; 5; 6; 7; 8; 9; 10; 11; 12].
Proof. vm_compute. reflexivity. Qed.

Lemma parseResponse_nothing_twice_witness :
  intents (parseResponse exampleResponse) = []
  ∧ intents (parseResponse (text (parseResponse exampleResponse))) = [].
Proof.
  assert (intents (parseResponse exampleResponse) = []) as H
    by (vm_compute; reflexivity).
  split; [exact H|].
  exact (parseResponse_nothing_twice exampleResponse H).
Defined.

End Requests.
